(** * 2D-Convection: the time-stepping kernel of [src/src/sim.cpp]

    A shallow embedding of class [Sim]: the linear and nonlinear tendency
    kernels, the Adams-Bashforth update, the Poisson solve, checkpoint save
    and load, the kinetic-energy stream and the two drivers.

    - [double] is IEEE binary64, modelled by Rocq's primitive floats.
    - [int] is modelled by [Z]; signed overflow is undefined in C++ and the
      index arithmetic of the simulator stays far below 2^31 on every grid
      that fits in memory, so no wrap-around is written out.
    - The heap arrays ([psi], [omg], [tmp], [xi], [dTmpdt], [dOmgdt],
      [dXidt]) are lists of doubles in a store indexed by the array's name.
      Every subscript is checked: an access outside the allocation (undefined
      behaviour in C++) is the error [OutOfBounds].
    - [assert] aborts with [AssertionFailed] unless [NDEBUG] is set;
      [exit(-1)] is the error [Exit]; an exception that nothing catches is
      the error [Uncaught].
    - The preprocessor symbol [DDC] is a boolean of the build. *)

From Stdlib Require Import ZArith Lia Floats.
From stdpp Require Import base list list_numbers strings pretty gmap.

Local Open Scope Z_scope.
Set Warnings "-inexact-float".
#[local] Set Default Proof Using "Type".

(** ** Doubles and ints *)

#[global] Instance float_inhabited : Inhabited float := populate 0%float.

(** Conversion [int -> double] (exact for every [int]). *)
Definition of_int (z : Z) : float :=
  if z <? 0 then PrimFloat.opp (PrimFloat.of_uint63 (Uint63.of_Z (- z)))
  else PrimFloat.of_uint63 (Uint63.of_Z z).

(** [M_PI] of <cmath>: 3.14159265358979323846 rounded to binary64. *)
Definition M_PI : float := 0x1.921fb54442d18p+1%float.

(** ** Errors *)

Inductive error : Type :=
  | OutOfBounds
  | AssertionFailed
  | Exit (code : Z) (diagnostic : string)
  | Uncaught (exception : string).

Inductive result (A : Type) : Type :=
  | Ok (x : A)
  | Err (e : error).
Arguments Ok {A} x.
Arguments Err {A} e.

#[global] Instance result_bind : MBind result :=
  λ A B k m, match m with Ok x => k x | Err e => Err e end.
#[global] Instance result_ret : MRet result := λ A x, Ok x.

(** The outcome of a loop body that may [return] from the function. *)
Inductive control (A : Type) : Type :=
  | Continue (x : A)
  | Return (v : float).
Arguments Continue {A} x.
Arguments Return {A} v.

(** ** What [sim.cpp] takes from headers that are not part of the sources

    [precision.hpp] ([EPSILON]), [utility.hpp] ([strFromNumber]),
    [numerical_methods.hpp] and the Thomas solver ([checkCFL],
    [ThomasAlgorithm::solve]) and the libm functions of <cmath>. They are
    parameters of the development. *)
Record External : Type := {
  NDEBUG : bool;
  DDC : bool;
  EPSILON : float;
  c_pow : float → float → float;
  c_sin : float → float;
  c_log : float → float;
  strFromNumber : Z → string;
  (* checkCFL(psi, dz, dx, dt, a, nN, nX, nZ) *)
  checkCFL : list float → float → float → float → Z → Z → Z → Z → float;
  (* ThomasAlgorithm(nZ, nN, a, oodz2).solve(sol, rhs, n): the nZ values
     written to sol, from the nZ values of rhs *)
  thomas_solve : Z → Z → Z → float → Z → list float → list float
}.

(** ** Arrays *)

Inductive arr : Type := Psi | Omg | Tmp | Xi | DTmpdt | DOmgdt | DXidt.

#[global] Instance arr_eq_dec : EqDecision arr.
Proof. solve_decision. Defined.

Definition len (l : list float) : Z := Z.of_nat (length l).

(** [l[i]] as a partial map on [Z]. *)
Definition getZ (l : list float) (i : Z) : option float :=
  if 0 <=? i then l !! Z.to_nat i else None.

(** [l[i]] where the access is known to be in range. *)
Definition at_ (l : list float) (i : Z) : float := default 0%float (getZ l i).

Definition rd (l : list float) (i : Z) : result float :=
  match getZ l i with
  | Some x => Ok x
  | None => Err OutOfBounds
  end.

Definition wr (l : list float) (i : Z) (x : float) : result (list float) :=
  if (0 <=? i) && (i <? len l) then Ok (<[Z.to_nat i := x]> l)
  else Err OutOfBounds.

(** The [n] doubles at [l + off]. *)
Definition slice (l : list float) (off n : Z) : result (list float) :=
  if (0 <=? off) && (0 <=? n) && (off + n <=? len l)
  then Ok (take (Z.to_nat n) (drop (Z.to_nat off) l))
  else Err OutOfBounds.

(** Overwrite [l + off ...] with the doubles of [src]. *)
Definition blit (l : list float) (off : Z) (src : list float)
  : result (list float) :=
  if (0 <=? off) && (off + len src <=? len l)
  then Ok (take (Z.to_nat off) l ++ src
           ++ drop (Z.to_nat off + length src) l)
  else Err OutOfBounds.

(** ** Loops

    [for (int i = lo; i < hi; ++i) body]. *)
Fixpoint iter_from {St : Type} (count : nat) (i : Z)
    (body : Z → St → result St) (s : St) : result St :=
  match count with
  | O => Ok s
  | S count' => s' ← body i s; iter_from count' (i + 1) body s'
  end.

Definition for_loop {St : Type} (lo hi : Z) (body : Z → St → result St) (s : St)
  : result St :=
  iter_from (Z.to_nat (hi - lo)) lo body s.

(** ** Constants of a run and the mutable state of [Sim] *)

Record Constants : Type := {
  nZ : Z;
  nN : Z;
  dt : float;
  Ra : float;
  Pr : float;
  a : Z;
  RaXi : float;
  tau : float;
  timeBetweenSaves : float;
  modifydt : bool;
  totalTime : float;
  saveFolder : string;
  icFile : string
}.

Record Sim : Type := mkSim {
  mem : arr → list float;
  current : Z;
  t : float;
  (* the members are declared in sim.hpp; [tmpGrad] and [xiGrad] only ever
     hold 1 or -1 and are compared against these literals with == *)
  tmpGrad : Z;
  xiGrad : Z;
  kePrev : float;
  keCurrent : float;
  saveNumber : Z;
  (* the files the simulator touches: contents as doubles, and the paths
     that cannot be opened for writing *)
  fs : gmap string (list float);
  fs_denied : gset string
}.

Definition set_mem (x : arr) (l : list float) (s : Sim) : Sim :=
  mkSim (λ y, if decide (y = x) then l else mem s y)
        (current s) (t s) (tmpGrad s) (xiGrad s) (kePrev s) (keCurrent s)
        (saveNumber s) (fs s) (fs_denied s).

Definition set_current (v : Z) (s : Sim) : Sim :=
  mkSim (mem s) v (t s) (tmpGrad s) (xiGrad s) (kePrev s) (keCurrent s)
        (saveNumber s) (fs s) (fs_denied s).

Definition set_t (v : float) (s : Sim) : Sim :=
  mkSim (mem s) (current s) v (tmpGrad s) (xiGrad s) (kePrev s) (keCurrent s)
        (saveNumber s) (fs s) (fs_denied s).

Definition set_tmpGrad (v : Z) (s : Sim) : Sim :=
  mkSim (mem s) (current s) (t s) v (xiGrad s) (kePrev s) (keCurrent s)
        (saveNumber s) (fs s) (fs_denied s).

Definition set_xiGrad (v : Z) (s : Sim) : Sim :=
  mkSim (mem s) (current s) (t s) (tmpGrad s) v (kePrev s) (keCurrent s)
        (saveNumber s) (fs s) (fs_denied s).

Definition set_ke (prev cur : float) (s : Sim) : Sim :=
  mkSim (mem s) (current s) (t s) (tmpGrad s) (xiGrad s) prev cur
        (saveNumber s) (fs s) (fs_denied s).

Definition set_saveNumber (v : Z) (s : Sim) : Sim :=
  mkSim (mem s) (current s) (t s) (tmpGrad s) (xiGrad s) (kePrev s)
        (keCurrent s) v (fs s) (fs_denied s).

Definition set_fs (v : gmap string (list float)) (s : Sim) : Sim :=
  mkSim (mem s) (current s) (t s) (tmpGrad s) (xiGrad s) (kePrev s)
        (keCurrent s) (saveNumber s) v (fs_denied s).

(** [x[i] = v] on a member array. *)
Definition store (x : arr) (i : Z) (v : float) (s : Sim) : result Sim :=
  l ← wr (mem s x) i v; Ok (set_mem x l s).

(** ** Numerical primitives ([numerical_methods.hpp]) *)

(** Modelled from the spec: [dfdz(F, i, dz)] of numerical_methods.hpp, the
    centred first difference (F[i+1] − F[i−1]) / (2·dz). *)
Definition dfdz (l : list float) (i : Z) (dz : float) : result float :=
  hi ← rd l (i + 1); lo ← rd l (i - 1);
  Ok ((hi - lo) / (2 * dz))%float.

(** Modelled from the spec: [dfdz2(F, i, dz)] of numerical_methods.hpp, the
    centred second difference (F[i+1] − 2·F[i] + F[i−1]) / dz². *)
Definition dfdz2 (l : list float) (i : Z) (dz : float) : result float :=
  hi ← rd l (i + 1); mid ← rd l i; lo ← rd l (i - 1);
  Ok ((hi - 2 * mid + lo) / (dz * dz))%float.

(** Modelled from the spec: [adamsBashforth(dNew, dOld, f, dt)] of
    numerical_methods.hpp, dt·((1 + f/2)·dNew − (f/2)·dOld). *)
Definition adamsBashforth (dNew dOld frac dt : float) : float :=
  (dt * ((1 + frac / 2) * dNew - (frac / 2) * dOld))%float.

(** The same differences on values known to be in range. *)
Definition dfdz_at (l : list float) (i : Z) (dz : float) : float :=
  ((at_ l (i + 1) - at_ l (i - 1)) / (2 * dz))%float.

Definition dfdz2_at (l : list float) (i : Z) (dz : float) : float :=
  ((at_ l (i + 1) - 2 * at_ l i + at_ l (i - 1)) / (dz * dz))%float.

Section Simulator.

Context (E : External) (c : Constants).

(** [assert(e)]: [e] is not evaluated when NDEBUG is defined. *)
Definition assert (e : result bool) : result unit :=
  if NDEBUG E then Ok tt
  else b ← e; if b : bool then Ok tt else Err AssertionFailed.

(** Derived constants of [Sim::init]. *)
Definition nX : Z := nZ c * a c.
Definition dz : float := (of_int 1 / of_int (nZ c - 1))%float.
Definition dx : float := (of_int (a c) / of_int (nX - 1))%float.
Definition oodz2 : float := c_pow E (1.0 / dz)%float 2%float.

(** [n*M_PI/a] *)
Definition kx (n : Z) : float := (of_int n * M_PI / of_int (a c))%float.

(** [n] doubles, all 0.0. *)
Definition zeros (n : Z) : list float := replicate (Z.to_nat n) 0%float.

(** *** [Sim::init] *)



(** *** [Sim::updateTmpAndOmg] *)

Definition update_cell (frac : float) (n k : Z) (s : Sim) : result Sim :=
  let i := n * nZ c + k in
  let cur := current s * nZ c * nN c + n * nZ c + k in
  let prv := Z.rem (current s + 1) 2 * nZ c * nN c + n * nZ c + k in
  tv ← rd (mem s Tmp) i;
  dn ← rd (mem s DTmpdt) cur; dold ← rd (mem s DTmpdt) prv;
  s ← store Tmp i (tv + adamsBashforth dn dold frac (dt c))%float s;
  wv ← rd (mem s Omg) i;
  dn ← rd (mem s DOmgdt) cur; dold ← rd (mem s DOmgdt) prv;
  s ← store Omg i (wv + adamsBashforth dn dold frac (dt c))%float s;
  assert (v ← rd (mem s Tmp) i; Ok (negb (PrimFloat.is_nan v)));;
  assert (v ← rd (mem s Omg) i; Ok (negb (PrimFloat.is_nan v)));;
  Ok s.

Definition update_check_bcs (n : Z) (s : Sim) : result Sim :=
  (if 0 <? n
   then assert (v ← rd (mem s Tmp) (n * nZ c); Ok (v <? EPSILON E)%float)
   else assert (v ← rd (mem s Tmp) (n * nZ c);
                Ok (v - 1.0 <? EPSILON E)%float));;
  assert (v ← rd (mem s Tmp) (n * nZ c + nZ c - 1);
          Ok (v <? EPSILON E)%float);;
  assert (v ← rd (mem s Omg) (n * nZ c); Ok (v <? EPSILON E)%float);;
  assert (v ← rd (mem s Omg) (n * nZ c + nZ c - 1);
          Ok (v <? EPSILON E)%float);;
  Ok s.

Definition updateTmpAndOmg (frac : float) (s : Sim) : result Sim :=
  for_loop 0 (nN c) (λ n s,
    s ← for_loop 0 (nZ c) (update_cell frac n) s;
    update_check_bcs n s) s.

(** *** [Sim::updateXi] (DDC builds) *)

Definition updateXi (frac : float) (s : Sim) : result Sim :=
  for_loop 0 (nN c) (λ n s,
    for_loop 0 (nZ c) (λ k s,
      xv ← rd (mem s Xi) (n * nZ c + k);
      dn ← rd (mem s DXidt) (current s * nZ c * nN c + n * nZ c + k);
      dold ← rd (mem s DXidt)
                (Z.rem (current s + 1) 2 * nZ c * nN c + n * nZ c + k);
      store Xi (n * nZ c + k)
            (xv + adamsBashforth dn dold frac (dt c))%float s) s) s.

(** *** [Sim::computeLinearDerivatives] *)

Definition linear_cell (linearSim n k : Z) (s : Sim) : result Sim :=
  let di := current s * nZ c * nN c + n * nZ c + k in
  let i := k + n * nZ c in
  d2 ← dfdz2 (mem s Tmp) i dz; ti ← rd (mem s Tmp) i;
  s ← store DTmpdt di (d2 - c_pow E (kx n) 2 * ti)%float s;
  s ← (if DDC E
       then d2 ← dfdz2 (mem s Xi) i dz; xv ← rd (mem s Xi) i;
            store DXidt di (tau c * (d2 - c_pow E (kx n) 2 * xv))%float s
       else Ok s);
  s ← (if linearSim =? 1
       then
         s ← (if DDC E
              then old ← rd (mem s DXidt) di; p ← rd (mem s Psi) i;
                   store DXidt di
                     (old + of_int (-1 * xiGrad s * n) * M_PI / of_int (a c)
                            * p)%float s
              else Ok s);
         old ← rd (mem s DTmpdt) di; p ← rd (mem s Psi) i;
         store DTmpdt di
           (old + of_int (-1 * tmpGrad s * n) * M_PI / of_int (a c)
                  * p)%float s
       else Ok s);
  assert (d2 ← dfdz2 (mem s Tmp) i dz; ti ← rd (mem s Tmp) i;
          p ← rd (mem s Psi) i;
          Ok (negb (PrimFloat.is_nan
                (d2 - c_pow E (kx n) 2 * ti
                 + kx n * p * of_int linearSim)%float)));;
  d2 ← dfdz2 (mem s Omg) i dz; wv ← rd (mem s Omg) i; ti ← rd (mem s Tmp) i;
  s ← store DOmgdt di
        (Pr c * (d2 - c_pow E (kx n) 2 * wv
                 + Ra c * of_int n * M_PI / of_int (a c) * ti))%float s;
  s ← (if DDC E
       then old ← rd (mem s DOmgdt) di; xv ← rd (mem s Xi) i;
            store DOmgdt di
              (old + - RaXi c * tau c * Pr c * kx n * xv)%float s
       else Ok s);
  assert (v ← rd (mem s DOmgdt) (nZ c * 0 + k); Ok (v <? EPSILON E)%float);;
  Ok s.

Definition computeLinearDerivatives (linearSim : Z) (s : Sim) : result Sim :=
  for_loop linearSim (nN c) (λ n s,
    for_loop 1 (nZ c - 1) (linear_cell linearSim n) s) s.

(** *** [Sim::computeNonLinearDerivatives] *)

(** [x[i] += v] *)
Definition add_to (x : arr) (i : Z) (v : float) (s : Sim) : result Sim :=
  old ← rd (mem s x) i; store x i (old + v)%float s.

(** Contribution TO tmp[n=0]. *)
Definition nl_to_mean (n k : Z) (s : Sim) : result Sim :=
  let i := n * nZ c + k in
  dp ← dfdz (mem s Psi) i dz; tv ← rd (mem s Tmp) i;
  dtm ← dfdz (mem s Tmp) i dz; pv ← rd (mem s Psi) i;
  add_to DTmpdt (current s * nZ c * nN c + 0 * nN c + k)
    (- M_PI / of_int (2 * a c) * of_int n * (dp * tv + dtm * pv))%float s.

(** Contribution FROM tmp[n=0]. *)
Definition nl_from_mean (n k : Z) (s : Sim) : result Sim :=
  let i := n * nZ c + k in
  pv ← rd (mem s Psi) i; d0 ← dfdz (mem s Tmp) (0 * nZ c + k) dz;
  add_to DTmpdt (current s * nZ c * nN c + i)
    (of_int (- n) * M_PI / of_int (a c) * pv * d0)%float s.

(** The three triad loops share their shape: [sgnm] is the sign in front of
    [m], [lead] the factor in front of the bracket for each of the two
    fields. *)
Definition triad_term (lead : float) (sm o : Z) (im io : Z)
    (fld : list float) (psi : list float) : result float :=
  dp ← dfdz psi io dz; fv ← rd fld im;
  df ← dfdz fld im dz; pv ← rd psi io;
  Ok (lead * (of_int sm * dp * fv + of_int o * df * pv))%float.

Definition triad_cell (leadT leadW : float) (sm o n m k : Z) (s : Sim)
  : result Sim :=
  let im := nZ c * m + k in
  let io := nZ c * o + k in
  vT ← triad_term leadT sm o im io (mem s Tmp) (mem s Psi);
  s ← add_to DTmpdt (current s * nZ c * nN c + nZ c * n + k) vT s;
  vW ← triad_term leadW sm o im io (mem s Omg) (mem s Psi);
  add_to DOmgdt (current s * nZ c * nN c + nZ c * n + k) vW s.

Definition check_mo (m o : Z) : result unit :=
  assert (Ok ((0 <? o) && (o <? nN c)));;
  assert (Ok ((0 <? m) && (m <? nN c))).

(** Case n = n' + n'' *)
Definition nl_triad_sum (n : Z) (s : Sim) : result Sim :=
  for_loop 1 n (λ m s,
    let o := n - m in
    check_mo m o;;
    for_loop 1 (nZ c - 1)
      (triad_cell (- M_PI / of_int (2 * a c)) (- M_PI / of_int (2 * a c))
                  (- m) o n m) s) s.

(** Case n = n' - n'' *)
Definition nl_triad_diff (n : Z) (s : Sim) : result Sim :=
  for_loop (n + 1) (nN c) (λ m s,
    let o := m - n in
    check_mo m o;;
    for_loop 1 (nZ c - 1)
      (triad_cell (- M_PI / of_int (2 * a c)) (- M_PI / of_int (2 * a c))
                  m o n m) s) s.

(** Case n = n'' - n' *)
Definition nl_triad_rdiff (n : Z) (s : Sim) : result Sim :=
  for_loop 1 (nN c - n) (λ m s,
    let o := n + m in
    check_mo m o;;
    for_loop 1 (nZ c - 1)
      (triad_cell (- M_PI / of_int (2 * a c)) (M_PI / of_int (2 * a c))
                  m o n m) s) s.

(** The iterations of the second loop over [n] are distributed over threads
    by OpenMP; iteration [n] writes only row [n] of the tendency buffers and
    reads only [psi], [tmp], [omg], so the sequential order is one of the
    equivalent schedules. *)
Definition nl_mode (n : Z) (s : Sim) : result Sim :=
  s ← for_loop 1 (nZ c - 1) (nl_from_mean n) s;
  s ← nl_triad_sum n s;
  s ← nl_triad_diff n s;
  nl_triad_rdiff n s.

Definition computeNonLinearDerivatives (s : Sim) : result Sim :=
  s ← for_loop 1 (nN c) (λ n s, for_loop 1 (nZ c - 1) (nl_to_mean n) s) s;
  for_loop 1 (nN c) nl_mode s.

(** *** [Sim::solveForPsi] *)

Definition solve_mode (n : Z) (s : Sim) : result Sim :=
  rhs ← slice (mem s Omg) (nZ c * n) (nZ c);
  let sol := thomas_solve E (nZ c) (nN c) (a c) oodz2 n rhs in
  l ← blit (mem s Psi) (nZ c * n) (resize (Z.to_nat (nZ c)) 0%float sol);
  let s := set_mem Psi l s in
  assert (v ← rd (mem s Psi) (nZ c * n + 0); Ok (v =? 0.0)%float);;
  assert (v ← rd (mem s Psi) (nZ c * n + nZ c - 1); Ok (v =? 0.0)%float);;
  Ok s.

Definition solveForPsi (s : Sim) : result Sim :=
  s ← for_loop 0 (nN c) solve_mode s;
  for_loop 0 (nZ c) (λ k s,
    assert (v ← rd (mem s Psi) (nZ c * 0 + k); Ok (v <? EPSILON E)%float);;
    Ok s) s.

(** *** Checkpoints: [Sim::save] and [Sim::load] *)

Definition vars_name (number : Z) : string :=
  saveFolder c +:+ "vars" +:+ strFromNumber E number +:+ ".dat".

Definition save (s : Sim) : result Sim :=
  let name := vars_name (saveNumber s) in
  let s := set_saveNumber (saveNumber s + 1) s in
  if decide (name ∈ fs_denied s)
  then Err (Exit (-1) ("Couldn't open " +:+ saveFolder c
                       +:+ " for writing. Aborting."))
  else
    let cur := current s * nZ c * nN c in
    let oth := Z.rem (current s + 1) 2 * nZ c * nN c in
    b1 ← slice (mem s Tmp) 0 (nN c * nZ c);
    b2 ← slice (mem s Omg) 0 (nN c * nZ c);
    b3 ← slice (mem s Psi) 0 (nN c * nZ c);
    b4 ← slice (mem s DTmpdt) cur (nN c * nZ c);
    b5 ← slice (mem s DTmpdt) oth (nN c * nZ c);
    b6 ← slice (mem s DOmgdt) cur (nN c * nZ c);
    b7 ← slice (mem s DOmgdt) oth (nN c * nZ c);
    Ok (set_fs (<[name := b1 ++ b2 ++ b3 ++ b4 ++ b5 ++ b6 ++ b7]> (fs s)) s).

(** [file.read(x + off, n doubles)] on an input stream: [None] is a stream
    whose failbit is set; a short read stores what is there and fails. *)
Definition file_read (x : arr) (off n : Z)
    (st : Sim * option (list float)) : result (Sim * option (list float)) :=
  let '(s, stream) := st in
  match stream with
  | None => Ok (s, None)
  | Some rest =>
      if n <=? len rest
      then l ← blit (mem s x) off (take (Z.to_nat n) rest);
           Ok (set_mem x l s, Some (drop (Z.to_nat n) rest))
      else l ← blit (mem s x) off rest;
           Ok (set_mem x l s, None)
  end.

(** [load(tmp, omg, psi, icFile)]: the three pointer parameters shadow the
    members; the tendency buffers are always the members. *)
Definition load (ptmp pomg ppsi : arr) (file : string) (s : Sim)
  : result Sim :=
  match fs s !! file with
  | None => Err (Exit (-1) ("Couldn't open " +:+ file
                            +:+ " for reading. Aborting."))
  | Some data =>
      let cur := current s * nZ c * nN c in
      let oth := Z.rem (current s + 1) 2 * nZ c * nN c in
      st ← file_read ptmp 0 (nN c * nZ c) (s, Some data);
      st ← file_read pomg 0 (nN c * nZ c) st;
      st ← file_read ppsi 0 (nN c * nZ c) st;
      st ← file_read DTmpdt cur (nN c * nZ c) st;
      st ← file_read DTmpdt oth (nN c * nZ c) st;
      st ← file_read DOmgdt cur (nN c * nZ c) st;
      st ← file_read DOmgdt oth (nN c * nZ c) st;
      Ok st.1
  end.

(** *** [Sim::printBenchmarkData]: the rows it prints *)

Definition printBenchmarkData (s : Sim)
  : result (list (Z * float * float * float)) :=
  for_loop 0 21 (λ n rows,
    tv ← rd (mem s Tmp) (n * nZ c + 32);
    wv ← rd (mem s Omg) (n * nZ c + 32);
    pv ← rd (mem s Psi) (n * nZ c + 32);
    Ok (rows ++ [(n, tv, wv, pv)])) [].

(** *** Kinetic energy *)

Definition calcKineticEnergyForMode (n : Z) (s : Sim) : result float :=
  let z0 := 0.0%float in
  let z1 := 1.0%float in
  let ke := 0%float in
  p0 ← rd (mem s Psi) (n * nZ c + 0);
  let ke := (ke + c_pow E (kx n * p0) 2 / 2.0)%float in
  p1 ← rd (mem s Psi) (n * nZ c + (nZ c - 1));
  let ke := (ke + c_pow E (kx n * p1) 2 / 2.0)%float in
  '(_, ke) ← for_loop 1 (nZ c - 1) (λ k (st : Sim * float),
      let i := nZ c * n + k in
      dp ← dfdz (mem st.1 Psi) i dz; pv ← rd (mem st.1 Psi) i;
      Ok (st.1, (st.2 + (c_pow E dp 2 + c_pow E (kx n * pv) 2))%float))
    (s, ke);
  Ok (ke * ((z1 - z0) * of_int (a c) / of_int (4 * (nZ c - 1))))%float.

Definition calcKineticEnergy (s : Sim) : result float :=
  '(_, ke) ← for_loop 0 (nN c) (λ n (st : Sim * float),
      v ← calcKineticEnergyForMode n st.1; Ok (st.1, (st.2 + v)%float))
    (s, 0.0%float);
  Ok ke.

(** Writing one double to an [ofstream] opened with [ios::app]. The stream
    is never tested: on a stream that failed to open, [write], [flush] and
    [close] do nothing. *)
Definition append_double (name : string) (v : float) (s : Sim) : Sim :=
  if decide (name ∈ fs_denied s) then s
  else set_fs (<[name := default [] (fs s !! name) ++ [v]]> (fs s)) s.

Definition saveKineticEnergy (s : Sim) : result Sim :=
  ke ← calcKineticEnergy s;
  let s := set_ke (keCurrent s) ke s in
  let s := append_double (saveFolder c +:+ "KineticEnergy" +:+ ".dat") ke s in
  for_loop 1 (nN c) (λ n s,
    ke ← calcKineticEnergyForMode n s;
    Ok (append_double (saveFolder c +:+ "KineticEnergyMode"
                       +:+ strFromNumber E n +:+ ".dat") ke s)) s.

(** *** [Sim::runNonLinear] *)

Record NLLocals : Type := mkNL {
  saveTime : float;
  KEsaveTime : float;
  CFLCheckTime : float;
  f : float
}.

(** The part of the loop body before the integrator step. *)
Definition nl_housekeeping (st : Sim * NLLocals) : result (Sim * NLLocals) :=
  let '(s, l) := st in
  '(s, l) ← (if (KEsaveTime l - t s <? EPSILON E)%float
             then s ← saveKineticEnergy s;
                  Ok (s, mkNL (saveTime l) (KEsaveTime l + 1e-4)%float
                              (CFLCheckTime l) (f l))
             else Ok (s, l));
  '(s, l) ← (if (CFLCheckTime l - t s <? EPSILON E)%float
             then Ok (s, mkNL (saveTime l) (KEsaveTime l)
                              (CFLCheckTime l + 1e4 * dt c)%float
                              (checkCFL E (mem s Psi) dz dx (dt c)
                                        (a c) (nN c) nX (nZ c)))
             else Ok (s, l));
  if (saveTime l - t s <? EPSILON E)%float
  then s ← save s;
       Ok (s, mkNL (saveTime l + timeBetweenSaves c)%float (KEsaveTime l)
                   (CFLCheckTime l) (f l))
  else Ok (s, l).

Definition runNonLinear_body (st : Sim * NLLocals)
  : result (Sim * NLLocals) :=
  '(s, l) ← nl_housekeeping st;
  s ← computeLinearDerivatives 0 s;
  s ← computeNonLinearDerivatives s;
  s ← updateTmpAndOmg (f l) s;
  let l := mkNL (saveTime l) (KEsaveTime l) (CFLCheckTime l) 1.0%float in
  s ← solveForPsi s;
  let s := set_t (t s + dt c)%float s in
  let s := set_current (Z.rem (current s + 1) 2) s in
  Ok (s, l).

(** The integrator step inside [runNonLinear_body], with the factor [frac]
    that the update receives. *)
Definition runNonLinear_step (frac : float) (s : Sim) : result Sim :=
  s ← computeLinearDerivatives 0 s;
  s ← computeNonLinearDerivatives s;
  s ← updateTmpAndOmg frac s;
  s ← solveForPsi s;
  let s := set_t (t s + dt c)%float s in
  Ok (set_current (Z.rem (current s + 1) 2) s).

(** The [while] loop; [None] when [fuel] iterations were not enough. *)
Fixpoint runNonLinear_loop (fuel : nat) (st : Sim * NLLocals)
  : result (option Sim) :=
  if (EPSILON E <? totalTime c - t st.1)%float
  then match fuel with
       | O => Ok None
       | S fuel' => st ← runNonLinear_body st; runNonLinear_loop fuel' st
       end
  else s ← save st.1; Ok (Some s).

Definition runNonLinear (fuel : nat) (s : Sim) : result (option Sim) :=
  s ← load Tmp Omg Psi (icFile c) s;
  let s := set_current 0 s in
  let l := mkNL 0%float 0%float 0%float 1.0%float in
  let s := set_t 0%float s in
  runNonLinear_loop fuel (s, l).

(** *** [Sim::runLinear] *)

Record LinLocals : Type := mkLin {
  tmpPrev : list float;
  xiPrev : list float;
  omgPrev : list float;
  psiPrev : list float;
  logTmpPrev : float;
  logXiPrev : float;
  logOmgPrev : float;
  logPsiPrev : float;
  steps : Z
}.

Definition set_prev (n : Z) (tv xv pv wv : float) (l : LinLocals)
  : result LinLocals :=
  tp ← wr (tmpPrev l) n tv;
  xp ← (if DDC E then wr (xiPrev l) n xv else Ok (xiPrev l));
  pp ← wr (psiPrev l) n pv;
  wp ← wr (omgPrev l) n wv;
  Ok (mkLin tp xp wp pp (logTmpPrev l) (logXiPrev l) (logOmgPrev l)
            (logPsiPrev l) (steps l)).

(** One round of a snapshot loop: [xPrev[n] = x[32+n*nZ]] for the tracked
    fields. *)
Definition snapshot (s : Sim) (n : Z) (l : LinLocals) : result LinLocals :=
  tv ← rd (mem s Tmp) (32 + n * nZ c);
  xv ← (if DDC E then rd (mem s Xi) (32 + n * nZ c) else Ok 0%float);
  pv ← rd (mem s Psi) (32 + n * nZ c);
  wv ← rd (mem s Omg) (32 + n * nZ c);
  set_prev n tv xv pv wv l.

Definition linear_initial_conditions (s : Sim) : result Sim :=
  let s := set_tmpGrad 1 s in
  let s := if DDC E then set_xiGrad 1 s else s in
  let s := if DDC E then s else set_tmpGrad (-1) s in
  for_loop 0 (nZ c) (λ k s,
    s ← (if tmpGrad s =? -1
         then store Tmp (nZ c * 0 + k) (of_int 1 - of_int k * dz)%float s
         else if tmpGrad s =? 1
         then store Tmp (nZ c * 0 + k) (of_int k * dz)%float s
         else Ok s);
    s ← (if DDC E
         then (if xiGrad s =? -1
               then store Xi (nZ c * 0 + k) (of_int 1 - of_int k * dz)%float s
               else if xiGrad s =? 1
               then store Xi (nZ c * 0 + k) (of_int k * dz)%float s
               else Ok s)
         else Ok s);
    for_loop 1 (nN c) (λ n s,
      s ← store Tmp (nZ c * n + k) (c_sin E (M_PI * of_int k * dz)%float) s;
      if DDC E
      then store Xi (nZ c * n + k) (c_sin E (M_PI * of_int k * dz)%float) s
      else Ok s) s) s.

Definition linear_check_bcs (s : Sim) : result Sim :=
  for_loop 0 (nN c) (update_check_bcs) s.

(** The growth-rate estimate of one field at the probe row. *)
Definition log_growth (now prev : float) : float :=
  (c_log E (PrimFloat.abs now) - c_log E (PrimFloat.abs prev))%float.

Definition tolerance : float := 1e-10%float.

Definition within_tolerance (x prev : float) : bool :=
  (PrimFloat.abs (x - prev) <? tolerance)%float.

(** The [if (steps%500 == 0) { ... }] block. *)
Definition convergence_check (nCrit : Z) (s : Sim) (l : LinLocals)
  : result (control LinLocals) :=
  tv ← rd (mem s Tmp) (32 + nCrit * nZ c); tp ← rd (tmpPrev l) nCrit;
  let logTmp := log_growth tv tp in
  logXi ← (if DDC E
           then xv ← rd (mem s Xi) (32 + nCrit * nZ c);
                xp ← rd (xiPrev l) nCrit; Ok (log_growth xv xp)
           else Ok 0%float);
  wv ← rd (mem s Omg) (32 + nCrit * nZ c); wp ← rd (omgPrev l) nCrit;
  let logOmg := log_growth wv wp in
  pv ← rd (mem s Psi) (32 + nCrit * nZ c); pp ← rd (psiPrev l) nCrit;
  let logPsi := log_growth pv pp in
  if within_tolerance logTmp (logTmpPrev l)
     && (if DDC E then within_tolerance logXi (logXiPrev l) else true)
     && within_tolerance logOmg (logOmgPrev l)
     && within_tolerance logPsi (logPsiPrev l)
  then Ok (Return logTmp)
  else
    let l := mkLin (tmpPrev l) (xiPrev l) (omgPrev l) (psiPrev l)
                   logTmp (if DDC E then logXi else logXiPrev l)
                   logOmg logPsi (steps l) in
    l ← for_loop 1 11 (snapshot s) l;
    Ok (Continue l).

Definition runLinear_step (s : Sim) : result Sim :=
  s ← computeLinearDerivatives 1 s;
  s ← updateTmpAndOmg 1.0%float s;
  s ← (if DDC E then updateXi 1.0%float s else Ok s);
  s ← solveForPsi s;
  let s := set_t (t s + dt c)%float s in
  Ok (set_current (Z.rem (current s + 1) 2) s).

Definition runLinear_body (nCrit : Z) (st : Sim * LinLocals)
  : result (control (Sim * LinLocals)) :=
  let '(s, l) := st in
  r ← (if Z.rem (steps l) 500 =? 0
       then convergence_check nCrit s l
       else Ok (Continue l));
  match r with
  | Return v => Ok (Return v)
  | Continue l =>
      let l := mkLin (tmpPrev l) (xiPrev l) (omgPrev l) (psiPrev l)
                     (logTmpPrev l) (logXiPrev l) (logOmgPrev l)
                     (logPsiPrev l) (steps l + 1) in
      s ← runLinear_step s;
      Ok (Continue (s, l))
  end.

(** The [while (t < totalTime)] loop; [None] when [fuel] iterations were not
    enough. *)
Fixpoint runLinear_loop (fuel : nat) (nCrit : Z) (st : Sim * LinLocals)
  : result (option float) :=
  if (t st.1 <? totalTime c)%float
  then match fuel with
       | O => Ok None
       | S fuel' =>
           r ← runLinear_body nCrit st;
           match r with
           | Return v => Ok (Some v)
           | Continue st => runLinear_loop fuel' nCrit st
           end
       end
  else Ok (Some (of_int 0)).

(** Everything before the [while] loop. *)
Definition runLinear_setup (s : Sim) : result (Sim * LinLocals) :=
  s ← linear_initial_conditions s;
  s ← linear_check_bcs s;
  let l := mkLin (zeros (nN c)) (zeros (nN c)) (zeros (nN c)) (zeros (nN c))
                 0.0%float 0.0%float 0.0%float 0.0%float 0 in
  l ← for_loop 0 (nN c) (snapshot s) l;
  let s := set_current 0 s in
  let s := set_t (of_int 0) s in
  Ok (s, l).

Definition runLinear (fuel : nat) (nCrit : Z) (s : Sim)
  : result (option float) :=
  st ← runLinear_setup s;
  runLinear_loop fuel nCrit st.

(** *** [Sim::reinit] *)

Definition reinit (s : Sim) : result Sim :=
  s ← for_loop 0 (nZ c * nN c) (λ i s,
    s ← store Psi i 0.0%float s;
    s ← store Omg i 0.0%float s;
    s ← store Tmp i 0.0%float s;
    if DDC E then store Xi i 0.0%float s else Ok s) s;
  for_loop 0 (nZ c * nN c * 2) (λ i s,
    s ← store DTmpdt i 0.0%float s;
    s ← store DOmgdt i 0.0%float s;
    if DDC E then store DXidt i 0.0%float s else Ok s) s.

(** *** [Sim::printMaxOf]: the maximum it prints and its location
    (maxLoc[0], maxLoc[1]) *)

Definition printMaxOf (arr : list float) : result (float * Z * Z) :=
  let nStart := 0 in
  max ← rd arr (nStart * nZ c);
  for_loop nStart (nN c) (λ n st,
    for_loop 0 (nZ c) (λ k (st : float * Z * Z),
      v ← rd arr (n * nZ c + k);
      if (st.1.1 <? v)%float then Ok (v, k, n) else Ok st) st)
    (max, 0, nStart).

End Simulator.

(** * Vocabulary of the specifications *)

(** The arrays at the sizes [Sim::init] allocates, all zero. *)
Definition init_mem (c : Constants) (x : arr) : list float :=
  match x with
  | Psi | Omg | Tmp | Xi => zeros (nN c * nZ c)
  | DTmpdt | DOmgdt | DXidt => zeros (2 * nN c * nZ c)
  end.

(** A simulator whose arrays are all zero, with no energy sample and save
    number 0; [tmpGrad] and [xiGrad], which the drivers set before they
    read them, are 0. *)
Definition zeroed (c : Constants) (current0 : Z) (t0 : float)
    (files : gmap string (list float)) (denied : gset string) : Sim :=
  mkSim (init_mem c) current0 t0 0 0 0%float 0%float 0 files denied.

(** [s'] differs from [s] at most in the tendency buffers. *)
Record same_fields (s s' : Sim) : Prop := {
  sf_psi : mem s' Psi = mem s Psi;
  sf_omg : mem s' Omg = mem s Omg;
  sf_tmp : mem s' Tmp = mem s Tmp;
  sf_xi : mem s' Xi = mem s Xi;
  sf_current : current s' = current s;
  sf_t : t s' = t s;
  sf_tmpGrad : tmpGrad s' = tmpGrad s;
  sf_xiGrad : xiGrad s' = xiGrad s;
  sf_kePrev : kePrev s' = kePrev s;
  sf_keCurrent : keCurrent s' = keCurrent s;
  sf_saveNumber : saveNumber s' = saveNumber s;
  sf_fs : fs s' = fs s;
  sf_fs_denied : fs_denied s' = fs_denied s
}.

(** [s'] differs from [s] at most in the cells [W] of the tendency buffers:
    every array keeps its length and every cell outside [W] its value. *)
Record tend_frame (W : Z → Prop) (s s' : Sim) : Prop := {
  tf_fields : same_fields s s';
  tf_len : ∀ x, len (mem s' x) = len (mem s x);
  tf_out : ∀ x j, ¬ W j → getZ (mem s' x) j = getZ (mem s x) j
}.

Definition is_tendency (x : arr) : Prop :=
  x = DTmpdt ∨ x = DOmgdt ∨ x = DXidt.

Section LinearKernelDefs.

Context (E : External) (c : Constants).

(** The cell of mode [n], row [k] in slot [slot] of a tendency buffer. *)
Definition cell (slot n k : Z) : Z := slot * nZ c * nN c + n * nZ c + k.

(** What [computeLinearDerivatives] leaves in [dTmpdt] at mode [n], row [k]. *)
Definition linear_dTmpdt (linearSim n k : Z) (s : Sim) : float :=
  let i := k + n * nZ c in
  let diffusion :=
    (dfdz2_at (mem s Tmp) i (dz c)
     - c_pow E (kx c n) 2 * at_ (mem s Tmp) i)%float in
  if linearSim =? 1
  then (diffusion
        + of_int (-1 * tmpGrad s * n) * M_PI / of_int (a c)
          * at_ (mem s Psi) i)%float
  else diffusion.

(** What it leaves in [dOmgdt]. *)
Definition linear_dOmgdt (n k : Z) (s : Sim) : float :=
  let i := k + n * nZ c in
  let base :=
    (Pr c * (dfdz2_at (mem s Omg) i (dz c)
             - c_pow E (kx c n) 2 * at_ (mem s Omg) i
             + Ra c * of_int n * M_PI / of_int (a c) * at_ (mem s Tmp) i))%float in
  if DDC E
  then (base + - RaXi c * tau c * Pr c * kx c n * at_ (mem s Xi) i)%float
  else base.

(** The cells of mode [n] that the kernels write: its interior rows. *)
Definition interior_of (slot n : Z) (j : Z) : Prop :=
  ∃ k, 1 ≤ k < nZ c - 1 ∧ j = cell slot n k.

(** The cells the whole pass writes. *)
Definition linear_cells (slot lo : Z) (j : Z) : Prop :=
  ∃ n, lo ≤ n < nN c ∧ interior_of slot n j.

End LinearKernelDefs.

Section NonLinearKernelDefs.

Context (E : External) (c : Constants).

(** [acc += v] for each [v] of a list, in order. *)
Definition accumulate (vs : list float) (acc : float) : float :=
  fold_left PrimFloat.add vs acc.

(** The value of a triad bracket, on fields known to be in range. *)
Definition triad_at (lead : float) (sm o im io : Z) (fld psi : list float)
  : float :=
  (lead * (of_int sm * dfdz_at psi io (dz c) * at_ fld im
           + of_int o * dfdz_at fld im (dz c) * at_ psi io))%float.

(** [s'] is [s] with the lists [lT], [lW] accumulated into the cell [j] of
    the current slot of [dTmpdt] and [dOmgdt], and nothing else changed. *)
Definition cell_fold (j : Z) (lT lW : list float) (s s' : Sim) : Prop :=
  tend_frame (λ j', j' = j) s s'
  ∧ at_ (mem s' DTmpdt) j = accumulate lT (at_ (mem s DTmpdt) j)
  ∧ at_ (mem s' DOmgdt) j = accumulate lW (at_ (mem s DOmgdt) j).

(** The same for every interior cell of mode [r]. *)
Definition row_fold (r : Z) (cT cW : Z → list float) (s s' : Sim) : Prop :=
  tend_frame (interior_of c (current s) r) s s'
  ∧ ∀ k, 1 ≤ k < nZ c - 1 →
      at_ (mem s' DTmpdt) (cell c (current s) r k)
        = accumulate (cT k) (at_ (mem s DTmpdt) (cell c (current s) r k))
      ∧ at_ (mem s' DOmgdt) (cell c (current s) r k)
        = accumulate (cW k) (at_ (mem s DOmgdt) (cell c (current s) r k)).

(** The contributions, as values of the fields of [s]. *)
Definition to_mean_at (n k : Z) (s : Sim) : float :=
  let i := n * nZ c + k in
  (- M_PI / of_int (2 * a c) * of_int n
   * (dfdz_at (mem s Psi) i (dz c) * at_ (mem s Tmp) i
      + dfdz_at (mem s Tmp) i (dz c) * at_ (mem s Psi) i))%float.

Definition from_mean_at (n k : Z) (s : Sim) : float :=
  (of_int (- n) * M_PI / of_int (a c) * at_ (mem s Psi) (n * nZ c + k)
   * dfdz_at (mem s Tmp) (0 * nZ c + k) (dz c))%float.

(** The three triad loops of mode [n], with their parameters. *)
Definition triads_at (leadT leadW : float) (sm o : Z → Z) (m k : Z) (s : Sim)
  : list float * list float :=
  ([triad_at leadT (sm m) (o m) (nZ c * m + k) (nZ c * o m + k)
      (mem s Tmp) (mem s Psi)],
   [triad_at leadW (sm m) (o m) (nZ c * m + k) (nZ c * o m + k)
      (mem s Omg) (mem s Psi)]).

(** Everything mode [n >= 1] receives in [nl_mode], in the order of the
    additions. *)
Definition mode_contributions (n k : Z) (s : Sim) : list float * list float :=
  let half_neg := (- M_PI / of_int (2 * a c))%float in
  let half_pos := (M_PI / of_int (2 * a c))%float in
  let sum := triads_at half_neg half_neg (λ m, - m) (λ m, n - m) in
  let diff := triads_at half_neg half_neg (λ m, m) (λ m, m - n) in
  let rdiff := triads_at half_neg half_pos (λ m, m) (λ m, n + m) in
  ([from_mean_at n k s]
     ++ (seqZ 1 (n - 1) ≫= λ m, (sum m k s).1)
     ++ (seqZ (n + 1) (nN c - (n + 1)) ≫= λ m, (diff m k s).1)
     ++ (seqZ 1 (nN c - n - 1) ≫= λ m, (rdiff m k s).1),
   (seqZ 1 (n - 1) ≫= λ m, (sum m k s).2)
     ++ (seqZ (n + 1) (nN c - (n + 1)) ≫= λ m, (diff m k s).2)
     ++ (seqZ 1 (nN c - n - 1) ≫= λ m, (rdiff m k s).2)).

(** What mode [n] receives before its triads n = o - m: the mean-mode term
    (temperature only), the triads n = m + o and the triads n = m - o. *)
Definition earlier_contributions (n k : Z) (s : Sim)
  : list float * list float :=
  let half_neg := (- M_PI / of_int (2 * a c))%float in
  let sum := triads_at half_neg half_neg (λ m, - m) (λ m, n - m) in
  let diff := triads_at half_neg half_neg (λ m, m) (λ m, m - n) in
  ([from_mean_at n k s]
     ++ (seqZ 1 (n - 1) ≫= λ m, (sum m k s).1)
     ++ (seqZ (n + 1) (nN c - (n + 1)) ≫= λ m, (diff m k s).1),
   (seqZ 1 (n - 1) ≫= λ m, (sum m k s).2)
     ++ (seqZ (n + 1) (nN c - (n + 1)) ≫= λ m, (diff m k s).2)).

(** The cells the nonlinear pass writes: the interior rows of the modes
    [0 .. nN-1] of the current slot. *)
Definition nonlinear_cells (slot : Z) (j : Z) : Prop :=
  ∃ n, 0 ≤ n < nN c ∧ interior_of c slot n j.

End NonLinearKernelDefs.

Record same_scalars (s s' : Sim) : Prop := {
  ss_current : current s' = current s;
  ss_t : t s' = t s;
  ss_tmpGrad : tmpGrad s' = tmpGrad s;
  ss_xiGrad : xiGrad s' = xiGrad s;
  ss_kePrev : kePrev s' = kePrev s;
  ss_keCurrent : keCurrent s' = keCurrent s;
  ss_saveNumber : saveNumber s' = saveNumber s;
  ss_fs : fs s' = fs s;
  ss_fs_denied : fs_denied s' = fs_denied s
}.

(** [s'] differs from [s] at most in the cells [W] of [tmp] and [omg]. *)
Record upd_frame (W : Z → Prop) (s s' : Sim) : Prop := {
  uf_scalars : same_scalars s s';
  uf_other : ∀ x, x ≠ Tmp → x ≠ Omg → mem s' x = mem s x;
  uf_len : ∀ x, len (mem s' x) = len (mem s x);
  uf_out : ∀ x j, ¬ W j → getZ (mem s' x) j = getZ (mem s x) j
}.

Section UpdateDefs.

Context (E : External) (c : Constants).

(** The increment [updateTmpAndOmg] adds to cell (n, k) of a field whose
    tendency buffer is [d]. *)
Definition ab_increment (frac : float) (d : list float) (slot n k : Z)
  : float :=
  adamsBashforth (at_ d (cell c slot n k))
                 (at_ d (cell c (Z.rem (slot + 1) 2) n k)) frac (dt c).

(** The cells of the fields: modes [0 .. nN-1], rows [0 .. nZ-1]. *)
Definition field_cells (j : Z) : Prop :=
  ∃ n k, 0 ≤ n < nN c ∧ 0 ≤ k < nZ c ∧ j = n * nZ c + k.

End UpdateDefs.

Definition is_zero (x : float) : bool :=
  match Prim2SF x with S754_zero _ => true | _ => false end.

Definition is_finite (x : float) : bool :=
  match Prim2SF x with
  | S754_zero _ | S754_finite _ _ _ => true
  | _ => false
  end.

(** Equal as doubles, up to the sign of a zero. *)
Definition same_value (x y : float) : Prop :=
  x = y ∨ (is_zero x = true ∧ is_zero y = true).

Section FrameEffectDefs.

Context (E : External) (c : Constants).

Definition boundary_row (k : Z) : Prop := k = 0 ∨ k = nZ c - 1.

(** The interior rows of the modes [0 .. nN-1] of one slot. *)
Definition interior_cells (slot : Z) (j : Z) : Prop :=
  ∃ n k, 0 ≤ n < nN c ∧ 1 ≤ k ≤ nZ c - 2 ∧ j = cell c slot n k.

(** Both slots of [dTmpdt] and [dOmgdt] are zero in the rows 0 and nZ-1. *)
Definition tendency_boundaries_zero (s : Sim) : Prop :=
  ∀ slot n b, 0 ≤ slot ≤ 1 → 0 ≤ n < nN c → boundary_row b →
    is_zero (at_ (mem s DTmpdt) (cell c slot n b)) = true
    ∧ is_zero (at_ (mem s DOmgdt) (cell c slot n b)) = true.

End FrameEffectDefs.

(** [s'] differs from [s] at most in the cells [W] of [psi]. *)
Record psi_frame (W : Z → Prop) (s s' : Sim) : Prop := {
  pf_scalars : same_scalars s s';
  pf_other : ∀ x, x ≠ Psi → mem s' x = mem s x;
  pf_len : len (mem s' Psi) = len (mem s Psi);
  pf_out : ∀ j, ¬ W j → getZ (mem s' Psi) j = getZ (mem s Psi) j
}.


Section PoissonDefs.

Context (E : External) (c : Constants).

(** [psi] at the two end rows of mode [n] compares equal to 0.0. *)
Definition psi_dirichlet (n : Z) (s : Sim) : Prop :=
  (at_ (mem s Psi) (nZ c * n + 0) =? 0.0)%float = true
  ∧ (at_ (mem s Psi) (nZ c * n + nZ c - 1) =? 0.0)%float = true.


Definition psi_cells (j : Z) : Prop :=
  ∃ n, 0 ≤ n < nN c ∧ nZ c * n ≤ j < nZ c * n + nZ c.

End PoissonDefs.

Section DirichletDefs.

Context (E : External) (c : Constants).



(** [omg] at the two end rows of mode [n] is within EPSILON of zero. *)
Definition omega_dirichlet (n : Z) (s : Sim) : Prop :=
  (PrimFloat.abs (at_ (mem s Omg) (n * nZ c)) <? EPSILON E)%float = true
  ∧ (PrimFloat.abs (at_ (mem s Omg) (n * nZ c + nZ c - 1))
     <? EPSILON E)%float = true.

(** The boundary conditions of [psi] and [omg], for every mode. *)
Definition dirichlet (s : Sim) : Prop :=
  ∀ n, 0 ≤ n < nN c → psi_dirichlet c n s ∧ omega_dirichlet n s.

(** One integrator step of either run mode; the linear run mode always
    updates with the factor 1.0. *)
Definition integrator_step (nonlinear : bool) (frac : float) (s : Sim)
  : result Sim :=
  if nonlinear then runNonLinear_step E c frac s else runLinear_step E c s.



End DirichletDefs.

(** ** An executable instance *)

(** Stand-ins for what is not part of the sources, used to run the model on
    concrete grids; the solver is the one the spec describes.  The theorems
    below hold for every instance, unless they name the solver of the
    spec. *)

(** [pow] at the exponents the simulator uses. *)
Definition ref_pow (x y : float) : float :=
  if (y =? 2)%float then (x * x)%float
  else if (y =? 0)%float then 1%float
  else nan.

(** [sin] on [0, pi], by its Taylor polynomial of degree 11. *)
Definition ref_sin (x : float) : float :=
  let x2 := (x * x)%float in
  (x * (1 - x2 / 6 * (1 - x2 / 20 * (1 - x2 / 42 * (1 - x2 / 72
        * (1 - x2 / 110))))))%float.

(** [log] near 1, by the series of 2 atanh((x - 1) / (x + 1)). *)
Definition ref_log (x : float) : float :=
  if (x =? 0)%float then neg_infinity
  else if (x <? 0)%float then nan
  else
    let y := ((x - 1) / (x + 1))%float in
    let y2 := (y * y)%float in
    (2 * y * (1 + y2 * (1 / 3 + y2 * (1 / 5 + y2 * (1 / 7 + y2 / 9)))))%float.

(** Modelled from the spec: the Thomas solver for the operator with diagonal
    -(2 oodz2 + (n pi / a)^2) and off-diagonals oodz2, with Dirichlet rows at
    k = 0 and k = nZ - 1. *)
Fixpoint thomas_forward (rows : list (float * float * float * float))
    (cp dp : float) : list (float * float) :=
  match rows with
  | [] => []
  | (sub, dia, sup, rhs) :: rest =>
      let den := (dia - sub * cp)%float in
      let cp' := (sup / den)%float in
      let dp' := ((rhs - sub * dp) / den)%float in
      (cp', dp') :: thomas_forward rest cp' dp'
  end.

(** Modelled from the spec: the back-substitution of the Thomas solver. *)
Fixpoint thomas_backward (cd : list (float * float)) : list float :=
  match cd with
  | [] => []
  | (cp, dp) :: rest =>
      match thomas_backward rest with
      | [] => [dp]
      | x1 :: xs => (dp - cp * x1)%float :: x1 :: xs
      end
  end.

(** Modelled from the spec: [ThomasAlgorithm::solve], which is not part of
    the sources: forward elimination and back-substitution on the system
    of mode [n], whose two end rows are the Dirichlet conditions. *)
Definition ref_thomas (nZ nN a : Z) (oodz2 : float) (n : Z)
    (rhs : list float) : list float :=
  let k := (of_int n * M_PI / of_int a)%float in
  let dia := (- (2 * oodz2 + k * k))%float in
  let last := (length rhs - 1)%nat in
  let rows := imap (λ i w,
    if decide (i = O ∨ i = last)
    then (0%float, 1%float, 0%float, 0%float)
    else (oodz2, dia, oodz2, w)) rhs in
  thomas_backward (thomas_forward rows 0%float 0%float).

Definition ref_external (ndebug ddc : bool) : External := {|
  NDEBUG := ndebug;
  DDC := ddc;
  EPSILON := 1e-10%float;
  c_pow := ref_pow;
  c_sin := ref_sin;
  c_log := ref_log;
  strFromNumber := pretty;
  checkCFL := λ _ _ _ _ _ _ _ _, 1%float;
  thomas_solve := ref_thomas
|}.

(** A small grid: 3 modes, 4 rows. *)
Definition small_grid : Constants := {|
  nZ := 4; nN := 3; dt := 0x1p-10%float; Ra := 1000%float; Pr := 1%float;
  a := 3; RaXi := 0%float; tau := 1%float;
  timeBetweenSaves := 1%float; modifydt := false;
  totalTime := 0x1p-9%float; saveFolder := "out/"; icFile := "ic.dat"
|}.

(** A state on the small grid with non-trivial fields. *)
Definition small_state : Sim :=
  let fld (x : arr) : list float :=
    match x with
    | Tmp => [1; 0.5; 0.25; 0;  0; 0.5; 0.25; 0;  0; 0.125; 0.5; 0]%float
    | Omg => [0; 0; 0; 0;  0; 1; 2; 0;  0; -1; 0.5; 0]%float
    | Psi => [0; 0; 0; 0;  0; 0.5; -0.25; 0;  0; 2; 1; 0]%float
    | x => init_mem small_grid x
    end in
  mkSim fld 0 0%float (-1) 0 0%float 0%float 0 ∅ ∅.

Section NonLinearDriverDefs.

Context (E : External) (c : Constants).

(** Saving touches the files, the energy diagnostics and the save counter
    only. *)
Definition same_simulation (s s' : Sim) : Prop :=
  mem s' = mem s ∧ current s' = current s ∧ t s' = t s
  ∧ tmpGrad s' = tmpGrad s ∧ xiGrad s' = xiGrad s.

(** The factor the update of this iteration receives: the result of the CFL
    check when the check is due in this iteration, else the factor left by
    the previous iteration. *)
Definition update_factor (st : Sim * NLLocals) : float :=
  if (CFLCheckTime st.2 - t st.1 <? EPSILON E)%float
  then checkCFL E (mem st.1 Psi) (dz c) (dx c) (dt c) (a c) (nN c) (nX c)
         (nZ c)
  else f st.2.

End NonLinearDriverDefs.

(** [heads] are the states at the successive loop tests that follow the
    test at [st], each reached from the one before by one iteration; the
    loop ends at [final]. *)
Fixpoint iterations {St : Type} (iteration : St → St → Prop) (st : St)
    (heads : list St) (final : St) : Prop :=
  match heads with
  | [] => final = st
  | st' :: rest => iteration st st' ∧ iterations iteration st' rest final
  end.

Section NonLinearRunDefs.

Context (E : External) (c : Constants).

(** The locals of [runNonLinear] on entry to its loop. *)
Definition nl_start : NLLocals := mkNL 0%float 0%float 0%float 1.0%float.

(** One iteration of the loop of [runNonLinear], from the simulator and the
    locals [st] at the loop test to those at the next loop test [st']: the
    test passes; the body runs the due savings and CFL check, then
    computeLinearDerivatives(0), computeNonLinearDerivatives,
    updateTmpAndOmg with the factor of this iteration and solveForPsi, adds
    [dt] to [t] and flips [current]; the locals keep the schedule and
    [f] is 1.0. *)
Definition nl_iteration (st st' : Sim * NLLocals) : Prop :=
  (EPSILON E <? totalTime c - t st.1)%float = true
  ∧ ∃ s0 l0 s1 s2 s3 s4,
      nl_housekeeping E c st = Ok (s0, l0)
      ∧ computeLinearDerivatives E c 0 s0 = Ok s1
      ∧ computeNonLinearDerivatives E c s1 = Ok s2
      ∧ updateTmpAndOmg E c (update_factor E c st) s2 = Ok s3
      ∧ solveForPsi E c s3 = Ok s4
      ∧ st' = (set_current (Z.rem (current s4 + 1) 2)
                 (set_t (t s4 + dt c)%float s4),
               mkNL (saveTime l0) (KEsaveTime l0) (CFLCheckTime l0)
                    1.0%float).

End NonLinearRunDefs.

Section CheckpointDefs.

Context (E : External) (c : Constants).

(** The sizes [Sim::init] allocates. *)
Definition array_size (x : arr) : Z :=
  match x with
  | Psi | Omg | Tmp | Xi => nN c * nZ c
  | DTmpdt | DOmgdt | DXidt => 2 * nN c * nZ c
  end.

Definition well_formed (s : Sim) : Prop :=
  0 ≤ nZ c ∧ 0 ≤ nN c ∧ 0 ≤ current s ≤ 1
  ∧ ∀ x, len (mem s x) = array_size x.

(** One slot of a tendency buffer. *)
Definition slot_of (k : Z) (l : list float) : list float :=
  take (Z.to_nat (nN c * nZ c)) (drop (Z.to_nat (k * nZ c * nN c)) l).

(** The contents of the checkpoint of [s]. *)
Definition checkpoint (s : Sim) : list float :=
  mem s Tmp ++ mem s Omg ++ mem s Psi
  ++ slot_of (current s) (mem s DTmpdt)
  ++ slot_of (Z.rem (current s + 1) 2) (mem s DTmpdt)
  ++ slot_of (current s) (mem s DOmgdt)
  ++ slot_of (Z.rem (current s + 1) 2) (mem s DOmgdt).

End CheckpointDefs.

Section LinearDriverDefs.

Context (E : External) (c : Constants).

(** The growth-rate estimates of a check, on probes known to be in range. *)
Definition estimate (x : arr) (prev : list float) (nCrit : Z) (s : Sim)
  : float :=
  log_growth E (at_ (mem s x) (32 + nCrit * nZ c)) (at_ prev nCrit).

(** All tracked estimates changed by less than the tolerance since the
    previous check. *)
Definition converged (nCrit : Z) (s : Sim) (l : LinLocals) : bool :=
  within_tolerance (estimate Tmp (tmpPrev l) nCrit s) (logTmpPrev l)
  && (if DDC E
      then within_tolerance (estimate Xi (xiPrev l) nCrit s) (logXiPrev l)
      else true)
  && within_tolerance (estimate Omg (omgPrev l) nCrit s) (logOmgPrev l)
  && within_tolerance (estimate Psi (psiPrev l) nCrit s) (logPsiPrev l).

(** The probes of a check are inside the arrays. *)
Definition probes_in_range (nCrit : Z) (s : Sim) (l : LinLocals) : Prop :=
  (∀ x, 0 ≤ 32 + nCrit * nZ c < len (mem s x))
  ∧ 0 ≤ nCrit < len (tmpPrev l) ∧ 0 ≤ nCrit < len (xiPrev l)
  ∧ 0 ≤ nCrit < len (omgPrev l) ∧ 0 ≤ nCrit < len (psiPrev l).

End LinearDriverDefs.

Section LinearLoopDefs.

Context (E : External) (c : Constants).







End LinearLoopDefs.

Section OpenFailuresDefs.

Context (E : External) (c : Constants).

(** The only way such a computation fails is an access out of bounds. *)
Definition fails_only_out_of_bounds {A : Type} (m : result A) : Prop :=
  ∀ e, m = Err e → e = OutOfBounds.

End OpenFailuresDefs.

Section ProbeBoundsDefs.

Context (E : External) (c : Constants).

Definition same_lengths (s s' : Sim) : Prop :=
  ∀ x, len (mem s' x) = len (mem s x).

End ProbeBoundsDefs.

(** ** Concrete grids and states *)

(** The minimum grid with one interior row. *)
Definition minimal_grid : Constants := {|
  nZ := 3; nN := 1; dt := 0x1p-10%float; Ra := 1000%float; Pr := 1%float;
  a := 3; RaXi := 0%float; tau := 1%float;
  timeBetweenSaves := 1%float; modifydt := false;
  totalTime := 0x1p-9%float; saveFolder := "out/"; icFile := "ic.dat"
|}.

(** A grid on which the probe row 32 is an interior row and the modes
    0 .. 11 exist. *)
Definition probe_grid : Constants := {|
  nZ := 35; nN := 12; dt := 0x1p-20%float; Ra := 1000%float; Pr := 1%float;
  a := 3; RaXi := 0%float; tau := 1%float;
  timeBetweenSaves := 1%float; modifydt := false;
  totalTime := 1%float; saveFolder := "out/"; icFile := "ic.dat"
|}.

(** The state of a checkpoint whose vorticity is -1 on the lower wall in
    mode 1 and zero elsewhere. *)
Definition wall_vorticity_state : Sim :=
  let fld (x : arr) : list float :=
    match x with
    | Tmp => [1; 0.5; 0.25; 0;  0; 0; 0; 0;  0; 0; 0; 0]%float
    | Omg => [0; 0; 0; 0;  -1; 0; 0; 0;  0; 0; 0; 0]%float
    | x => init_mem small_grid x
    end in
  mkSim fld 0 0%float (-1) 0 0%float 0%float 0 ∅ ∅.

(** The value of a computation that is known to complete. *)
Definition value_of {A : Type} (d : A) (m : result A) : A :=
  match m with Ok x => x | Err _ => d end.

(** The debug build, single-diffusive. *)
Definition debug_build : External := ref_external false false.

Definition small_locals : NLLocals := mkNL 0%float 0%float 0%float 1%float.

Definition linear_pass_result : Sim :=
  value_of small_state (computeLinearDerivatives debug_build small_grid 0 small_state).

Definition nonlinear_pass_result : Sim :=
  value_of small_state
    (computeNonLinearDerivatives debug_build small_grid linear_pass_result).

Definition update_result : Sim :=
  value_of small_state
    (updateTmpAndOmg debug_build small_grid 1%float nonlinear_pass_result).

Definition step_result : Sim :=
  value_of small_state (runNonLinear_step debug_build small_grid 1%float small_state).

Definition body_result : Sim * NLLocals :=
  value_of (small_state, small_locals)
    (runNonLinear_body debug_build small_grid (small_state, small_locals)).

Definition wall_vorticity_result : Sim :=
  value_of wall_vorticity_state
    (runNonLinear_step debug_build small_grid 1%float wall_vorticity_state).

(** [small_state] with the three kinetic-energy files of the small grid
    impossible to open. *)
Definition denied_state : Sim :=
  mkSim (mem small_state) 0 0%float (-1) 0 0%float 0%float 0 ∅
    {[ "out/KineticEnergy.dat"; "out/KineticEnergyMode1.dat";
       "out/KineticEnergyMode2.dat" ]}.

(** [small_state] with the checkpoint file impossible to open. *)
Definition denied_checkpoint_state : Sim :=
  mkSim (mem small_state) 0 0%float (-1) 0 0%float 0%float 0 ∅
    {[ "out/vars0.dat" ]}.

(** The linear driver on the probe grid: setup, one step, then the block of
    a convergence check for the critical mode 11.  The result lists
    tmpPrev[11] after the check, tmp at the probe of mode 11 at setup and
    now, tmpPrev[1] after the check and tmp at the probe of mode 1 now. *)
Definition stale_snapshot_scenario
  : result (float * float * float * float * float) :=
  '(s, l) ← runLinear_setup debug_build probe_grid (zeroed probe_grid 0 0%float ∅ ∅);
  s1 ← runLinear_step debug_build probe_grid s;
  r ← convergence_check debug_build probe_grid 11 s1 l;
  match r with
  | Continue l1 =>
      Ok (at_ (tmpPrev l1) 11, at_ (mem s Tmp) (32 + 11 * 35),
          at_ (mem s1 Tmp) (32 + 11 * 35),
          at_ (tmpPrev l1) 1, at_ (mem s1 Tmp) (32 + 1 * 35))
  | Return v => Ok (v, v, v, v, v)
  end.

(** The locals of [runLinear] before the first snapshot loop. *)
Definition fresh_locals (c : Constants) : LinLocals :=
  mkLin (zeros (nN c)) (zeros (nN c)) (zeros (nN c)) (zeros (nN c))
        0%float 0%float 0%float 0%float 0.

(** The boundary conditions as an unconditional property of the integrator:
    whatever the state on entry, after a step that completes [psi] is zero
    and [omg] is within EPSILON of zero in the rows 0 and nZ - 1 of every
    mode. *)
Definition dirichlet_after_every_step (E : External) (c : Constants) : Prop :=
  ∀ nonlinear frac s s',
    integrator_step E c nonlinear frac s = Ok s' → dirichlet E c s'.

(** ** Vocabulary of the further properties *)

(** [y] is [s] with the cells [0 .. i-1] of the arrays selected by [P] set
    to [v]. *)
Definition filled (P : arr → bool) (v : float) (i : Z) (s y : Sim) : Prop :=
  same_scalars s y
  ∧ (∀ x, len (mem y x) = len (mem s x))
  ∧ ∀ x j, getZ (mem y x) j
           = if P x && bool_decide (0 ≤ j < i) then Some v
             else getZ (mem s x) j.

(** The arrays a build has: [xi] and [dXidt] exist in DDC builds only. *)
Definition allocated (E : External) (x : arr) : bool :=
  match x with
  | Xi | DXidt => DDC E
  | _ => true
  end.

Section CheckpointFileDefs.

Context (c : Constants).

(** The [i]-th block of nN nZ doubles of a checkpoint file. *)
Definition block (i : Z) (data : list float) : list float :=
  take (Z.to_nat (nN c * nZ c)) (drop (Z.to_nat (i * (nN c * nZ c))) data).

(** A two-slot buffer whose slot [k] holds the block [i] and whose other
    slot holds the block [j]. *)
Definition slots (k i j : Z) (data : list float) : list float :=
  if k =? 0 then block i data ++ block j data
  else block j data ++ block i data.

(** The simulator [s] with its arrays replaced by the blocks of a checkpoint
    file, read with the [current] of [s]. *)
Definition decoded (s : Sim) (data : list float) : Sim :=
  mkSim (λ x, match x with
              | Tmp => block 0 data
              | Omg => block 1 data
              | Psi => block 2 data
              | DTmpdt => slots (current s) 3 4 data
              | DOmgdt => slots (current s) 5 6 data
              | x => mem s x
              end)
        (current s) (t s) (tmpGrad s) (xiGrad s) (kePrev s) (keCurrent s)
        (saveNumber s) (fs s) (fs_denied s).

End CheckpointFileDefs.

Section KineticEnergyDefs.

Context (E : External) (c : Constants).

(** The trapezoid sum of [calcKineticEnergyForMode], as a value of [psi]. *)
Definition ke_interior (n : Z) (psi : list float) (k : Z) : float :=
  (c_pow E (dfdz_at psi (nZ c * n + k) (dz c)) 2
   + c_pow E (kx c n * at_ psi (nZ c * n + k)) 2)%float.

Definition ke_mode_at (n : Z) (psi : list float) : float :=
  let ends :=
    (0 + c_pow E (kx c n * at_ psi (n * nZ c + 0)) 2 / 2.0
     + c_pow E (kx c n * at_ psi (n * nZ c + (nZ c - 1))) 2 / 2.0)%float in
  (fold_left (λ ke k, ke + ke_interior n psi k)%float (seqZ 1 (nZ c - 2)) ends
   * ((1.0 - 0.0) * of_int (a c) / of_int (4 * (nZ c - 1))))%float.

(** The sum of [calcKineticEnergy]. *)
Definition ke_total_at (psi : list float) : float :=
  fold_left (λ ke n, ke + ke_mode_at n psi)%float (seqZ 0 (nN c)) 0.0%float.

Definition ke_total_name : string :=
  saveFolder c +:+ "KineticEnergy" +:+ ".dat".

Definition ke_mode_name (n : Z) : string :=
  saveFolder c +:+ "KineticEnergyMode" +:+ strFromNumber E n +:+ ".dat".

(** A file after one more double has been appended. *)
Definition appended (files : gmap string (list float)) (name : string)
    (v : float) : option (list float) :=
  Some (default [] (files !! name) ++ [v]).

End KineticEnergyDefs.

Section LinearRunDefs.

Context (c : Constants).

(** Both slots of [dTmpdt] and [dOmgdt] are zero in every row of mode 0. *)
Definition mean_tendencies_zero (s : Sim) : Prop :=
  ∀ slot k, 0 ≤ slot ≤ 1 → 0 ≤ k < nZ c →
    is_zero (at_ (mem s DTmpdt) (cell c slot 0 k)) = true
    ∧ is_zero (at_ (mem s DOmgdt) (cell c slot 0 k)) = true.

End LinearRunDefs.

Section PoissonSolveDefs.

Context (E : External) (c : Constants).

(** The [nZ] doubles the solver leaves in [psi] of mode [n] when the
    vorticity is [omg]. *)
Definition solved_row (n : Z) (omg : list float) : list float :=
  resize (Z.to_nat (nZ c)) 0%float
    (thomas_solve E (nZ c) (nN c) (a c) (oodz2 E c) n
       (take (Z.to_nat (nZ c)) (drop (Z.to_nat (nZ c * n)) omg))).

End PoissonSolveDefs.

(** The error of a failed [assert]; it exists only in builds with
    assertions. *)
Definition assertion_failure (E : External) (e : error) : Prop :=
  e = AssertionFailed ∧ NDEBUG E = false.

Section DriverDefs.

Context (c : Constants).

(** A checkpoint file with the two slots of each tendency buffer
    exchanged. *)
Definition slots_exchanged (data : list float) : list float :=
  block c 0 data ++ block c 1 data ++ block c 2 data
  ++ block c 4 data ++ block c 3 data
  ++ block c 6 data ++ block c 5 data.

End DriverDefs.

Section LinearSeedDefs.

Context (E : External) (c : Constants).

(** The initial conditions of a linear run: the mean profile (k dz when
    [tmpGrad] is 1, as in a DDC build; 1 - k dz when it is -1) and the
    perturbation sin(pi k dz) of the modes n >= 1. *)
Definition seed_mean (k : Z) : float :=
  if DDC E then (of_int k * dz c)%float
  else (of_int 1 - of_int k * dz c)%float.

Definition seed_mode (k : Z) : float :=
  c_sin E (M_PI * of_int k * dz c)%float.

Definition seed (n k : Z) : float :=
  if n =? 0 then seed_mean k else seed_mode k.

(** [y] is [s] with the gradient signs of the build and the cells [W] of
    [tmp] (and of [xi] in a DDC build) seeded. *)
Definition seeded (W : Z → Z → Prop) (s y : Sim) : Prop :=
  tmpGrad y = (if DDC E then 1 else -1)
  ∧ xiGrad y = (if DDC E then 1 else xiGrad s)
  ∧ current y = current s ∧ t y = t s ∧ fs y = fs s
  ∧ saveNumber y = saveNumber s
  ∧ (∀ x, len (mem y x) = len (mem s x))
  ∧ (∀ x, x ≠ Tmp → x ≠ Xi → mem y x = mem s x)
  ∧ (DDC E = false → mem y Xi = mem s Xi)
  ∧ ∀ n k, 0 ≤ k < nZ c → W n k →
      getZ (mem y Tmp) (nZ c * n + k) = Some (seed n k)
      ∧ (DDC E = true → getZ (mem y Xi) (nZ c * n + k) = Some (seed n k)).

End LinearSeedDefs.

Section LinearSetupDefs.

Context (E : External) (c : Constants).

(** The locals of [runLinear] when its loop starts, for the simulator [s]:
    no step counted, no previous estimate, and for every mode the probes of
    [s] as snapshots. *)
Definition fresh_snapshots (s : Sim) (l : LinLocals) : Prop :=
  steps l = 0
  ∧ logTmpPrev l = 0.0%float ∧ logXiPrev l = 0.0%float
  ∧ logOmgPrev l = 0.0%float ∧ logPsiPrev l = 0.0%float
  ∧ len (tmpPrev l) = nN c ∧ len (xiPrev l) = nN c
  ∧ len (omgPrev l) = nN c ∧ len (psiPrev l) = nN c
  ∧ ∀ n, 0 ≤ n < nN c →
      0 ≤ 32 + n * nZ c < len (mem s Tmp)
      ∧ at_ (tmpPrev l) n = at_ (mem s Tmp) (32 + n * nZ c)
      ∧ at_ (omgPrev l) n = at_ (mem s Omg) (32 + n * nZ c)
      ∧ at_ (psiPrev l) n = at_ (mem s Psi) (32 + n * nZ c)
      ∧ (DDC E = true → at_ (xiPrev l) n = at_ (mem s Xi) (32 + n * nZ c)).

End LinearSetupDefs.

Section LinearXiDefs.

Context (E : External) (c : Constants).

(** What [computeLinearDerivatives] leaves in [dXidt] at mode [n], row [k],
    in a DDC build. *)
Definition linear_dXidt (linearSim n k : Z) (s : Sim) : float :=
  let i := k + n * nZ c in
  let diffusion :=
    (tau c * (dfdz2_at (mem s Xi) i (dz c)
              - c_pow E (kx c n) 2 * at_ (mem s Xi) i))%float in
  if linearSim =? 1
  then (diffusion
        + of_int (-1 * xiGrad s * n) * M_PI / of_int (a c)
          * at_ (mem s Psi) i)%float
  else diffusion.

End LinearXiDefs.


(** ** Further concrete states and results *)

(** The DDC build with assertions. *)
Definition ddc_build : External := ref_external false true.

(** [small_state] with a second scalar, its gradient set as [runLinear]
    sets it in a DDC build. *)
Definition ddc_state : Sim :=
  let fld (x : arr) : list float :=
    match x with
    | Xi => [0; 0.5; 0.25; 0;  0; 0.25; 0.5; 0;  0; 1; 0.5; 0]%float
    | x => mem small_state x
    end in
  mkSim fld 0 0%float 1 (-1) 0%float 0%float 0 ∅ ∅.

Definition ddc_linear_result : Sim :=
  value_of ddc_state (computeLinearDerivatives ddc_build small_grid 1 ddc_state).

Definition xi_update_result : Sim :=
  value_of ddc_state (updateXi small_grid 1%float ddc_linear_result).

Definition poisson_result : Sim :=
  value_of small_state (solveForPsi debug_build small_grid small_state).

Definition linear_step_result : Sim :=
  value_of small_state (runLinear_step debug_build small_grid small_state).

Definition first_save_result : Sim :=
  value_of small_state (save debug_build small_grid small_state).

Definition second_save_result : Sim :=
  value_of small_state (save debug_build small_grid first_save_result).

Definition housekeeping_result : Sim * NLLocals :=
  value_of (small_state, small_locals)
    (nl_housekeeping debug_build small_grid (small_state, small_locals)).

(** [small_state] constructed with [current] = 1, beside a file of initial
    conditions that holds its own checkpoint. *)
Definition restart_state : Sim :=
  mkSim (mem small_state) 1 0%float (-1) 0 0%float 0%float 0
    {[ "ic.dat" := checkpoint small_grid small_state ]} ∅.

(** The simulator a nonlinear run from [restart_state] on the small grid
    returns. *)
Definition nonlinear_run_result : Sim :=
  default small_state
    (value_of None (runNonLinear debug_build small_grid 5 restart_state)).

(** [small_state] beside a file of initial conditions of two doubles. *)
Definition truncated_state : Sim :=
  mkSim (mem small_state) 0 0%float (-1) 0 0%float 0%float 0
    {[ "ic.dat" := [7; 8]%float ]} ∅.

(** The small grid with no time to run. *)
Definition idle_grid : Constants := {|
  nZ := 4; nN := 3; dt := 0x1p-10%float; Ra := 1000%float; Pr := 1%float;
  a := 3; RaXi := 0%float; tau := 1%float;
  timeBetweenSaves := 1%float; modifydt := false;
  totalTime := 0%float; saveFolder := "out/"; icFile := "ic.dat"
|}.

(** A simulator on the probe grid whose [omg] and [psi] hold 1 everywhere. *)
Definition probe_state : Sim :=
  let fld (x : arr) : list float :=
    match x with
    | Omg | Psi => replicate 420 1%float
    | x => init_mem probe_grid x
    end in
  mkSim fld 0 0%float (-1) 0 0%float 0%float 0 ∅ ∅.

(** The release build, single-diffusive. *)
Definition release_build : External := ref_external true false.


Definition linear_start : Sim * LinLocals :=
  value_of (probe_state, fresh_locals probe_grid)
    (runLinear_setup release_build probe_grid probe_state).

(** * Verification *)

(** ** The error monad *)

Lemma bind_Ok {A B : Type} (m : result A) (k : A → result B) (y : B) :
  m ≫= k = Ok y → ∃ x, m = Ok x ∧ k x = Ok y.
Proof. destruct m as [x|e]; simpl; [eauto | discriminate]. Qed.

Ltac inv_bind H :=
  cbv beta in H;
  repeat match type of H with
  | (_ ≫= _) = Ok _ =>
      let x := fresh "x" in
      let Hx := fresh "Hx" in
      apply bind_Ok in H; destruct H as (x & Hx & H); cbv beta in H
  end.

(** ** Arrays *)

Lemma rd_Ok l i x : rd l i = Ok x → getZ l i = Some x.
Proof. unfold rd. destruct (getZ l i); congruence. Qed.

Lemma rd_at l i x : rd l i = Ok x → x = at_ l i.
Proof. intros H%rd_Ok. unfold at_. by rewrite H. Qed.

Lemma getZ_Some_range l i x : getZ l i = Some x → 0 ≤ i < len l.
Proof.
  unfold getZ, len. destruct (Z.leb_spec 0 i); [|done].
  intros Hl%lookup_lt_Some. lia.
Qed.

Lemma getZ_in_range l i : 0 ≤ i < len l → is_Some (getZ l i).
Proof.
  unfold getZ, len. intros [H1 H2]. destruct (Z.leb_spec 0 i); [|lia].
  apply lookup_lt_is_Some. lia.
Qed.

Lemma rd_in_range l i : 0 ≤ i < len l → rd l i = Ok (at_ l i).
Proof.
  intros [x Hx]%getZ_in_range. unfold rd, at_. by rewrite Hx.
Qed.

Lemma rd_range l i x : rd l i = Ok x → 0 ≤ i < len l.
Proof. intros H%rd_Ok. by eapply getZ_Some_range. Qed.

Lemma rd_out_of_range l i : ¬ (0 ≤ i < len l) → rd l i = Err OutOfBounds.
Proof.
  intros H. unfold rd. destruct (getZ l i) eqn:Hg; [|done].
  apply getZ_Some_range in Hg. lia.
Qed.

Lemma wr_Ok l i x l' :
  wr l i x = Ok l' → 0 ≤ i < len l ∧ l' = <[Z.to_nat i := x]> l.
Proof.
  unfold wr. destruct (Z.leb_spec 0 i), (Z.ltb_spec i (len l)); simpl;
    intros [=]; subst; auto.
Qed.

Lemma wr_in_range l i x :
  0 ≤ i < len l → wr l i x = Ok (<[Z.to_nat i := x]> l).
Proof.
  intros [H1 H2]. unfold wr.
  destruct (Z.leb_spec 0 i), (Z.ltb_spec i (len l)); simpl; auto; lia.
Qed.

Lemma wr_out_of_range l i x : ¬ (0 ≤ i < len l) → wr l i x = Err OutOfBounds.
Proof.
  intros H. unfold wr.
  destruct (Z.leb_spec 0 i), (Z.ltb_spec i (len l)); simpl; auto; lia.
Qed.

Lemma len_insert l (i : nat) (x : float) : len (<[i := x]> l) = len l.
Proof. unfold len. by rewrite length_insert. Qed.

Lemma getZ_insert l i j (x : float) :
  0 ≤ i < len l →
  getZ (<[Z.to_nat i := x]> l) j = if decide (j = i) then Some x else getZ l j.
Proof.
  unfold getZ, len. intros [H1 H2]. case_decide as Hj.
  - subst j. destruct (Z.leb_spec 0 i); [|lia].
    apply list_lookup_insert_eq. lia.
  - destruct (Z.leb_spec 0 j); [|done].
    apply list_lookup_insert_ne. lia.
Qed.

Lemma at_insert l i j (x : float) :
  0 ≤ i < len l →
  at_ (<[Z.to_nat i := x]> l) j = if decide (j = i) then x else at_ l j.
Proof.
  intros H. unfold at_. rewrite getZ_insert by done. by case_decide.
Qed.

Lemma getZ_at l i x : getZ l i = Some x → at_ l i = x.
Proof. unfold at_. by intros ->. Qed.

Lemma dfdz_at_Ok l i h v : dfdz l i h = Ok v → v = dfdz_at l i h.
Proof.
  unfold dfdz, dfdz_at. intros H. inv_bind H.
  apply rd_at in Hx, Hx0. congruence.
Qed.

Lemma dfdz2_at_Ok l i h v : dfdz2 l i h = Ok v → v = dfdz2_at l i h.
Proof.
  unfold dfdz2, dfdz2_at. intros H. inv_bind H.
  apply rd_at in Hx, Hx0, Hx1. congruence.
Qed.

(** ** Loops *)

Lemma for_loop_nil {St : Type} lo hi (body : Z → St → result St) s :
  hi ≤ lo → for_loop lo hi body s = Ok s.
Proof.
  intros H. unfold for_loop. by replace (Z.to_nat (hi - lo)) with O by lia.
Qed.

Lemma for_loop_unfold {St : Type} lo hi (body : Z → St → result St) s :
  lo < hi →
  for_loop lo hi body s = body lo s ≫= for_loop (lo + 1) hi body.
Proof.
  intros H. unfold for_loop.
  replace (Z.to_nat (hi - lo)) with (S (Z.to_nat (hi - (lo + 1)))) by lia.
  reflexivity.
Qed.

(** The invariant rule for a loop that completes. *)
Lemma for_loop_inv {St : Type} (I : Z → St → Prop) lo hi
    (body : Z → St → result St) s s' :
  lo ≤ hi →
  I lo s →
  (∀ i x y, lo ≤ i < hi → I i x → body i x = Ok y → I (i + 1) y) →
  for_loop lo hi body s = Ok s' →
  I hi s'.
Proof.
  intros Hle H0 Hstep. unfold for_loop.
  remember (Z.to_nat (hi - lo)) as count eqn:Hc.
  revert lo s Hle H0 Hstep Hc.
  induction count as [|count IH]; intros lo s Hle H0 Hstep Hc; simpl.
  - intros [= <-]. by replace hi with lo by lia.
  - intros H. inv_bind H.
    apply (IH (lo + 1) x); [lia | | | lia | done].
    + apply (Hstep lo s); [lia | done | done].
    + intros i y z Hi. apply Hstep. lia.
Qed.

(** The rule for a loop whose body cannot fail under the invariant. *)
Lemma for_loop_total {St : Type} (I : Z → St → Prop) lo hi
    (body : Z → St → result St) s :
  lo ≤ hi →
  I lo s →
  (∀ i x, lo ≤ i < hi → I i x → ∃ y, body i x = Ok y ∧ I (i + 1) y) →
  ∃ s', for_loop lo hi body s = Ok s' ∧ I hi s'.
Proof.
  intros Hle H0 Hstep. unfold for_loop.
  remember (Z.to_nat (hi - lo)) as count eqn:Hc.
  revert lo s Hle H0 Hstep Hc.
  induction count as [|count IH]; intros lo s Hle H0 Hstep Hc; simpl.
  - exists s. split; [done|]. by replace hi with lo by lia.
  - destruct (Hstep lo s) as (y & Hy & HI); [lia | done |].
    rewrite Hy. simpl.
    apply (IH (lo + 1) y); [lia | done | | lia].
    intros i x Hi. apply Hstep. lia.
Qed.

(** A loop stops at the first failing iteration. *)
Lemma for_loop_first_fails {St : Type} lo hi (body : Z → St → result St) s e :
  lo < hi → body lo s = Err e → for_loop lo hi body s = Err e.
Proof. intros H He. rewrite for_loop_unfold by done. by rewrite He. Qed.

(** ** Frames: what a kernel leaves alone *)

Lemma same_fields_refl s : same_fields s s.
Proof. by split. Qed.

Lemma same_fields_trans s1 s2 s3 :
  same_fields s1 s2 → same_fields s2 s3 → same_fields s1 s3.
Proof. intros [] []. split; congruence. Qed.

Lemma tend_frame_refl W s : tend_frame W s s.
Proof. split; [apply same_fields_refl | done | done]. Qed.

Lemma tend_frame_mono (W W' : Z → Prop) s s' :
  (∀ j, W j → W' j) → tend_frame W s s' → tend_frame W' s s'.
Proof. intros HW [Hf Hl Ho]. split; [done | done |]. intros x j Hj. apply Ho. auto. Qed.

Lemma tend_frame_trans (W : Z → Prop) s1 s2 s3 :
  tend_frame W s1 s2 → tend_frame W s2 s3 → tend_frame W s1 s3.
Proof.
  intros [Hf1 Hl1 Ho1] [Hf2 Hl2 Ho2]. split.
  - by eapply same_fields_trans.
  - intros x. by rewrite Hl2.
  - intros x j Hj. by rewrite Ho2, Ho1.
Qed.

Lemma store_Ok x i v s s' :
  store x i v s = Ok s' →
  0 ≤ i < len (mem s x) ∧ s' = set_mem x (<[Z.to_nat i := v]> (mem s x)) s.
Proof.
  unfold store. intros H. inv_bind H. apply wr_Ok in Hx as [? ->].
  by injection H as <-.
Qed.

Lemma set_mem_tend_frame x i v s :
  is_tendency x → 0 ≤ i < len (mem s x) →
  tend_frame (λ j, j = i) s (set_mem x (<[Z.to_nat i := v]> (mem s x)) s).
Proof.
  intros Hx Hi. split.
  - split; try done; simpl; case_decide; subst; try done;
      destruct Hx as [|[|]]; discriminate.
  - intros y. simpl. case_decide; subst; [apply len_insert | done].
  - intros y j Hj. simpl. case_decide; subst; [|done].
    rewrite getZ_insert by done. by case_decide.
Qed.

Lemma mem_set_mem_eq x l s : mem (set_mem x l s) x = l.
Proof. simpl. by case_decide. Qed.

Lemma mem_set_mem_ne x y l s : y ≠ x → mem (set_mem x l s) y = mem s y.
Proof. intros. simpl. by case_decide. Qed.

Lemma assert_Ok E e u : assert E e = Ok u → NDEBUG E = true ∨ e = Ok true.
Proof.
  unfold assert. destruct (NDEBUG E); [auto|].
  destruct e as [[]|]; simpl; [auto | discriminate | discriminate].
Qed.

Lemma scalars_set_mem x l s :
  current (set_mem x l s) = current s
  ∧ tmpGrad (set_mem x l s) = tmpGrad s
  ∧ xiGrad (set_mem x l s) = xiGrad s.
Proof. done. Qed.

Lemma current_set_mem x l s : current (set_mem x l s) = current s.
Proof. done. Qed.
Lemma tmpGrad_set_mem x l s : tmpGrad (set_mem x l s) = tmpGrad s.
Proof. done. Qed.
Lemma xiGrad_set_mem x l s : xiGrad (set_mem x l s) = xiGrad s.
Proof. done. Qed.

Ltac simpl_sim :=
  repeat progress
    (rewrite ?mem_set_mem_eq, ?mem_set_mem_ne, ?current_set_mem,
       ?tmpGrad_set_mem, ?xiGrad_set_mem in * by done).

(** Turn the completed reads and stores of a straight-line body into
    equations between values. *)
Ltac track_stores :=
  repeat match goal with
  | H : (_ ≫= _) = Ok _ |- _ =>
      let x := fresh "x" in
      let Hx := fresh "Hx" in
      apply bind_Ok in H; destruct H as (x & Hx & H); cbv beta in H
  | H : store _ _ _ _ = Ok _ |- _ =>
      let Hr := fresh "Hrange" in
      apply store_Ok in H as [Hr ->]; simpl_sim
  | H : dfdz2 _ _ _ = Ok _ |- _ => apply dfdz2_at_Ok in H; subst
  | H : dfdz _ _ _ = Ok _ |- _ => apply dfdz_at_Ok in H; subst
  | H : rd _ _ = Ok _ |- _ =>
      apply rd_at in H; rewrite ?at_insert in H by (by rewrite ?len_insert);
      rewrite ?decide_True in H by done; subst
  | H : Ok _ = Ok _ |- _ => injection H as H; subst
  end.

Lemma set_mem_frame (W : Z → Prop) x l s0 s :
  is_tendency x →
  tend_frame W s0 s →
  len l = len (mem s x) →
  (∀ j, ¬ W j → getZ l j = getZ (mem s x) j) →
  tend_frame W s0 (set_mem x l s).
Proof.
  intros Hx [Hf Hl Ho] Hlen Hout. split.
  - destruct Hf. split; try done; rewrite mem_set_mem_ne; try done;
      destruct Hx as [->|[->| ->]]; done.
  - intros y. destruct (decide (y = x)) as [->|].
    + rewrite mem_set_mem_eq. by rewrite Hlen.
    + by rewrite mem_set_mem_ne.
  - intros y j Hj. destruct (decide (y = x)) as [->|].
    + rewrite mem_set_mem_eq. rewrite Hout by done. by apply Ho.
    + rewrite mem_set_mem_ne by done. by apply Ho.
Qed.

Ltac frame_chain :=
  repeat (apply set_mem_frame;
          [ unfold is_tendency; tauto
          |
          | simpl_sim; by rewrite ?len_insert
          | intros ? ?; simpl_sim;
            rewrite ?getZ_insert by (by rewrite ?len_insert);
            by rewrite ?decide_False by done ]);
  try apply tend_frame_refl.

(** ** The linear tendency kernel *)

Section LinearKernel.

Context (E : External) (c : Constants).

Lemma cell_inj slot n k n' k' :
  0 ≤ k < nZ c → 0 ≤ k' < nZ c →
  cell c slot n k = cell c slot n' k' → n = n' ∧ k = k'.
Proof.
  unfold cell. intros Hk Hk' H.
  assert (n = n') as ->; [|lia].
  destruct (Z.lt_trichotomy n n') as [Hlt|[?|Hlt]]; [|done|].
  - assert (n * nZ c + nZ c ≤ n' * nZ c) by nia. lia.
  - assert (n' * nZ c + nZ c ≤ n * nZ c) by nia. lia.
Qed.

Lemma linear_values_same_fields ls n k s s' :
  same_fields s s' →
  linear_dTmpdt E c ls n k s' = linear_dTmpdt E c ls n k s
  ∧ linear_dOmgdt E c n k s' = linear_dOmgdt E c n k s.
Proof.
  intros [Hp Hw Ht Hx _ _ Hg _ _ _ _ _ _]. unfold linear_dTmpdt, linear_dOmgdt.
  by rewrite Hp, Hw, Ht, Hx, Hg.
Qed.

Lemma linear_cell_spec ls n k s s' :
  linear_cell E c ls n k s = Ok s' →
  tend_frame (λ j, j = cell c (current s) n k) s s'
  ∧ getZ (mem s' DTmpdt) (cell c (current s) n k) = Some (linear_dTmpdt E c ls n k s)
  ∧ getZ (mem s' DOmgdt) (cell c (current s) n k) = Some (linear_dOmgdt E c n k s).
Proof.
  unfold linear_cell, cell, linear_dTmpdt, linear_dOmgdt.
  set (di := current s * nZ c * nN c + n * nZ c + k).
  intros H.
  destruct (DDC E), (ls =? 1); inv_bind H; track_stores.
  all: split; [frame_chain|].
  all: simpl_sim.
  all: rewrite ?getZ_insert by (by rewrite ?len_insert).
  all: rewrite ?at_insert by (by rewrite ?len_insert).
  all: by rewrite ?decide_True by done.
Qed.

Lemma linear_row_spec ls n s s' :
  for_loop 1 (nZ c - 1) (linear_cell E c ls n) s = Ok s' →
  tend_frame (interior_of c (current s) n) s s'
  ∧ ∀ k, 1 ≤ k < nZ c - 1 →
      getZ (mem s' DTmpdt) (cell c (current s) n k)
        = Some (linear_dTmpdt E c ls n k s)
      ∧ getZ (mem s' DOmgdt) (cell c (current s) n k)
        = Some (linear_dOmgdt E c n k s).
Proof.
  intros H. destruct (Z.le_gt_cases (nZ c - 1) 1) as [Hz|Hz].
  { rewrite for_loop_nil in H by done. injection H as <-.
    split; [apply tend_frame_refl | intros; lia]. }
  pose (I := λ (k : Z) (x : Sim),
    tend_frame (λ j, ∃ k', 1 ≤ k' < k ∧ j = cell c (current s) n k') s x
    ∧ ∀ k', 1 ≤ k' < k →
        getZ (mem x DTmpdt) (cell c (current s) n k')
          = Some (linear_dTmpdt E c ls n k' s)
        ∧ getZ (mem x DOmgdt) (cell c (current s) n k')
          = Some (linear_dOmgdt E c n k' s)).
  assert (I (nZ c - 1) s') as [Hf Hv].
  { eapply (for_loop_inv I); [| | | exact H]; [lia | |].
    - split; [apply tend_frame_refl | intros; lia].
    - intros k x y Hk [Hfx Hvx] Hy.
      apply linear_cell_spec in Hy as (Hfy & HT & HW).
      pose proof (sf_current _ _ (tf_fields _ _ _ Hfx)) as Hcur.
      destruct (linear_values_same_fields ls n k s x (tf_fields _ _ _ Hfx))
        as [HvT HvW].
      rewrite Hcur, ?HvT, ?HvW in *.
      split.
      + eapply tend_frame_trans.
        * eapply tend_frame_mono; [|exact Hfx].
          intros j (k' & ? & ->). exists k'. split; [lia|done].
        * eapply tend_frame_mono; [|exact Hfy].
          intros j ->. exists k. split; [lia|done].
      + intros k' Hk'. destruct (decide (k' = k)) as [->|Hne]; [done|].
        rewrite !(tf_out _ _ _ Hfy).
        * apply Hvx. lia.
        * intros Heq. apply cell_inj in Heq; lia.
        * intros Heq. apply cell_inj in Heq; lia. }
  split; [|done].
  eapply tend_frame_mono; [|exact Hf]. intros j (k & ? & ->). by exists k.
Qed.

Lemma computeLinearDerivatives_spec ls s s' :
  computeLinearDerivatives E c ls s = Ok s' →
  tend_frame (linear_cells c (current s) ls) s s'
  ∧ ∀ n k, ls ≤ n < nN c → 1 ≤ k < nZ c - 1 →
      getZ (mem s' DTmpdt) (cell c (current s) n k)
        = Some (linear_dTmpdt E c ls n k s)
      ∧ getZ (mem s' DOmgdt) (cell c (current s) n k)
        = Some (linear_dOmgdt E c n k s).
Proof.
  unfold computeLinearDerivatives. intros H.
  destruct (Z.le_gt_cases (nN c) ls) as [Hz|Hz].
  { rewrite for_loop_nil in H by done. injection H as <-.
    split; [apply tend_frame_refl | intros; lia]. }
  pose (I := λ (n : Z) (x : Sim),
    tend_frame (λ j, ∃ n', ls ≤ n' < n ∧ interior_of c (current s) n' j) s x
    ∧ ∀ n' k, ls ≤ n' < n → 1 ≤ k < nZ c - 1 →
        getZ (mem x DTmpdt) (cell c (current s) n' k)
          = Some (linear_dTmpdt E c ls n' k s)
        ∧ getZ (mem x DOmgdt) (cell c (current s) n' k)
          = Some (linear_dOmgdt E c n' k s)).
  assert (I (nN c) s') as [Hf Hv].
  { eapply (for_loop_inv I); [| | | exact H]; [lia | |].
    - split; [apply tend_frame_refl | intros; lia].
    - intros n x y Hn [Hfx Hvx] Hy.
      apply linear_row_spec in Hy as (Hfy & Hvy).
      pose proof (sf_current _ _ (tf_fields _ _ _ Hfx)) as Hcur.
      rewrite Hcur in *.
      split.
      + eapply tend_frame_trans.
        * eapply tend_frame_mono; [|exact Hfx].
          intros j (n' & ? & ?). exists n'. split; [lia|done].
        * eapply tend_frame_mono; [|exact Hfy].
          intros j ?. exists n. split; [lia|done].
      + intros n' k Hn' Hk. destruct (decide (n' = n)) as [->|Hne].
        * destruct (linear_values_same_fields ls n k s x
                      (tf_fields _ _ _ Hfx)) as [<- <-].
          by apply Hvy.
        * rewrite !(tf_out _ _ _ Hfy).
          -- apply Hvx; lia.
          -- intros (k' & ? & Heq). apply cell_inj in Heq; lia.
          -- intros (k' & ? & Heq). apply cell_inj in Heq; lia. }
  split; [|done].
  eapply tend_frame_mono; [|exact Hf]. intros j (n & ? & ?). by exists n.
Qed.

End LinearKernel.

Section LinearTendencies.

Context (E : External) (c : Constants).

(** C1: when the linear tendency pass completes, then for every mode [n]
    from [linearSim] (1 in the linear run mode, 0 in the nonlinear one) up to
    [nN - 1] and every interior row [1 <= k <= nZ - 2], the current slot of
    [dTmpdt] holds the second difference of T minus (n pi / a)^2 T, plus, in
    the linear run mode only, -tmpGrad (n pi / a) psi; and the current slot
    of [dOmgdt] holds Pr (second difference of omega - (n pi / a)^2 omega
    + Ra (n pi / a) T). All values are those of the fields on entry, in the
    evaluation order of the source.  (A DDC build subtracts the
    second scalar's buoyancy from [dOmgdt] in addition.) *)
Theorem computeLinearDerivatives_writes (linearSim : Z) (s s' : Sim)
    (n k : Z) :
  computeLinearDerivatives E c linearSim s = Ok s' →
  linearSim ≤ n < nN c →
  1 ≤ k ≤ nZ c - 2 →
  let i := k + n * nZ c in
  let di := current s * nZ c * nN c + n * nZ c + k in
  let T := mem s Tmp in
  let W := mem s Omg in
  let k2 := c_pow E (of_int n * M_PI / of_int (a c))%float 2%float in
  getZ (mem s' DTmpdt) di =
    Some (if linearSim =? 1
          then (dfdz2_at T i (dz c) - k2 * at_ T i
                + of_int (-1 * tmpGrad s * n) * M_PI / of_int (a c)
                  * at_ (mem s Psi) i)%float
          else (dfdz2_at T i (dz c) - k2 * at_ T i)%float)
  ∧ getZ (mem s' DOmgdt) di =
    Some (if DDC E
          then (Pr c * (dfdz2_at W i (dz c) - k2 * at_ W i
                        + Ra c * of_int n * M_PI / of_int (a c) * at_ T i)
                + - RaXi c * tau c * Pr c
                  * (of_int n * M_PI / of_int (a c)) * at_ (mem s Xi) i)%float
          else (Pr c * (dfdz2_at W i (dz c) - k2 * at_ W i
                        + Ra c * of_int n * M_PI / of_int (a c)
                          * at_ T i))%float).
Proof.
  intros H Hn Hk. simpl.
  apply computeLinearDerivatives_spec in H as [_ Hv].
  destruct (Hv n k) as [HT HW]; [done | lia |].
  unfold cell, linear_dTmpdt, linear_dOmgdt, kx in *.
  rewrite HT, HW. by destruct (linearSim =? 1), (DDC E).
Qed.

End LinearTendencies.

(** ** The nonlinear tendency kernel *)

Section NonLinearKernel.

Context (E : External) (c : Constants).

Lemma seqZ_snoc lo n : 0 ≤ n → seqZ lo (n + 1) = seqZ lo n ++ [lo + n].
Proof.
  intros Hn. rewrite seqZ_app by lia.
  rewrite (seqZ_cons (lo + n)) by lia.
  by rewrite (seqZ_nil (Z.succ (lo + n))) by lia.
Qed.

Lemma tf_out_at (W : Z → Prop) s s' x j :
  tend_frame W s s' → ¬ W j → at_ (mem s' x) j = at_ (mem s x) j.
Proof. intros Hf Hj. unfold at_. by rewrite (tf_out _ _ _ Hf). Qed.

Lemma add_to_Ok x i v s s' :
  add_to x i v s = Ok s' →
  0 ≤ i < len (mem s x)
  ∧ s' = set_mem x (<[Z.to_nat i := (at_ (mem s x) i + v)%float]> (mem s x)) s.
Proof.
  unfold add_to. intros H. inv_bind H.
  apply rd_at in Hx as ->. by apply store_Ok in H.
Qed.

Lemma row_fold_refl r s : row_fold c r (λ _, []) (λ _, []) s s.
Proof. split; [apply tend_frame_refl | done]. Qed.

Lemma row_fold_trans r cT1 cW1 cT2 cW2 s1 s2 s3 :
  row_fold c r cT1 cW1 s1 s2 → row_fold c r cT2 cW2 s2 s3 →
  row_fold c r (λ k, cT1 k ++ cT2 k) (λ k, cW1 k ++ cW2 k) s1 s3.
Proof.
  intros [Hf1 Hv1] [Hf2 Hv2].
  pose proof (sf_current _ _ (tf_fields _ _ _ Hf1)) as Hcur.
  rewrite Hcur in *. split; [by eapply tend_frame_trans|].
  intros k Hk. destruct (Hv1 k Hk) as [HT1 HW1], (Hv2 k Hk) as [HT2 HW2].
  unfold accumulate in *. rewrite !fold_left_app. by rewrite HT2, HW2, HT1, HW1.
Qed.

Lemma row_fold_ext r cT cW cT' cW' s s' :
  (∀ k, 1 ≤ k < nZ c - 1 → cT k = cT' k ∧ cW k = cW' k) →
  row_fold c r cT cW s s' → row_fold c r cT' cW' s s'.
Proof.
  intros Hext [Hf Hv]. split; [done|]. intros k Hk.
  destruct (Hext k Hk) as [<- <-]. by apply Hv.
Qed.

(** A loop over the interior rows whose [k]-th round accumulates into the
    cell of row [k]. *)
Lemma row_loop_fold r (cT cW : Z → list float)
    (body : Z → Sim → result Sim) s s' :
  (∀ k x y, 1 ≤ k < nZ c - 1 → same_fields s x → body k x = Ok y →
     cell_fold (cell c (current s) r k) (cT k) (cW k) x y) →
  for_loop 1 (nZ c - 1) body s = Ok s' →
  row_fold c r cT cW s s'.
Proof.
  intros Hbody H. destruct (Z.le_gt_cases (nZ c - 1) 1) as [Hz|Hz].
  { rewrite for_loop_nil in H by done. injection H as <-.
    split; [apply tend_frame_refl | intros; lia]. }
  pose (I := λ (k : Z) (x : Sim),
    tend_frame (λ j, ∃ k', 1 ≤ k' < k ∧ j = cell c (current s) r k') s x
    ∧ ∀ k', 1 ≤ k' < k →
        at_ (mem x DTmpdt) (cell c (current s) r k')
          = accumulate (cT k') (at_ (mem s DTmpdt) (cell c (current s) r k'))
        ∧ at_ (mem x DOmgdt) (cell c (current s) r k')
          = accumulate (cW k') (at_ (mem s DOmgdt) (cell c (current s) r k'))).
  assert (I (nZ c - 1) s') as [Hf Hv].
  { eapply (for_loop_inv I); [| | | exact H]; [lia | |].
    - split; [apply tend_frame_refl | intros; lia].
    - intros k x y Hk [Hfx Hvx] Hy.
      apply Hbody in Hy as (Hfy & HT & HW);
        [| done | apply (tf_fields _ _ _ Hfx)].
      split.
      + eapply tend_frame_trans.
        * eapply tend_frame_mono; [|exact Hfx].
          intros j (k' & ? & ->). exists k'. split; [lia|done].
        * eapply tend_frame_mono; [|exact Hfy].
          intros j ->. exists k. split; [lia|done].
      + intros k' Hk'. destruct (decide (k' = k)) as [->|Hne].
        * rewrite HT, HW.
          rewrite !(tf_out_at _ _ _ _ _ Hfx); [done | |];
            intros (k' & ? & Heq); apply cell_inj in Heq; lia.
        * rewrite !(tf_out_at _ _ _ _ _ Hfy);
            [apply Hvx; lia | |]; intros Heq; apply cell_inj in Heq; lia. }
  split; [|done].
  eapply tend_frame_mono; [|exact Hf]. intros j (k & ? & ->). by exists k.
Qed.

(** A loop over [m] whose rounds accumulate into the interior of mode [r]. *)
Lemma mode_loop_fold r lo hi (cT cW : Z → Z → list float)
    (body : Z → Sim → result Sim) s s' :
  (∀ m x y, lo ≤ m < hi → same_fields s x → body m x = Ok y →
     row_fold c r (cT m) (cW m) x y) →
  for_loop lo hi body s = Ok s' →
  row_fold c r (λ k, seqZ lo (hi - lo) ≫= λ m, cT m k)
             (λ k, seqZ lo (hi - lo) ≫= λ m, cW m k) s s'.
Proof.
  intros Hbody H. destruct (Z.le_gt_cases hi lo) as [Hz|Hz].
  { rewrite for_loop_nil in H by done. injection H as <-.
    rewrite seqZ_nil by lia. apply row_fold_refl. }
  pose (I := λ (m : Z) (x : Sim),
    row_fold c r (λ k, seqZ lo (m - lo) ≫= λ m, cT m k)
               (λ k, seqZ lo (m - lo) ≫= λ m, cW m k) s x).
  apply (for_loop_inv I lo hi body s s'); [lia | | | done].
  - unfold I. rewrite Z.sub_diag. apply row_fold_refl.
  - intros m x y Hm HI Hy. unfold I in *.
    apply Hbody in Hy; [| done | apply (tf_fields _ _ _ (proj1 HI))].
    replace (m + 1 - lo) with (m - lo + 1) by lia.
    rewrite seqZ_snoc by lia.
    assert (row_fold c r (cT m) (cW m) x y) as Hy' by done.
    pose proof (row_fold_trans _ _ _ _ _ _ _ _ HI Hy') as Ht.
    eapply row_fold_ext; [|exact Ht].
    intros k _. simpl. rewrite !bind_app. simpl. rewrite !app_nil_r.
    by replace (lo + (m - lo)) with m by lia.
Qed.

Lemma cell_fold_add_T j v s :
  0 ≤ j < len (mem s DTmpdt) →
  cell_fold j [v] []
    s (set_mem DTmpdt
         (<[Z.to_nat j := (at_ (mem s DTmpdt) j + v)%float]> (mem s DTmpdt)) s).
Proof.
  intros Hj. split; [|split].
  - apply set_mem_tend_frame; [left; done | done].
  - rewrite mem_set_mem_eq, at_insert by done. by rewrite decide_True.
  - by rewrite mem_set_mem_ne.
Qed.

Lemma nl_to_mean_spec n k s s' :
  nl_to_mean c n k s = Ok s' →
  cell_fold (cell c (current s) 0 k) [to_mean_at c n k s] [] s s'.
Proof.
  unfold nl_to_mean, to_mean_at. intros H. track_stores.
  apply add_to_Ok in H as [Hr ->].
  replace (cell c (current s) 0 k)
    with (current s * nZ c * nN c + 0 * nN c + k) by (unfold cell; lia).
  by apply cell_fold_add_T.
Qed.

Lemma nl_from_mean_spec n k s s' :
  nl_from_mean c n k s = Ok s' →
  cell_fold (cell c (current s) n k) [from_mean_at c n k s] [] s s'.
Proof.
  unfold nl_from_mean, from_mean_at. intros H. track_stores.
  apply add_to_Ok in H as [Hr ->].
  replace (cell c (current s) n k)
    with (current s * nZ c * nN c + (n * nZ c + k)) by (unfold cell; lia).
  by apply cell_fold_add_T.
Qed.

Lemma triad_term_at lead sm o im io fld psi v :
  triad_term c lead sm o im io fld psi = Ok v →
  v = triad_at c lead sm o im io fld psi.
Proof. unfold triad_term, triad_at. intros H. by track_stores. Qed.

Lemma triad_cell_spec leadT leadW sm o n m k s s' :
  triad_cell c leadT leadW sm o n m k s = Ok s' →
  cell_fold (cell c (current s) n k)
    [triad_at c leadT sm o (nZ c * m + k) (nZ c * o + k) (mem s Tmp) (mem s Psi)]
    [triad_at c leadW sm o (nZ c * m + k) (nZ c * o + k) (mem s Omg) (mem s Psi)]
    s s'.
Proof.
  unfold triad_cell. intros H. inv_bind H.
  apply triad_term_at in Hx as ->.
  apply add_to_Ok in Hx0 as [HrT ->]. simpl_sim.
  apply triad_term_at in Hx1 as ->.
  apply add_to_Ok in H as [HrW ->]. simpl_sim.
  replace (cell c (current s) n k)
    with (current s * nZ c * nN c + nZ c * n + k) by (unfold cell; lia).
  set (j := current s * nZ c * nN c + nZ c * n + k) in *.
  split; [|split].
  - frame_chain.
  - simpl_sim. rewrite at_insert by done. by rewrite decide_True.
  - simpl_sim. rewrite at_insert by done. by rewrite decide_True.
Qed.

Lemma field_values_same_fields s x :
  same_fields s x →
  mem x Psi = mem s Psi ∧ mem x Tmp = mem s Tmp ∧ mem x Omg = mem s Omg
  ∧ current x = current s.
Proof. by intros []. Qed.

Lemma triad_loop_fold leadT leadW (sm o : Z → Z) n lo hi s s' :
  for_loop lo hi (λ m s,
    check_mo E c m (o m);;
    for_loop 1 (nZ c - 1) (triad_cell c leadT leadW (sm m) (o m) n m) s) s
    = Ok s' →
  row_fold c n
    (λ k, seqZ lo (hi - lo) ≫= λ m, (triads_at c leadT leadW sm o m k s).1)
    (λ k, seqZ lo (hi - lo) ≫= λ m, (triads_at c leadT leadW sm o m k s).2)
    s s'.
Proof.
  apply (mode_loop_fold n lo hi
           (λ m k, (triads_at c leadT leadW sm o m k s).1)
           (λ m k, (triads_at c leadT leadW sm o m k s).2)).
  intros m x y Hm Hsf H. inv_bind H.
  destruct (field_values_same_fields s x Hsf) as (HP & HT & HW & Hcur).
  eapply row_loop_fold; [|exact H].
  intros k x' y' Hk Hsf' Hy'. apply triad_cell_spec in Hy'.
  destruct (field_values_same_fields x x' Hsf') as (HP' & HT' & HW' & Hcur').
  unfold triads_at. simpl.
  by rewrite HP', HT', HW', Hcur', HP, HT, HW in Hy'.
Qed.

Lemma mode_contributions_same_fields n k s x :
  same_fields s x → mode_contributions c n k x = mode_contributions c n k s.
Proof.
  intros Hsf.
  destruct (field_values_same_fields s x Hsf) as (HP & HT & HW & Hcur).
  unfold mode_contributions, triads_at, from_mean_at. simpl.
  by rewrite HP, HT, HW.
Qed.

Lemma row_fold_same_fields r cT cW s x y :
  same_fields s x →
  row_fold c r cT cW x y →
  tend_frame (interior_of c (current s) r) x y
  ∧ ∀ k, 1 ≤ k < nZ c - 1 →
      at_ (mem y DTmpdt) (cell c (current s) r k)
        = accumulate (cT k) (at_ (mem x DTmpdt) (cell c (current s) r k))
      ∧ at_ (mem y DOmgdt) (cell c (current s) r k)
        = accumulate (cW k) (at_ (mem x DOmgdt) (cell c (current s) r k)).
Proof. intros Hsf. unfold row_fold. by rewrite (sf_current _ _ Hsf). Qed.

Lemma nl_mode_fold n s s' :
  nl_mode E c n s = Ok s' →
  row_fold c n (λ k, (mode_contributions c n k s).1)
             (λ k, (mode_contributions c n k s).2) s s'.
Proof.
  unfold nl_mode. intros H. inv_bind H.
  assert (row_fold c n (λ k, [from_mean_at c n k s]) (λ _, []) s x) as H1.
  { eapply row_loop_fold; [|exact Hx].
    intros k x' y' Hk Hsf Hy. apply nl_from_mean_spec in Hy.
    destruct (field_values_same_fields s x' Hsf) as (HP & HT & HW & Hcur).
    unfold from_mean_at in *. by rewrite HP, HT, Hcur in Hy. }
  pose proof (tf_fields _ _ _ (proj1 H1)) as Hsf1.
  apply triad_loop_fold in Hx0 as H2.
  pose proof (row_fold_trans _ _ _ _ _ _ _ _ H1 H2) as H12.
  pose proof (tf_fields _ _ _ (proj1 H12)) as Hsf2.
  apply triad_loop_fold in Hx1 as H3.
  pose proof (row_fold_trans _ _ _ _ _ _ _ _ H12 H3) as H123.
  pose proof (tf_fields _ _ _ (proj1 H123)) as Hsf3.
  apply triad_loop_fold in H as H4.
  pose proof (row_fold_trans _ _ _ _ _ _ _ _ H123 H4) as Hall.
  eapply row_fold_ext; [|exact Hall].
  intros k _.
  destruct (field_values_same_fields s x Hsf1) as (HP1 & HT1 & HW1 & _).
  destruct (field_values_same_fields s x0 Hsf2) as (HP2 & HT2 & HW2 & _).
  destruct (field_values_same_fields s x1 Hsf3) as (HP3 & HT3 & HW3 & _).
  unfold mode_contributions, triads_at. simpl.
  rewrite HP1, HT1, HW1, HP2, HT2, HW2, HP3, HT3, HW3.
  rewrite <- !app_assoc. simpl.
  by replace (n - 1) with (n - 1 - 0) by lia.
Qed.

Lemma to_mean_loop_fold s s' :
  for_loop 1 (nN c)
    (λ n s, for_loop 1 (nZ c - 1) (nl_to_mean c n) s) s = Ok s' →
  row_fold c 0 (λ k, seqZ 1 (nN c - 1) ≫= λ n, [to_mean_at c n k s])
             (λ k, seqZ 1 (nN c - 1) ≫= λ n, []) s s'.
Proof.
  apply (mode_loop_fold 0 1 (nN c) (λ n k, [to_mean_at c n k s]) (λ _ _, [])).
  intros n x y Hn Hsf H.
  destruct (field_values_same_fields s x Hsf) as (HP & HT & HW & Hcur).
  eapply row_loop_fold; [|exact H].
  intros k x' y' Hk Hsf' Hy'. apply nl_to_mean_spec in Hy'.
  destruct (field_values_same_fields x x' Hsf') as (HP' & HT' & HW' & Hcur').
  unfold to_mean_at in *.
  by rewrite HP', HT', Hcur', HP, HT in Hy'.
Qed.

Lemma computeNonLinearDerivatives_spec s s' :
  computeNonLinearDerivatives E c s = Ok s' →
  tend_frame (nonlinear_cells c (current s)) s s'
  ∧ ∀ n k, 1 ≤ n < nN c → 1 ≤ k < nZ c - 1 →
      at_ (mem s' DTmpdt) (cell c (current s) n k)
        = accumulate (mode_contributions c n k s).1
            (at_ (mem s DTmpdt) (cell c (current s) n k))
      ∧ at_ (mem s' DOmgdt) (cell c (current s) n k)
        = accumulate (mode_contributions c n k s).2
            (at_ (mem s DOmgdt) (cell c (current s) n k)).
Proof.
  unfold computeNonLinearDerivatives. intros H. inv_bind H.
  destruct (Z.le_gt_cases (nN c) 1) as [Hz|Hz].
  { rewrite for_loop_nil in Hx, H by done.
    injection Hx as <-. injection H as <-.
    split; [apply tend_frame_refl | intros; lia]. }
  apply to_mean_loop_fold in Hx as [Hf0 _].
  pose proof (tf_fields _ _ _ Hf0) as Hsf0.
  pose proof (sf_current _ _ Hsf0) as Hcur0.
  pose (I := λ (n : Z) (y : Sim),
    tend_frame (λ j, ∃ n', 1 ≤ n' < n ∧ interior_of c (current s) n' j) x y
    ∧ ∀ n' k, 1 ≤ n' < n → 1 ≤ k < nZ c - 1 →
        at_ (mem y DTmpdt) (cell c (current s) n' k)
          = accumulate (mode_contributions c n' k s).1
              (at_ (mem x DTmpdt) (cell c (current s) n' k))
        ∧ at_ (mem y DOmgdt) (cell c (current s) n' k)
          = accumulate (mode_contributions c n' k s).2
              (at_ (mem x DOmgdt) (cell c (current s) n' k))).
  assert (I (nN c) s') as [Hf Hv].
  { eapply (for_loop_inv I); [| | | exact H]; [lia | |].
    - split; [apply tend_frame_refl | intros; lia].
    - intros n y z Hn [Hfy Hvy] Hz'.
      apply nl_mode_fold in Hz'.
      assert (same_fields s y) as Hsy
        by (eapply same_fields_trans; [exact Hsf0 | apply (tf_fields _ _ _ Hfy)]).
      apply (row_fold_same_fields _ _ _ s) in Hz' as [Hfz Hvz]; [|done].
      split.
      + eapply tend_frame_trans.
        * eapply tend_frame_mono; [|exact Hfy].
          intros j (n' & ? & ?). exists n'. split; [lia|done].
        * eapply tend_frame_mono; [|exact Hfz].
          intros j ?. exists n. split; [lia|done].
      + intros n' k Hn' Hk. destruct (decide (n' = n)) as [->|Hne].
        * destruct (Hvz k Hk) as [-> ->].
          rewrite (mode_contributions_same_fields n k s y Hsy).
          rewrite !(tf_out_at _ _ _ _ _ Hfy); [done | |];
            intros (n' & ? & k' & ? & Heq); apply cell_inj in Heq; lia.
        * rewrite !(tf_out_at _ _ _ _ _ Hfz);
            [apply Hvy; lia | |];
            intros (k' & ? & Heq); apply cell_inj in Heq; lia. }
  split.
  - eapply tend_frame_trans.
    + eapply tend_frame_mono; [|exact Hf0].
      intros j Hj. exists 0. split; [lia|done].
    + eapply tend_frame_mono; [|exact Hf].
      intros j (n & ? & ?). exists n. split; [lia|done].
  - intros n k Hn Hk. destruct (Hv n k Hn Hk) as [-> ->].
    rewrite !(tf_out_at _ _ _ _ _ Hf0); [done | |];
      intros (k' & ? & Heq); apply cell_inj in Heq; lia.
Qed.

End NonLinearKernel.

Section NonLinearTendencies.

Context (E : External) (c : Constants).

Lemma bind_singleton {A B : Type} (g : A → B) (l : list A) :
  l ≫= (λ x, [g x]) = g <$> l.
Proof. induction l as [|x l IH]; [done|]. csimpl. by rewrite IH. Qed.

(** C2: when the nonlinear tendency pass completes, the tendency of every
    mode [1 <= n < nN] at every interior row [k] is its value on entry plus,
    added one after the other: the mean-mode term (temperature only), the
    triads n = m + o, the triads n = m - o, and last the triads n = o - m for
    m = 1 .. nN - n - 1 with o = n + m.  Each of the last enters [dTmpdt] as
    -(pi / 2a) (m dpsi_o/dz T_m + o dT_m/dz psi_o) and enters [dOmgdt] with
    the opposite sign in front, +(pi / 2a) (m dpsi_o/dz omega_m
    + o domega_m/dz psi_o). *)
Theorem computeNonLinearDerivatives_triad_signs (s s' : Sim) (n k : Z) :
  computeNonLinearDerivatives E c s = Ok s' →
  1 ≤ n < nN c →
  1 ≤ k ≤ nZ c - 2 →
  let j := current s * nZ c * nN c + nZ c * n + k in
  let P := mem s Psi in
  let bracket (fld : list float) (m : Z) : float :=
    let o := n + m in
    (of_int m * dfdz_at P (nZ c * o + k) (dz c) * at_ fld (nZ c * m + k)
     + of_int o * dfdz_at fld (nZ c * m + k) (dz c)
       * at_ P (nZ c * o + k))%float in
  at_ (mem s' DTmpdt) j =
    accumulate
      ((earlier_contributions c n k s).1
       ++ ((λ m, - M_PI / of_int (2 * a c) * bracket (mem s Tmp) m)%float
             <$> seqZ 1 (nN c - n - 1)))
      (at_ (mem s DTmpdt) j)
  ∧ at_ (mem s' DOmgdt) j =
    accumulate
      ((earlier_contributions c n k s).2
       ++ ((λ m, M_PI / of_int (2 * a c) * bracket (mem s Omg) m)%float
             <$> seqZ 1 (nN c - n - 1)))
      (at_ (mem s DOmgdt) j).
Proof.
  intros H Hn Hk. simpl.
  apply computeNonLinearDerivatives_spec in H as [_ Hv].
  destruct (Hv n k) as [HT HW]; [done | lia |].
  replace (current s * nZ c * nN c + nZ c * n + k)
    with (cell c (current s) n k) by (unfold cell; lia).
  rewrite HT, HW. unfold mode_contributions, triads_at. simpl.
  rewrite !bind_singleton. by rewrite <- !app_assoc.
Qed.

End NonLinearTendencies.

(** ** The Adams-Bashforth update *)

Lemma same_scalars_refl s : same_scalars s s.
Proof. by split. Qed.

Lemma same_scalars_trans s1 s2 s3 :
  same_scalars s1 s2 → same_scalars s2 s3 → same_scalars s1 s3.
Proof. intros [] []. split; congruence. Qed.

Lemma same_scalars_set_mem x l s : same_scalars s (set_mem x l s).
Proof. by split. Qed.

Lemma upd_frame_refl W s : upd_frame W s s.
Proof. split; [apply same_scalars_refl | done | done | done]. Qed.

Lemma upd_frame_mono (W W' : Z → Prop) s s' :
  (∀ j, W j → W' j) → upd_frame W s s' → upd_frame W' s s'.
Proof.
  intros HW [Hs Ho Hl Hout]. split; [done | done | done |].
  intros x j Hj. apply Hout. auto.
Qed.

Lemma upd_frame_trans (W : Z → Prop) s1 s2 s3 :
  upd_frame W s1 s2 → upd_frame W s2 s3 → upd_frame W s1 s3.
Proof.
  intros [Hs1 Ho1 Hl1 Hout1] [Hs2 Ho2 Hl2 Hout2]. split.
  - by eapply same_scalars_trans.
  - intros x H1 H2. by rewrite Ho2, Ho1.
  - intros x. by rewrite Hl2.
  - intros x j Hj. by rewrite Hout2, Hout1.
Qed.

Lemma set_mem_upd_frame (W : Z → Prop) x l s0 s :
  x = Tmp ∨ x = Omg →
  upd_frame W s0 s →
  len l = len (mem s x) →
  (∀ j, ¬ W j → getZ l j = getZ (mem s x) j) →
  upd_frame W s0 (set_mem x l s).
Proof.
  intros Hx [Hs Ho Hl Hout] Hlen Hl'. split.
  - eapply same_scalars_trans; [exact Hs | apply same_scalars_set_mem].
  - intros y H1 H2. rewrite mem_set_mem_ne; [by apply Ho|].
    destruct Hx as [-> | ->]; done.
  - intros y. destruct (decide (y = x)) as [->|].
    + rewrite mem_set_mem_eq. by rewrite Hlen.
    + by rewrite mem_set_mem_ne.
  - intros y j Hj. destruct (decide (y = x)) as [->|].
    + rewrite mem_set_mem_eq. rewrite Hl' by done. by apply Hout.
    + rewrite mem_set_mem_ne by done. by apply Hout.
Qed.

Lemma uf_out_at (W : Z → Prop) s s' x j :
  upd_frame W s s' → ¬ W j → at_ (mem s' x) j = at_ (mem s x) j.
Proof. intros Hf Hj. unfold at_. by rewrite (uf_out _ _ _ Hf). Qed.

Section Update.

Context (E : External) (c : Constants).

Lemma update_cell_spec frac n k s s' :
  update_cell E c frac n k s = Ok s' →
  upd_frame (λ j, j = n * nZ c + k) s s'
  ∧ getZ (mem s' Tmp) (n * nZ c + k)
    = Some (at_ (mem s Tmp) (n * nZ c + k)
            + ab_increment c frac (mem s DTmpdt) (current s) n k)%float
  ∧ getZ (mem s' Omg) (n * nZ c + k)
    = Some (at_ (mem s Omg) (n * nZ c + k)
            + ab_increment c frac (mem s DOmgdt) (current s) n k)%float.
Proof.
  unfold update_cell, ab_increment, cell. intros H. track_stores.
  set (i := n * nZ c + k) in *.
  split; [|split].
  - repeat (apply set_mem_upd_frame;
            [ tauto | | simpl_sim; by rewrite ?len_insert
            | intros ? ?; simpl_sim;
              rewrite ?getZ_insert by (by rewrite ?len_insert);
              by rewrite ?decide_False by done ]).
    apply upd_frame_refl.
  - simpl_sim. rewrite getZ_insert by done. by rewrite decide_True.
  - simpl_sim. rewrite getZ_insert by done. by rewrite decide_True.
Qed.

Lemma update_check_bcs_Ok n s s' :
  update_check_bcs E c n s = Ok s' → s' = s.
Proof. unfold update_check_bcs. intros H. inv_bind H. by injection H. Qed.

Lemma field_index_inj n k n' k' :
  0 ≤ k < nZ c → 0 ≤ k' < nZ c →
  n * nZ c + k = n' * nZ c + k' → n = n' ∧ k = k'.
Proof.
  intros Hk Hk' H. apply (cell_inj c 0). 1,2: done. unfold cell. lia.
Qed.

Lemma update_row_spec frac n s s' :
  for_loop 0 (nZ c) (update_cell E c frac n) s = Ok s' →
  upd_frame (λ j, ∃ k, 0 ≤ k < nZ c ∧ j = n * nZ c + k) s s'
  ∧ ∀ k, 0 ≤ k < nZ c →
      getZ (mem s' Tmp) (n * nZ c + k)
        = Some (at_ (mem s Tmp) (n * nZ c + k)
                + ab_increment c frac (mem s DTmpdt) (current s) n k)%float
      ∧ getZ (mem s' Omg) (n * nZ c + k)
        = Some (at_ (mem s Omg) (n * nZ c + k)
                + ab_increment c frac (mem s DOmgdt) (current s) n k)%float.
Proof.
  intros H. destruct (Z.le_gt_cases (nZ c) 0) as [Hz|Hz].
  { rewrite for_loop_nil in H by done. injection H as <-.
    split; [apply upd_frame_refl | intros; lia]. }
  pose (I := λ (k : Z) (x : Sim),
    upd_frame (λ j, ∃ k', 0 ≤ k' < k ∧ j = n * nZ c + k') s x
    ∧ ∀ k', 0 ≤ k' < k →
        getZ (mem x Tmp) (n * nZ c + k')
          = Some (at_ (mem s Tmp) (n * nZ c + k')
                  + ab_increment c frac (mem s DTmpdt) (current s) n k')%float
        ∧ getZ (mem x Omg) (n * nZ c + k')
          = Some (at_ (mem s Omg) (n * nZ c + k')
                  + ab_increment c frac (mem s DOmgdt) (current s) n k')%float).
  assert (I (nZ c) s') as [Hf Hv].
  { eapply (for_loop_inv I); [| | | exact H]; [lia | |].
    - split; [apply upd_frame_refl | intros; lia].
    - intros k x y Hk [Hfx Hvx] Hy.
      apply update_cell_spec in Hy as (Hfy & HT & HW).
      rewrite (ss_current _ _ (uf_scalars _ _ _ Hfx)) in HT, HW.
      rewrite (uf_other _ _ _ Hfx DTmpdt) in HT by done.
      rewrite (uf_other _ _ _ Hfx DOmgdt) in HW by done.
      rewrite (uf_out_at _ _ _ Tmp _ Hfx) in HT
        by (intros (k' & ? & Heq); apply field_index_inj in Heq; lia).
      rewrite (uf_out_at _ _ _ Omg _ Hfx) in HW
        by (intros (k' & ? & Heq); apply field_index_inj in Heq; lia).
      split.
      + eapply upd_frame_trans.
        * eapply upd_frame_mono; [|exact Hfx].
          intros j (k' & ? & ->). exists k'. split; [lia|done].
        * eapply upd_frame_mono; [|exact Hfy].
          intros j ->. exists k. split; [lia|done].
      + intros k' Hk'. destruct (decide (k' = k)) as [->|Hne]; [done|].
        rewrite !(uf_out _ _ _ Hfy);
          [apply Hvx; lia | |]; intros Heq; apply field_index_inj in Heq; lia. }
  split; [|done].
  eapply upd_frame_mono; [|exact Hf]. intros j (k & ? & ->). by exists k.
Qed.

Lemma updateTmpAndOmg_spec frac s s' :
  updateTmpAndOmg E c frac s = Ok s' →
  upd_frame (field_cells c) s s'
  ∧ ∀ n k, 0 ≤ n < nN c → 0 ≤ k < nZ c →
      getZ (mem s' Tmp) (n * nZ c + k)
        = Some (at_ (mem s Tmp) (n * nZ c + k)
                + ab_increment c frac (mem s DTmpdt) (current s) n k)%float
      ∧ getZ (mem s' Omg) (n * nZ c + k)
        = Some (at_ (mem s Omg) (n * nZ c + k)
                + ab_increment c frac (mem s DOmgdt) (current s) n k)%float.
Proof.
  unfold updateTmpAndOmg. intros H.
  destruct (Z.le_gt_cases (nN c) 0) as [Hz|Hz].
  { rewrite for_loop_nil in H by done. injection H as <-.
    split; [apply upd_frame_refl | intros; lia]. }
  pose (I := λ (n : Z) (x : Sim),
    upd_frame (λ j, ∃ n' k, 0 ≤ n' < n ∧ 0 ≤ k < nZ c ∧ j = n' * nZ c + k) s x
    ∧ ∀ n' k, 0 ≤ n' < n → 0 ≤ k < nZ c →
        getZ (mem x Tmp) (n' * nZ c + k)
          = Some (at_ (mem s Tmp) (n' * nZ c + k)
                  + ab_increment c frac (mem s DTmpdt) (current s) n' k)%float
        ∧ getZ (mem x Omg) (n' * nZ c + k)
          = Some (at_ (mem s Omg) (n' * nZ c + k)
                  + ab_increment c frac (mem s DOmgdt) (current s) n' k)%float).
  assert (I (nN c) s') as [Hf Hv].
  { eapply (for_loop_inv I); [| | | exact H]; [lia | |].
    - split; [apply upd_frame_refl | intros; lia].
    - intros n x y Hn [Hfx Hvx] Hy. inv_bind Hy.
      apply update_check_bcs_Ok in Hy as ->.
      apply update_row_spec in Hx as [Hfy Hvy].
      split.
      + eapply upd_frame_trans.
        * eapply upd_frame_mono; [|exact Hfx].
          intros j (n' & k & ? & ? & ->). exists n', k. split; [lia|done].
        * eapply upd_frame_mono; [|exact Hfy].
          intros j (k & ? & ->). exists n, k. split; [lia|done].
      + intros n' k Hn' Hk. destruct (decide (n' = n)) as [->|Hne].
        * destruct (Hvy k Hk) as [HT HW]. rewrite HT, HW.
          rewrite (ss_current _ _ (uf_scalars _ _ _ Hfx)).
          rewrite (uf_other _ _ _ Hfx DTmpdt) by done.
          rewrite (uf_other _ _ _ Hfx DOmgdt) by done.
          rewrite (uf_out_at _ _ _ Tmp _ Hfx), (uf_out_at _ _ _ Omg _ Hfx);
            [done | |];
            intros (n' & k' & ? & ? & Heq);
            apply field_index_inj in Heq; lia.
        * rewrite !(uf_out _ _ _ Hfy);
            [apply Hvx; lia | |];
            intros (k' & ? & Heq); apply field_index_inj in Heq; lia. }
  split; [|done].
  eapply upd_frame_mono; [|exact Hf]. intros j (n & k & ? & ? & ->). by exists n, k.
Qed.

End Update.

(** ** Doubles: zeros and finite values *)

Lemma mul_finite_zero x z :
  is_finite x = true → is_zero z = true → is_zero (x * z) = true.
Proof.
  unfold is_finite, is_zero. rewrite mul_spec.
  by destruct (Prim2SF x), (Prim2SF z).
Qed.

Lemma sub_zero_zero x y :
  is_zero x = true → is_zero y = true → is_zero (x - y) = true.
Proof.
  unfold is_zero. rewrite sub_spec.
  destruct (Prim2SF x) as [[]| | |], (Prim2SF y) as [[]| | |]; done.
Qed.

Lemma add_zero_same_value x z :
  is_zero z = true → same_value (x + z) x.
Proof.
  unfold same_value, is_zero. intros Hz.
  destruct (Prim2SF z) as [sz| | |] eqn:Ez; try done.
  destruct (Prim2SF x) as [sx| | |] eqn:Ex.
  - right. rewrite add_spec, Ex, Ez. by destruct sx, sz.
  - left. apply Prim2SF_inj. rewrite add_spec, Ex, Ez. done.
  - left. apply Prim2SF_inj. rewrite add_spec, Ex, Ez. done.
  - left. apply Prim2SF_inj. rewrite add_spec, Ex, Ez. done.
Qed.

Lemma adamsBashforth_zero dNew dOld frac h :
  is_zero dNew = true → is_zero dOld = true →
  is_finite h = true →
  is_finite (1 + frac / 2) = true → is_finite (frac / 2) = true →
  is_zero (adamsBashforth dNew dOld frac h) = true.
Proof.
  intros Hn Ho Hh H1 H2. unfold adamsBashforth.
  apply mul_finite_zero; [done|].
  apply sub_zero_zero; by apply mul_finite_zero.
Qed.

Lemma same_value_refl x : same_value x x.
Proof. by left. Qed.


Lemma same_value_is_zero x y :
  same_value x y → is_zero x = is_zero y.
Proof. intros [->|[-> ->]]; done. Qed.

(** ** Boundary rows of the tendency buffers *)

Section FrameEffect.

Context (E : External) (c : Constants).

Lemma boundary_not_interior slot n b slot' :
  boundary_row c b → ¬ interior_cells c slot' (cell c slot n b).
Proof.
  intros Hb (n' & k & Hn & Hk & Heq). unfold cell in Heq.
  assert ((slot * nN c + n) * nZ c + b = (slot' * nN c + n') * nZ c + k)
    as Heq' by lia.
  apply field_index_inj in Heq'; unfold boundary_row in Hb; lia.
Qed.

Lemma linear_cells_interior slot ls j :
  0 ≤ ls → linear_cells c slot ls j → interior_cells c slot j.
Proof.
  intros Hls (n & Hn & k & Hk & ->). exists n, k. split; [lia|]. split; [lia|done].
Qed.

Lemma nonlinear_cells_interior slot j :
  nonlinear_cells c slot j → interior_cells c slot j.
Proof.
  intros (n & Hn & k & Hk & ->). exists n, k. split; [lia|]. split; [lia|done].
Qed.

Lemma rem_succ_2_range x : 0 ≤ x ≤ 1 → 0 ≤ Z.rem (x + 1) 2 ≤ 1.
Proof. intros Hx. assert (x = 0 ∨ x = 1) as [-> | ->] by lia; done. Qed.

(** The two kernels of a step write interior rows of the current slot
    only. *)
Lemma kernels_frame (linearSim : Z) (s s1 s2 : Sim) :
  0 ≤ linearSim →
  computeLinearDerivatives E c linearSim s = Ok s1 →
  s2 = s1 ∨ computeNonLinearDerivatives E c s1 = Ok s2 →
  tend_frame (interior_cells c (current s)) s s2.
Proof.
  intros Hls H1 H2.
  apply computeLinearDerivatives_spec in H1 as [Hf1 _].
  destruct H2 as [-> | H2].
  - eapply tend_frame_mono; [|exact Hf1].
    intros j. by apply linear_cells_interior.
  - apply computeNonLinearDerivatives_spec in H2 as [Hf2 _].
    rewrite (sf_current _ _ (tf_fields _ _ _ Hf1)) in Hf2.
    eapply tend_frame_trans.
    + eapply tend_frame_mono; [|exact Hf1].
      intros j. by apply linear_cells_interior.
    + eapply tend_frame_mono; [|exact Hf2].
      intros j. by apply nonlinear_cells_interior.
Qed.

(** A frame of interior cells keeps the boundary rows of every slot. *)
Lemma interior_frame_boundary slot0 s s2 x slot n b :
  tend_frame (interior_cells c slot0) s s2 → boundary_row c b →
  getZ (mem s2 x) (cell c slot n b) = getZ (mem s x) (cell c slot n b).
Proof.
  intros Hf Hb. apply (tf_out _ _ _ Hf). by apply boundary_not_interior.
Qed.

Lemma interior_frame_zero slot0 s s2 :
  tend_frame (interior_cells c slot0) s s2 →
  tendency_boundaries_zero c s → tendency_boundaries_zero c s2.
Proof.
  intros Hf Hzero slot n b Hslot Hn Hbr. unfold at_.
  rewrite !(interior_frame_boundary slot0 s s2) by done. by apply Hzero.
Qed.

(** With zero tendencies in the boundary rows the update adds a zero
    there. *)
Lemma update_keeps_boundary (frac : float) (s2 s3 : Sim) n b :
  0 ≤ current s2 ≤ 1 →
  updateTmpAndOmg E c frac s2 = Ok s3 →
  tendency_boundaries_zero c s2 →
  is_finite (dt c) = true →
  is_finite (1 + frac / 2) = true →
  is_finite (frac / 2) = true →
  0 ≤ n < nN c → boundary_row c b →
  same_value (at_ (mem s3 Tmp) (n * nZ c + b))
             (at_ (mem s2 Tmp) (n * nZ c + b))
  ∧ same_value (at_ (mem s3 Omg) (n * nZ c + b))
               (at_ (mem s2 Omg) (n * nZ c + b)).
Proof.
  intros Hcur H3 Hzero2 Hdt Hc1 Hc2 Hn Hbr.
  assert (1 ≤ nZ c ∨ nZ c ≤ 0) as [Hz|Hz] by lia.
  2:{ apply updateTmpAndOmg_spec in H3 as [Hf3 _].
      rewrite !(uf_out_at _ _ _ _ _ Hf3); [split; apply same_value_refl | |];
        intros (n' & k' & ? & ? & ?); lia. }
  assert (0 ≤ b < nZ c) as Hbz by (unfold boundary_row in Hbr; lia).
  apply updateTmpAndOmg_spec in H3 as [_ Hv].
  destruct (Hv n b Hn Hbz) as [HT HW].
  apply getZ_at in HT, HW. rewrite HT, HW. unfold ab_increment.
  split; apply add_zero_same_value, adamsBashforth_zero; try done;
    apply Hzero2; try done; by apply rem_succ_2_range.
Qed.

(** C10: in one integrator step (the linear pass, in the nonlinear run mode
    followed by the nonlinear pass, then the Adams-Bashforth update) the two
    tendency kernels change nothing but interior rows [1 <= k <= nZ - 2] of
    the current slot of the tendency buffers; the rows 0 and nZ - 1 of every
    slot of every tendency buffer keep their values.  Hence, when both slots
    of [dTmpdt] and [dOmgdt] are zero in the rows 0 and nZ - 1 on entry (as
    they are after construction), they still are after the kernels, and the
    update leaves [tmp] and [omg] in the rows 0 and nZ - 1 of every mode as
    they were (as doubles, up to the sign of a zero), for every finite [dt]
    and finite Adams-Bashforth coefficients. *)
Theorem tendency_kernels_leave_boundary_rows
    (linearSim : Z) (frac : float) (s s1 s2 s3 : Sim) :
  0 ≤ current s ≤ 1 →
  0 ≤ linearSim →
  computeLinearDerivatives E c linearSim s = Ok s1 →
  s2 = s1 ∨ computeNonLinearDerivatives E c s1 = Ok s2 →
  updateTmpAndOmg E c frac s2 = Ok s3 →
  tend_frame (interior_cells c (current s)) s s2
  ∧ (∀ x slot n b, boundary_row c b →
       getZ (mem s2 x) (cell c slot n b) = getZ (mem s x) (cell c slot n b))
  ∧ (tendency_boundaries_zero c s →
     is_finite (dt c) = true →
     is_finite (1 + frac / 2) = true →
     is_finite (frac / 2) = true →
     tendency_boundaries_zero c s2
     ∧ ∀ n b, 0 ≤ n < nN c → boundary_row c b →
         same_value (at_ (mem s3 Tmp) (n * nZ c + b))
                    (at_ (mem s2 Tmp) (n * nZ c + b))
         ∧ same_value (at_ (mem s3 Omg) (n * nZ c + b))
                      (at_ (mem s2 Omg) (n * nZ c + b))).
Proof.
  intros Hcur Hls H1 H2 H3.
  pose proof (kernels_frame linearSim s s1 s2 Hls H1 H2) as Hf.
  split; [exact Hf|]. split.
  - intros x slot n b Hb. by eapply interior_frame_boundary.
  - intros Hzero Hdt Hc1 Hc2.
    pose proof (interior_frame_zero _ _ _ Hf Hzero) as Hzero2.
    split; [exact Hzero2|].
    intros n b Hn Hb.
    apply (update_keeps_boundary frac s2 s3); try done.
    by rewrite (sf_current _ _ (tf_fields _ _ _ Hf)).
Qed.

End FrameEffect.

(** ** Block copies *)

Lemma blit_Ok l off src l' :
  blit l off src = Ok l' →
  0 ≤ off ∧ off + len src ≤ len l ∧ len l' = len l
  ∧ ∀ j, getZ l' j = if decide (off ≤ j < off + len src)
                     then getZ src (j - off) else getZ l j.
Proof.
  unfold blit.
  destruct (Z.leb_spec 0 off), (Z.leb_spec (off + len src) (len l));
    simpl; try done.
  intros [= <-]. split; [done|]. split; [done|]. unfold len in *. split.
  - rewrite !length_app, length_take, length_drop. lia.
  - intros j. unfold getZ. case_decide as Hj.
    + destruct (Z.leb_spec 0 j), (Z.leb_spec 0 (j - off)); try lia.
      rewrite lookup_app_r by (rewrite length_take; lia).
      rewrite length_take.
      rewrite lookup_app_l by lia. f_equal. lia.
    + destruct (Z.leb_spec 0 j); [|done].
      destruct (decide (j < off)).
      * rewrite lookup_app_l by (rewrite length_take; lia).
        rewrite lookup_take_lt by lia. done.
      * rewrite lookup_app_r by (rewrite length_take; lia).
        rewrite length_take.
        rewrite lookup_app_r by lia.
        rewrite lookup_drop. f_equal. lia.
Qed.

Lemma blit_in_range l off src :
  0 ≤ off → off + len src ≤ len l → ∃ l', blit l off src = Ok l'.
Proof.
  unfold blit. intros H1 H2.
  destruct (Z.leb_spec 0 off), (Z.leb_spec (off + len src) (len l));
    simpl; try lia. eauto.
Qed.

Lemma slice_Ok l off n l' :
  slice l off n = Ok l' →
  0 ≤ off ∧ 0 ≤ n ∧ off + n ≤ len l
  ∧ l' = take (Z.to_nat n) (drop (Z.to_nat off) l).
Proof.
  unfold slice.
  destruct (Z.leb_spec 0 off), (Z.leb_spec 0 n), (Z.leb_spec (off + n) (len l));
    simpl; try done.
  by intros [= <-].
Qed.

Lemma slice_in_range l off n :
  0 ≤ off → 0 ≤ n → off + n ≤ len l →
  slice l off n = Ok (take (Z.to_nat n) (drop (Z.to_nat off) l)).
Proof.
  unfold slice. intros.
  destruct (Z.leb_spec 0 off), (Z.leb_spec 0 n), (Z.leb_spec (off + n) (len l));
    simpl; try lia. done.
Qed.

(** ** The Poisson solve *)

Lemma psi_frame_refl W s : psi_frame W s s.
Proof. split; [apply same_scalars_refl | done | done | done]. Qed.

Lemma psi_frame_mono (W W' : Z → Prop) s s' :
  (∀ j, W j → W' j) → psi_frame W s s' → psi_frame W' s s'.
Proof.
  intros HW [Hs Ho Hl Hout]. split; [done | done | done |].
  intros j Hj. apply Hout. auto.
Qed.

Lemma psi_frame_trans (W : Z → Prop) s1 s2 s3 :
  psi_frame W s1 s2 → psi_frame W s2 s3 → psi_frame W s1 s3.
Proof.
  intros [Hs1 Ho1 Hl1 Hout1] [Hs2 Ho2 Hl2 Hout2]. split.
  - by eapply same_scalars_trans.
  - intros x Hx. by rewrite Ho2, Ho1.
  - by rewrite Hl2.
  - intros j Hj. by rewrite Hout2, Hout1.
Qed.

Section Poisson.

Context (E : External) (c : Constants).

Lemma assert_rd_Ok l i (p : float → bool) u :
  assert E (v ← rd l i; Ok (p v)) = Ok u →
  NDEBUG E = false → p (at_ l i) = true.
Proof.
  intros H Hd. apply assert_Ok in H as [H|H]; [congruence|].
  inv_bind H. apply rd_at in Hx as ->. by injection H.
Qed.

Lemma solve_mode_spec n s s' :
  solve_mode E c n s = Ok s' →
  psi_frame (λ j, nZ c * n ≤ j < nZ c * n + nZ c) s s'
  ∧ (NDEBUG E = false → psi_dirichlet c n s').
Proof.
  unfold solve_mode. intros H. inv_bind H. injection H as <-.
  apply slice_Ok in Hx as (Hn & Hz & Hrange & _).
  apply blit_Ok in Hx0 as (_ & _ & Hlen & Hget).
  assert (len (resize (Z.to_nat (nZ c)) 0%float
                 (thomas_solve E (nZ c) (nN c) (a c) (oodz2 E c) n x))
          = nZ c) as Hres
    by (unfold len; rewrite length_resize; lia).
  rewrite Hres in Hget.
  split.
  - split.
    + apply same_scalars_set_mem.
    + intros y Hy. by rewrite mem_set_mem_ne.
    + by rewrite mem_set_mem_eq.
    + intros j Hj. rewrite mem_set_mem_eq, Hget. by rewrite decide_False.
  - intros Hd. split.
    + by apply (assert_rd_Ok _ _ (λ v, (v =? 0.0)%float)) in Hx1.
    + by apply (assert_rd_Ok _ _ (λ v, (v =? 0.0)%float)) in Hx2.
Qed.

Lemma psi_rows_disjoint n n' j :
  nZ c * n ≤ j < nZ c * n + nZ c →
  nZ c * n' ≤ j < nZ c * n' + nZ c → n = n'.
Proof.
  intros H1 H2.
  destruct (Z.lt_trichotomy n n') as [Hlt|[?|Hlt]]; [|done|].
  - assert (nZ c * n + nZ c ≤ nZ c * n') by nia. lia.
  - assert (nZ c * n' + nZ c ≤ nZ c * n) by nia. lia.
Qed.

Lemma solveForPsi_spec s s' :
  solveForPsi E c s = Ok s' →
  psi_frame (psi_cells c) s s'
  ∧ (NDEBUG E = false → ∀ n, 0 ≤ n < nN c → psi_dirichlet c n s').
Proof.
  unfold solveForPsi. intros H. inv_bind H.
  assert (s' = x) as ->.
  { destruct (Z.le_gt_cases (nZ c) 0) as [Hz|Hz].
    { rewrite for_loop_nil in H by done. by injection H. }
    eapply (for_loop_inv (λ _ y, y = x)); [| | | exact H]; [lia | done |].
    intros k y z _ -> Hz'. inv_bind Hz'. by injection Hz'. }
  clear H.
  destruct (Z.le_gt_cases (nN c) 0) as [Hz|Hz].
  { rewrite for_loop_nil in Hx by done. injection Hx as <-.
    split; [apply psi_frame_refl | intros; lia]. }
  pose (I := λ (n : Z) (y : Sim),
    psi_frame (λ j, ∃ n', 0 ≤ n' < n ∧ nZ c * n' ≤ j < nZ c * n' + nZ c) s y
    ∧ (NDEBUG E = false → ∀ n', 0 ≤ n' < n → psi_dirichlet c n' y)).
  assert (I (nN c) x) as [Hf Hv].
  { eapply (for_loop_inv I); [| | | exact Hx]; [lia | |].
    - split; [apply psi_frame_refl | intros; lia].
    - intros n y z Hn [Hfy Hvy] Hz'.
      apply solve_mode_spec in Hz' as [Hfz Hvz].
      split.
      + eapply psi_frame_trans.
        * eapply psi_frame_mono; [|exact Hfy].
          intros j (n' & ? & ?). exists n'. split; [lia|done].
        * eapply psi_frame_mono; [|exact Hfz].
          intros j ?. exists n. split; [lia|done].
      + intros Hd n' Hn'. destruct (decide (n' = n)) as [->|Hne]; [by apply Hvz|].
        destruct (Hvy Hd n') as [H0 H1]; [lia|].
        unfold psi_dirichlet, at_ in *.
        assert (0 < nZ c ∨ nZ c ≤ 0) as [Hpos|Hneg] by lia.
        * rewrite !(pf_out _ _ _ Hfz); [done | |];
            intros ?; assert (n = n'); [eapply psi_rows_disjoint; [done|lia]|lia|
                                        eapply psi_rows_disjoint; [done|lia]|lia].
        * rewrite !(pf_out _ _ _ Hfz); [done | |]; lia. }
  split; [|done].
  eapply psi_frame_mono; [|exact Hf]. intros j (n & ? & ?). by exists n.
Qed.

End Poisson.

(** ** Boundary conditions across an integrator step *)

Section Dirichlet.

Context (E : External) (c : Constants).



Lemma updateXi_frame frac s s' :
  updateXi c frac s = Ok s' →
  same_scalars s s' ∧ ∀ x, x ≠ Xi → mem s' x = mem s x.
Proof.
  unfold updateXi. intros H.
  pose (I := λ (_ : Z) (y : Sim),
    same_scalars s y ∧ ∀ x, x ≠ Xi → mem y x = mem s x).
  assert (∀ lo hi body y y',
    (∀ i z z', I i z → body i z = Ok z' → I (i + 1) z') →
    I lo y → for_loop lo hi body y = Ok y' → I hi y') as Hloop.
  { intros lo hi body y y' Hbody Hy Hl.
    destruct (Z.le_gt_cases hi lo).
    - rewrite for_loop_nil in Hl by done. by injection Hl as <-.
    - eapply (for_loop_inv I); [| | | exact Hl]; [lia | done |].
      intros i z z' _. apply Hbody. }
  eapply (Hloop 0 (nN c)); [| |exact H].
  - intros n y y' Hy Hn. eapply (Hloop 0 (nZ c)); [| |exact Hn]; [|done].
    intros k z z' [Hs Hm] Hz. track_stores. split.
    + eapply same_scalars_trans; [exact Hs | apply same_scalars_set_mem].
    + intros x Hx. rewrite mem_set_mem_ne by done. by apply Hm.
  - split; [apply same_scalars_refl | done].
Qed.



End Dirichlet.

(** ** The end rows of the solver of the spec *)












Section SolverEnds.

Context (E : External) (c : Constants).




End SolverEnds.

(** ** The nonlinear driver *)

Section NonLinearDriver.

Context (E : External) (c : Constants).

Lemma same_simulation_refl s : same_simulation s s.
Proof. done. Qed.

Lemma same_simulation_trans s1 s2 s3 :
  same_simulation s1 s2 → same_simulation s2 s3 → same_simulation s1 s3.
Proof. unfold same_simulation. intros (?&?&?&?&?) (?&?&?&?&?). split_and!; congruence. Qed.

Lemma append_double_same name v s : same_simulation s (append_double name v s).
Proof. unfold append_double. by case_decide. Qed.

Lemma saveKineticEnergy_same s s' :
  saveKineticEnergy E c s = Ok s' → same_simulation s s'.
Proof.
  unfold saveKineticEnergy. intros H. inv_bind H.
  assert (∀ y y', for_loop 1 (nN c) (λ n s,
            ke ← calcKineticEnergyForMode E c n s;
            Ok (append_double (saveFolder c +:+ "KineticEnergyMode"
                               +:+ strFromNumber E n +:+ ".dat") ke s)) y
            = Ok y' → same_simulation y y') as Hloop.
  { intros y y' Hl. destruct (Z.le_gt_cases (nN c) 1).
    { rewrite for_loop_nil in Hl by done. by injection Hl as <-. }
    eapply (for_loop_inv (λ _ z, same_simulation y z)); [| | | exact Hl];
      [lia | done |].
    intros n z z' _ Hz Hz'. inv_bind Hz'. injection Hz' as <-.
    eapply same_simulation_trans; [exact Hz | apply append_double_same]. }
  apply Hloop in H.
  eapply same_simulation_trans; [|exact H].
  eapply same_simulation_trans; [|apply append_double_same]. done.
Qed.

Lemma save_same s s' : save E c s = Ok s' → same_simulation s s'.
Proof.
  unfold save. intros H. case_decide; [done|]. inv_bind H. by injection H as <-.
Qed.

Lemma nl_housekeeping_spec st s0 l0 :
  nl_housekeeping E c st = Ok (s0, l0) →
  same_simulation st.1 s0 ∧ f l0 = update_factor E c st.
Proof.
  unfold nl_housekeeping, update_factor. destruct st as [s l]. simpl.
  intros H. inv_bind H. destruct x as [s1 l1]. inv_bind H.
  destruct x as [s2 l2]. rename Hx0 into Hcfl.
  assert (same_simulation s s1 ∧ CFLCheckTime l1 = CFLCheckTime l
          ∧ f l1 = f l) as (H1 & HC & Hf1).
  { destruct (KEsaveTime l - t s <? EPSILON E)%float.
    - inv_bind Hx. injection Hx as <- <-.
      split; [by apply saveKineticEnergy_same | done].
    - by injection Hx as <- <-. }
  destruct H1 as (Hm1 & Hc1 & Ht1 & Hg1 & Hx1).
  rewrite Ht1, HC, Hm1 in Hcfl.
  assert (s2 = s1 ∧ f l2 = update_factor E c (s, l)
          ∧ saveTime l2 = saveTime l1) as (-> & Hf2 & Hsave).
  { unfold update_factor. simpl.
    destruct (CFLCheckTime l - t s <? EPSILON E)%float.
    - by injection Hcfl as <- <-.
    - by injection Hcfl as <- <-. }
  unfold update_factor in Hf2. simpl in Hf2. rewrite <- Hf2.
  destruct (saveTime l2 - t s1 <? EPSILON E)%float.
  - inv_bind H. injection H as <- <-. split; [|done].
    eapply same_simulation_trans; [|by apply save_same]. done.
  - by injection H as <- <-.
Qed.

(** The body of the loop of [runNonLinear], stage by stage: the factor of
    the update is the result of the CFL check when the check is due in this
    iteration and the factor left by the previous iteration otherwise. *)
Lemma runNonLinear_body_stages (st st' : Sim * NLLocals) :
  runNonLinear_body E c st = Ok st' →
  ∃ s0 l0 s1 s2 s3 s4,
    nl_housekeeping E c st = Ok (s0, l0)
    ∧ computeLinearDerivatives E c 0 s0 = Ok s1
    ∧ computeNonLinearDerivatives E c s1 = Ok s2
    ∧ updateTmpAndOmg E c (update_factor E c st) s2 = Ok s3
    ∧ solveForPsi E c s3 = Ok s4
    ∧ st'.1 = set_current (Z.rem (current s4 + 1) 2)
                (set_t (t s4 + dt c)%float s4)
    ∧ t st'.1 = (t st.1 + dt c)%float
    ∧ current st'.1 = Z.rem (current st.1 + 1) 2
    ∧ f st'.2 = 1.0%float
    ∧ saveTime st'.2 = saveTime l0
    ∧ KEsaveTime st'.2 = KEsaveTime l0
    ∧ CFLCheckTime st'.2 = CFLCheckTime l0.
Proof.
  unfold runNonLinear_body. intros H. inv_bind H.
  destruct x as [s0 l0]. inv_bind H. injection H as <-.
  pose proof (nl_housekeeping_spec _ _ _ Hx) as [(Hm & Hc & Ht & _) Hf].
  rewrite Hf in Hx2.
  exists s0, l0, x, x0, x1, x2. split_and!; try done.
  - apply computeLinearDerivatives_spec in Hx0 as [[Hf1 _ _] _].
    apply computeNonLinearDerivatives_spec in Hx1 as [[Hf2 _ _] _].
    apply updateTmpAndOmg_spec in Hx2 as [[Hf3 _ _ _] _].
    apply solveForPsi_spec in Hx3 as [[Hf4 _ _ _] _].
    simpl. rewrite (ss_t _ _ Hf4), (ss_t _ _ Hf3), (sf_t _ _ Hf2),
      (sf_t _ _ Hf1). by rewrite Ht.
  - apply computeLinearDerivatives_spec in Hx0 as [[Hf1 _ _] _].
    apply computeNonLinearDerivatives_spec in Hx1 as [[Hf2 _ _] _].
    apply updateTmpAndOmg_spec in Hx2 as [[Hf3 _ _ _] _].
    apply solveForPsi_spec in Hx3 as [[Hf4 _ _ _] _].
    simpl. rewrite (ss_current _ _ Hf4), (ss_current _ _ Hf3),
      (sf_current _ _ Hf2), (sf_current _ _ Hf1). by rewrite Hc.
Qed.

End NonLinearDriver.

(** ** The runs of the nonlinear driver *)

Section NonLinearIterations.

Context (E : External) (c : Constants).

Lemma runNonLinear_body_iteration st st' :
  (EPSILON E <? totalTime c - t st.1)%float = true →
  runNonLinear_body E c st = Ok st' ↔ nl_iteration E c st st'.
Proof.
  intros Hcond. split.
  - intros H. split; [done|].
    pose proof (runNonLinear_body_stages E c st st' H)
      as (s0 & l0 & s1 & s2 & s3 & s4 & H0 & H1 & H2 & H3 & H4 & Hs & _ & _
          & Hf & Hsv & Hke & Hcfl).
    exists s0, l0, s1, s2, s3, s4. split_and!; try done.
    destruct st' as [s' l']. simpl in *. f_equal; [done|].
    destruct l'. simpl in *. by subst.
  - intros (_ & s0 & l0 & s1 & s2 & s3 & s4 & H0 & H1 & H2 & H3 & H4 & ->).
    unfold runNonLinear_body. rewrite H0. cbn [mbind result_bind].
    rewrite H1. cbn [mbind result_bind]. rewrite H2. cbn [mbind result_bind].
    pose proof (nl_housekeeping_spec E c _ _ _ H0) as [_ Hf]. rewrite Hf.
    rewrite H3. cbn [mbind result_bind]. rewrite H4. done.
Qed.

Lemma runNonLinear_loop_iterations fuel st r :
  runNonLinear_loop E c fuel st = Ok (Some r) ↔
  ∃ heads final,
    iterations (nl_iteration E c) st heads final
    ∧ (length heads ≤ fuel)%nat
    ∧ (EPSILON E <? totalTime c - t final.1)%float = false
    ∧ save E c final.1 = Ok r.
Proof.
  revert st. induction fuel as [|fuel IH]; intros st.
  - simpl. destruct (EPSILON E <? totalTime c - t st.1)%float eqn:Hcond.
    + split; [done|]. intros (heads & final & Hit & Hlen & Hend & _).
      destruct heads; [|simpl in Hlen; lia]. simpl in Hit. subst.
      congruence.
    + split.
      * intros H. inv_bind H. injection H as <-.
        exists [], st. by split_and!.
      * intros (heads & final & Hit & Hlen & Hend & Hsave).
        destruct heads; [|simpl in Hlen; lia]. simpl in Hit. subst.
        by rewrite Hsave.
  - simpl. destruct (EPSILON E <? totalTime c - t st.1)%float eqn:Hcond.
    + split.
      * intros H. inv_bind H. rename x into st'.
        apply IH in H as (heads & final & Hit & Hlen & Hend & Hsave).
        exists (st' :: heads), final. split_and!; try done.
        -- split; [|done]. by apply runNonLinear_body_iteration.
        -- simpl. lia.
      * intros (heads & final & Hit & Hlen & Hend & Hsave).
        destruct heads as [|st' heads]; simpl in Hit.
        { subst. congruence. }
        destruct Hit as [Hstep Hit].
        apply runNonLinear_body_iteration in Hstep; [|done].
        rewrite Hstep. cbn [mbind result_bind]. apply IH.
        exists heads, final. split_and!; try done. simpl in Hlen. lia.
    + split.
      * intros H. inv_bind H. injection H as <-.
        exists [], st. split_and!; try done. simpl. lia.
      * intros (heads & final & Hit & Hlen & Hend & Hsave).
        destruct heads as [|st' heads]; simpl in Hit.
        -- subst. by rewrite Hsave.
        -- destruct Hit as [[Hc _] _]. congruence.
Qed.

(** C4: [runNonLinear] returns exactly when, after the load of the initial
    conditions, the loop goes through a sequence of iterations until its
    test fails and the final checkpoint is written.  Each iteration of the
    driver performs, after the due savings and CFL check, exactly the
    sequence: linear tendencies from mode 0, nonlinear tendencies,
    Adams-Bashforth update of [tmp] and [omg] with the factor of this
    iteration, Poisson solve; then [t] is advanced by [dt] and [current]
    becomes ([current] + 1) % 2.  Every iteration leaves f = 1.0 and the
    loop is entered with f = 1.0, so the factor of an update is the result
    of [checkCFL] when the check is due in that very iteration and 1.0
    otherwise: a reduction applies to one step only. *)
Theorem runNonLinear_iterations :
  (∀ fuel s r,
     runNonLinear E c fuel s = Ok (Some r) ↔
     ∃ s0 heads final,
       load c Tmp Omg Psi (icFile c) s = Ok s0
       ∧ iterations (nl_iteration E c)
           (set_t 0%float (set_current 0 s0), nl_start) heads final
       ∧ (length heads ≤ fuel)%nat
       ∧ (EPSILON E <? totalTime c - t final.1)%float = false
       ∧ save E c final.1 = Ok r)
  ∧ (∀ st st', nl_iteration E c st st' →
       t st'.1 = (t st.1 + dt c)%float
       ∧ current st'.1 = Z.rem (current st.1 + 1) 2
       ∧ f st'.2 = 1.0%float)
  ∧ (∀ st heads final,
       iterations (nl_iteration E c) st heads final → f st.2 = 1.0%float →
       ∀ st', st' ∈ st :: heads →
         update_factor E c st'
         = if (CFLCheckTime st'.2 - t st'.1 <? EPSILON E)%float
           then checkCFL E (mem st'.1 Psi) (dz c) (dx c) (dt c) (a c)
                  (nN c) (nX c) (nZ c)
           else 1.0%float).
Proof.
  split; [|split].
  - intros fuel s r. unfold runNonLinear. split.
    + intros H. inv_bind H. rename x into s0.
      apply runNonLinear_loop_iterations in H
        as (heads & final & Hit & Hlen & Hend & Hsave).
      by exists s0, heads, final.
    + intros (s0 & heads & final & Hload & Hit & Hlen & Hend & Hsave).
      rewrite Hload. cbn [mbind result_bind].
      apply runNonLinear_loop_iterations. by exists heads, final.
  - intros st st' Hit. pose proof Hit as [Hcond _].
    apply (runNonLinear_body_iteration st st' Hcond) in Hit.
    apply runNonLinear_body_stages in Hit
      as (s0 & l0 & s1 & s2 & s3 & s4 & _ & _ & _ & _ & _ & _ & Ht & Hc & Hf
          & _).
    done.
  - intros st heads final Hit Hf st' Hin.
    assert (f st'.2 = 1.0%float) as Hf'.
    { revert st Hit Hf Hin. induction heads as [|h heads IH];
        intros st Hit Hf Hin.
      - apply list_elem_of_singleton in Hin. by subst.
      - apply elem_of_cons in Hin as [->|Hin]; [done|].
        destruct Hit as [Hstep Hit]. apply (IH h); [done | | done].
        destruct Hstep as (_ & s0 & l0 & s1 & s2 & s3 & s4 & _ & _ & _ & _ & _
                           & ->). done. }
    unfold update_factor. by rewrite Hf'.
Qed.

End NonLinearIterations.

(** ** Checkpoints *)

Lemma list_eq_getZ (l l' : list float) :
  len l = len l' → (∀ j, 0 ≤ j < len l → getZ l j = getZ l' j) → l = l'.
Proof.
  unfold len. intros Hlen Hget. apply list_eq. intros i.
  destruct (decide (i < length l)%nat) as [Hi|Hi].
  - specialize (Hget (Z.of_nat i)). unfold getZ in Hget.
    destruct (Z.leb_spec 0 (Z.of_nat i)); [|lia].
    rewrite Nat2Z.id in Hget. apply Hget. lia.
  - rewrite !lookup_ge_None_2; [done | lia | lia].
Qed.

Lemma getZ_slice l off n j :
  0 ≤ off → 0 ≤ n → off + n ≤ len l →
  getZ (take (Z.to_nat n) (drop (Z.to_nat off) l)) j
  = if decide (0 ≤ j < n) then getZ l (off + j) else None.
Proof.
  unfold getZ, len. intros Ho Hn Hl. case_decide as Hj.
  - destruct (Z.leb_spec 0 j), (Z.leb_spec 0 (off + j)); try lia.
    rewrite lookup_take_lt by lia. rewrite lookup_drop. f_equal. lia.
  - destruct (Z.leb_spec 0 j); [|done].
    apply lookup_ge_None_2. rewrite length_take. lia.
Qed.

Lemma len_slice l off n :
  0 ≤ off → 0 ≤ n → off + n ≤ len l →
  len (take (Z.to_nat n) (drop (Z.to_nat off) l)) = n.
Proof. unfold len. intros. rewrite length_take, length_drop. lia. Qed.

Lemma len_app (l k : list float) : len (l ++ k) = len l + len k.
Proof. unfold len. rewrite length_app. lia. Qed.

Section Checkpoint.

Context (E : External) (c : Constants).

Lemma whole_slice (l : list float) n :
  len l = n → take (Z.to_nat n) (drop (Z.to_nat 0) l) = l.
Proof.
  unfold len. intros <-. simpl. rewrite Nat2Z.id. by rewrite take_ge.
Qed.

Lemma slot_range s k :
  well_formed c s → 0 ≤ k ≤ 1 →
  0 ≤ k * nZ c * nN c ∧ 0 ≤ nN c * nZ c
  ∧ k * nZ c * nN c + nN c * nZ c ≤ 2 * nN c * nZ c.
Proof. intros (Hz & Hn & _ & _) Hk. nia. Qed.

Lemma len_slot_of s k x :
  well_formed c s → 0 ≤ k ≤ 1 → array_size c x = 2 * nN c * nZ c →
  len (slot_of c k (mem s x)) = nN c * nZ c.
Proof.
  intros Hwf Hk Hx. destruct (slot_range s k Hwf Hk) as (? & ? & ?).
  apply len_slice; [done | done |].
  destruct Hwf as (_ & _ & _ & Hlen). rewrite Hlen, Hx. done.
Qed.

Lemma save_spec s :
  well_formed c s →
  vars_name E c (saveNumber s) ∉ fs_denied s →
  ∃ s1, save E c s = Ok s1
        ∧ fs s1 = <[vars_name E c (saveNumber s) := checkpoint c s]> (fs s)
        ∧ len (checkpoint c s) = 7 * (nN c * nZ c).
Proof.
  intros Hwf Hden.
  pose proof Hwf as (Hz & Hn & Hcur & Hlen).
  pose proof (rem_succ_2_range _ Hcur) as Hoth.
  destruct (slot_range s _ Hwf Hcur) as (Hc1 & Hc2 & Hc3).
  destruct (slot_range s _ Hwf Hoth) as (Ho1 & _ & Ho3).
  unfold save. simpl. rewrite decide_False by done.
  rewrite !slice_in_range; try (rewrite Hlen; simpl; lia); try lia.
  simpl. eexists. split; [done|]. split.
  - simpl. unfold checkpoint, slot_of.
    by rewrite !whole_slice by (by rewrite Hlen).
  - unfold checkpoint. rewrite !len_app, !Hlen.
    rewrite !(len_slot_of s) by done. simpl. lia.
Qed.

(** Reading a block that is there. *)
Lemma file_read_block x off n b rest s :
  len b = n →
  file_read x off n (s, Some (b ++ rest))
  = l ← blit (mem s x) off b; Ok (set_mem x l s, Some rest).
Proof.
  intros Hb. unfold file_read.
  assert ((n <=? len (b ++ rest)) = true) as ->.
  { apply Z.leb_le. rewrite len_app. unfold len in *. lia. }
  unfold len in Hb.
  rewrite take_app_length' by lia.
  rewrite drop_app_length' by lia. done.
Qed.

(** Restoring a field from its image. *)
Lemma restore_field (l l2 l' : list float) n :
  len l = n → len l2 = n → blit l2 0 l = Ok l' → l' = l.
Proof.
  intros Hl Hl2 H. apply blit_Ok in H as (_ & _ & Hlen & Hget).
  symmetry. apply list_eq_getZ; [congruence|].
  intros j Hj. rewrite Hget, decide_True by lia. f_equal. lia.
Qed.

(** Restoring a two-slot buffer from the images of its slots, current slot
    first. *)
Lemma restore_slots (l l2 l' l'' : list float) k :
  0 ≤ nZ c → 0 ≤ nN c → 0 ≤ k ≤ 1 →
  len l = 2 * nN c * nZ c → len l2 = 2 * nN c * nZ c →
  blit l2 (k * nZ c * nN c) (slot_of c k l) = Ok l' →
  blit l' (Z.rem (k + 1) 2 * nZ c * nN c) (slot_of c (Z.rem (k + 1) 2) l)
    = Ok l'' →
  l'' = l.
Proof.
  intros Hz Hn Hk Hl Hl2 H1 H2.
  pose proof (rem_succ_2_range _ Hk) as Ho.
  assert (0 ≤ nN c * nZ c) as Hnn by nia.
  assert (∀ q, 0 ≤ q ≤ 1 →
            len (slot_of c q l) = nN c * nZ c
            ∧ ∀ j, getZ (slot_of c q l) j
                   = if decide (0 ≤ j < nN c * nZ c)
                     then getZ l (q * nZ c * nN c + j) else None) as Hslot.
  { intros q Hq. split.
    - apply len_slice; nia.
    - intros j. apply getZ_slice; nia. }
  destruct (Hslot k Hk) as [Hlk Hgk].
  destruct (Hslot _ Ho) as [Hlo Hgo].
  apply blit_Ok in H1 as (_ & _ & Hlen1 & Hget1).
  apply blit_Ok in H2 as (_ & _ & Hlen2 & Hget2).
  rewrite Hlk in Hget1. rewrite Hlo in Hget2.
  symmetry. apply list_eq_getZ; [congruence|].
  intros j Hj. rewrite Hget2.
  assert (k = 0 ∨ k = 1) as [-> | ->] by lia.
  all: try change ((0 + 1) `rem` 2) with 1 in *.
  all: try change ((1 + 1) `rem` 2) with 0 in *.
  - case_decide.
    + rewrite Hgo, decide_True by lia. f_equal. lia.
    + rewrite Hget1, decide_True by lia.
      rewrite Hgk, decide_True by lia. f_equal. lia.
  - case_decide.
    + rewrite Hgo, decide_True by lia. f_equal. lia.
    + rewrite Hget1, decide_True by lia.
      rewrite Hgk, decide_True by lia. f_equal. lia.
Qed.

Lemma bind_Ok_eq {A B : Type} (m : result A) (k : A → result B) x :
  m = Ok x → m ≫= k = k x.
Proof. by intros ->. Qed.

Lemma load_spec s s2 file :
  well_formed c s → well_formed c s2 → current s2 = current s →
  fs s2 !! file = Some (checkpoint c s) →
  ∃ s3, load c Tmp Omg Psi file s2 = Ok s3
        ∧ mem s3 Tmp = mem s Tmp ∧ mem s3 Omg = mem s Omg
        ∧ mem s3 Psi = mem s Psi
        ∧ mem s3 DTmpdt = mem s DTmpdt ∧ mem s3 DOmgdt = mem s DOmgdt
        ∧ mem s3 Xi = mem s2 Xi ∧ mem s3 DXidt = mem s2 DXidt
        ∧ same_scalars s2 s3.
Proof.
  intros Hwf Hwf2 Hcur Hfile.
  pose proof Hwf as (Hz & Hn & Hc & Hlen).
  pose proof Hwf2 as (_ & _ & _ & Hlen2).
  pose proof (rem_succ_2_range _ Hc) as Ho.
  destruct (slot_range s _ Hwf Hc) as (Hc1 & Hc2 & Hc3).
  destruct (slot_range s _ Hwf Ho) as (Ho1 & _ & Ho3).
  pose proof (len_slot_of s (current s) DTmpdt Hwf Hc eq_refl) as HlT1.
  pose proof (len_slot_of s _ DTmpdt Hwf Ho eq_refl) as HlT2.
  pose proof (len_slot_of s (current s) DOmgdt Hwf Hc eq_refl) as HlW1.
  pose proof (len_slot_of s _ DOmgdt Hwf Ho eq_refl) as HlW2.
  unfold load. rewrite Hfile, Hcur. unfold checkpoint.
  destruct (blit_in_range (mem s2 Tmp) 0 (mem s Tmp)) as [l1 H1];
    [lia | rewrite !Hlen, Hlen2; simpl; lia |].
  destruct (blit_in_range (mem s2 Omg) 0 (mem s Omg)) as [l2 H2];
    [lia | rewrite !Hlen, Hlen2; simpl; lia |].
  destruct (blit_in_range (mem s2 Psi) 0 (mem s Psi)) as [l3 H3];
    [lia | rewrite !Hlen, Hlen2; simpl; lia |].
  destruct (blit_in_range (mem s2 DTmpdt) (current s * nZ c * nN c)
              (slot_of c (current s) (mem s DTmpdt))) as [l4 H4];
    [lia | rewrite HlT1, Hlen2; simpl; lia |].
  pose proof (blit_Ok _ _ _ _ H4) as (_ & _ & Hlen4 & _).
  destruct (blit_in_range l4 (Z.rem (current s + 1) 2 * nZ c * nN c)
              (slot_of c (Z.rem (current s + 1) 2) (mem s DTmpdt))) as [l5 H5];
    [lia | rewrite HlT2, Hlen4, Hlen2; simpl; lia |].
  destruct (blit_in_range (mem s2 DOmgdt) (current s * nZ c * nN c)
              (slot_of c (current s) (mem s DOmgdt))) as [l6 H6];
    [lia | rewrite HlW1, Hlen2; simpl; lia |].
  pose proof (blit_Ok _ _ _ _ H6) as (_ & _ & Hlen6 & _).
  destruct (blit_in_range l6 (Z.rem (current s + 1) 2 * nZ c * nN c)
              (slot_of c (Z.rem (current s + 1) 2) (mem s DOmgdt))) as [l7 H7];
    [lia | rewrite HlW2, Hlen6, Hlen2; simpl; lia |].
  rewrite file_read_block by (by rewrite Hlen).
  rewrite (bind_Ok_eq _ _ _ H1). cbn [mbind result_bind].
  rewrite file_read_block by (by rewrite Hlen).
  rewrite mem_set_mem_ne by done.
  rewrite (bind_Ok_eq _ _ _ H2). cbn [mbind result_bind].
  rewrite file_read_block by (by rewrite Hlen).
  rewrite !mem_set_mem_ne by done.
  rewrite (bind_Ok_eq _ _ _ H3). cbn [mbind result_bind].
  rewrite file_read_block by done.
  rewrite !mem_set_mem_ne by done.
  rewrite (bind_Ok_eq _ _ _ H4). cbn [mbind result_bind].
  rewrite file_read_block by done.
  rewrite mem_set_mem_eq.
  rewrite (bind_Ok_eq _ _ _ H5). cbn [mbind result_bind].
  rewrite file_read_block by done.
  rewrite !mem_set_mem_ne by done.
  rewrite (bind_Ok_eq _ _ _ H6). cbn [mbind result_bind].
  rewrite <- (app_nil_r (slot_of c (Z.rem (current s + 1) 2) (mem s DOmgdt))).
  rewrite file_read_block by done.
  rewrite mem_set_mem_eq.
  rewrite (bind_Ok_eq _ _ _ H7). cbn [mbind result_bind].
  eexists. split; [reflexivity|]. cbn [fst].
  rewrite ?mem_set_mem_eq, ?mem_set_mem_ne by done.
  split_and!.
  - eapply restore_field; [| |exact H1]; by rewrite ?Hlen, ?Hlen2.
  - rewrite !mem_set_mem_ne by done. rewrite mem_set_mem_eq.
    eapply restore_field; [| |exact H2]; by rewrite ?Hlen, ?Hlen2.
  - rewrite !mem_set_mem_ne by done. rewrite mem_set_mem_eq.
    eapply restore_field; [| |exact H3]; by rewrite ?Hlen, ?Hlen2.
  - rewrite !mem_set_mem_ne by done. rewrite mem_set_mem_eq.
    eapply (restore_slots _ (mem s2 DTmpdt) l4 l5 (current s));
      try done; by rewrite ?Hlen, ?Hlen2.
  - eapply (restore_slots _ (mem s2 DOmgdt) l6 l7 (current s));
      try done; by rewrite ?Hlen, ?Hlen2.
  - by rewrite !mem_set_mem_ne by done.
  - by rewrite !mem_set_mem_ne by done.
  - done.
Qed.

(** C5: [save] writes, when the file can be opened, exactly 7 nN nZ doubles:
    tmp, omg, psi, the current and then the other slot of dTmpdt, the
    current and then the other slot of dOmgdt.  [load] reads the same
    layout: loading that file into any simulator of the same grid with the
    same [current] yields the arrays [tmp], [omg], [psi], [dTmpdt] and
    [dOmgdt] of the saved state, cell for cell.  (Doubles are stored as
    their 8 bytes, so equal lists of doubles are equal byte sequences.) *)
Theorem checkpoint_round_trip (s : Sim) :
  well_formed c s →
  vars_name E c (saveNumber s) ∉ fs_denied s →
  let name := vars_name E c (saveNumber s) in
  let other := Z.rem (current s + 1) 2 in
  let blob :=
    mem s Tmp ++ mem s Omg ++ mem s Psi
    ++ slot_of c (current s) (mem s DTmpdt) ++ slot_of c other (mem s DTmpdt)
    ++ slot_of c (current s) (mem s DOmgdt) ++ slot_of c other (mem s DOmgdt) in
  ∃ s1, save E c s = Ok s1
    ∧ fs s1 !! name = Some blob
    ∧ len blob = 7 * (nN c * nZ c)
    ∧ ∀ s2, well_formed c s2 → current s2 = current s →
        fs s2 !! name = Some blob →
        ∃ s3, load c Tmp Omg Psi name s2 = Ok s3
          ∧ mem s3 Tmp = mem s Tmp ∧ mem s3 Omg = mem s Omg
          ∧ mem s3 Psi = mem s Psi
          ∧ mem s3 DTmpdt = mem s DTmpdt ∧ mem s3 DOmgdt = mem s DOmgdt.
Proof.
  intros Hwf Hden. simpl.
  destruct (save_spec s Hwf Hden) as (s1 & Hsave & Hfs & Hlen).
  exists s1. split; [done|]. split; [by rewrite Hfs, lookup_insert_eq|].
  split; [done|].
  intros s2 Hwf2 Hcur Hfile.
  destruct (load_spec s s2 _ Hwf Hwf2 Hcur Hfile)
    as (s3 & Hload & HT & HW & HP & HdT & HdW & _).
  by exists s3.
Qed.

End Checkpoint.

(** ** The linear driver *)

Section LinearDriver.

Context (E : External) (c : Constants).

Lemma convergence_check_converged nCrit s l :
  probes_in_range c nCrit s l →
  converged E c nCrit s l = true →
  convergence_check E c nCrit s l
  = Ok (Return (estimate E c Tmp (tmpPrev l) nCrit s)).
Proof.
  intros (Hs & Ht & Hx & Hw & Hp) Hc.
  unfold convergence_check, converged, estimate in *.
  rewrite !rd_in_range by done. cbn [mbind result_bind].
  destruct (DDC E).
  - rewrite ?rd_in_range by done. cbn [mbind result_bind]. by rewrite Hc.
  - cbn [mbind result_bind]. by rewrite Hc.
Qed.

Lemma convergence_check_Return nCrit s l v :
  convergence_check E c nCrit s l = Ok (Return v) →
  converged E c nCrit s l = true ∧ v = estimate E c Tmp (tmpPrev l) nCrit s.
Proof.
  unfold convergence_check, converged, estimate. intros H. inv_bind H.
  apply rd_at in Hx, Hx0, Hx2, Hx3, Hx4, Hx5. subst.
  assert (x1 = if DDC E
               then log_growth E (at_ (mem s Xi) (32 + nCrit * nZ c))
                      (at_ (xiPrev l) nCrit)
               else 0%float) as ->.
  { destruct (DDC E); [|by injection Hx1].
    inv_bind Hx1. apply rd_at in Hx, Hx0. subst. by injection Hx1. }
  destruct (DDC E).
  - destruct (_ && _ && _ && _); [by injection H as <-|].
    inv_bind H. discriminate.
  - destruct (_ && _ && _ && _); [by injection H as <-|].
    inv_bind H. discriminate.
Qed.

End LinearDriver.

(** ** Files that cannot be opened *)

Section OpenFailures.

Context (E : External) (c : Constants).

Lemma save_open_failure s :
  vars_name E c (saveNumber s) ∈ fs_denied s →
  save E c s = Err (Exit (-1) ("Couldn't open " +:+ saveFolder c
                               +:+ " for writing. Aborting.")).
Proof. intros H. unfold save. simpl. by rewrite decide_True. Qed.

Lemma load_open_failure x1 x2 x3 file s :
  fs s !! file = None →
  load c x1 x2 x3 file s
  = Err (Exit (-1) ("Couldn't open " +:+ file +:+ " for reading. Aborting.")).
Proof. intros H. unfold load. by rewrite H. Qed.

Lemma foob_Ok {A : Type} (x : A) : fails_only_out_of_bounds (Ok x).
Proof. intros e. discriminate. Qed.

Lemma foob_rd l i : fails_only_out_of_bounds (rd l i).
Proof. intros e. unfold rd. destruct (getZ l i); [discriminate | congruence]. Qed.

Lemma foob_bind {A B : Type} (m : result A) (k : A → result B) :
  fails_only_out_of_bounds m →
  (∀ x, fails_only_out_of_bounds (k x)) →
  fails_only_out_of_bounds (m ≫= k).
Proof.
  intros Hm Hk e. destruct m as [x|e']; simpl.
  - apply Hk.
  - intros [= <-]. by apply Hm.
Qed.

Lemma foob_dfdz l i h : fails_only_out_of_bounds (dfdz l i h).
Proof.
  unfold dfdz. repeat (apply foob_bind; [apply foob_rd | intros ?]).
  apply foob_Ok.
Qed.

Lemma foob_for_loop {St : Type} lo hi (body : Z → St → result St) s :
  (∀ i x, fails_only_out_of_bounds (body i x)) →
  fails_only_out_of_bounds (for_loop lo hi body s).
Proof.
  intros Hbody. unfold for_loop.
  generalize (Z.to_nat (hi - lo)) as count. intros count. revert lo s.
  induction count as [|count IH]; intros lo s; simpl.
  - apply foob_Ok.
  - apply foob_bind; [apply Hbody | intros x; apply IH].
Qed.

Lemma foob_calcKineticEnergyForMode n s :
  fails_only_out_of_bounds (calcKineticEnergyForMode E c n s).
Proof.
  unfold calcKineticEnergyForMode.
  repeat (apply foob_bind; [apply foob_rd | intros ?]).
  apply foob_bind.
  - apply foob_for_loop. intros k st.
    apply foob_bind; [apply foob_dfdz | intros ?].
    apply foob_bind; [apply foob_rd | intros ?]. apply foob_Ok.
  - intros [? ?]. apply foob_Ok.
Qed.

Lemma foob_saveKineticEnergy s :
  fails_only_out_of_bounds (saveKineticEnergy E c s).
Proof.
  unfold saveKineticEnergy, calcKineticEnergy.
  apply foob_bind.
  - apply foob_bind.
    + apply foob_for_loop. intros n st.
      apply foob_bind; [apply foob_calcKineticEnergyForMode | intros ?].
      apply foob_Ok.
    + intros [? ?]. apply foob_Ok.
  - intros ke. apply foob_for_loop. intros n st.
    apply foob_bind; [apply foob_calcKineticEnergyForMode | intros ?].
    apply foob_Ok.
Qed.

Lemma append_double_denied name v s :
  name ∈ fs_denied s → append_double name v s = s.
Proof. intros H. unfold append_double. by rewrite decide_True. Qed.

End OpenFailures.

(** ** The probes of the linear driver *)

Section Probes.

Context (E : External) (c : Constants).

Lemma snapshot_Ok s n l l' :
  snapshot E c s n l = Ok l' →
  0 ≤ 32 + n * nZ c < len (mem s Tmp) ∧ 0 ≤ n < len (tmpPrev l)
  ∧ tmpPrev l' = <[Z.to_nat n := at_ (mem s Tmp) (32 + n * nZ c)]> (tmpPrev l)
  ∧ omgPrev l' = <[Z.to_nat n := at_ (mem s Omg) (32 + n * nZ c)]> (omgPrev l)
  ∧ psiPrev l' = <[Z.to_nat n := at_ (mem s Psi) (32 + n * nZ c)]> (psiPrev l)
  ∧ 0 ≤ n < len (omgPrev l) ∧ 0 ≤ n < len (psiPrev l).
Proof.
  unfold snapshot, set_prev. intros H. inv_bind H. injection H as <-.
  pose proof (rd_range _ _ _ Hx) as Hr.
  apply rd_at in Hx, Hx1, Hx2. subst.
  apply wr_Ok in Hx3 as [? ->], Hx5 as [? ->], Hx6 as [? ->].
  done.
Qed.

(** A snapshot loop stores the probes of the modes [lo .. hi-1] and of no
    other mode. *)
Lemma snapshot_loop s lo hi l l' :
  lo ≤ hi →
  for_loop lo hi (snapshot E c s) l = Ok l' →
  ∀ n,
    getZ (tmpPrev l') n
      = (if decide (lo ≤ n < hi) then Some (at_ (mem s Tmp) (32 + n * nZ c))
         else getZ (tmpPrev l) n)
    ∧ getZ (omgPrev l') n
      = (if decide (lo ≤ n < hi) then Some (at_ (mem s Omg) (32 + n * nZ c))
         else getZ (omgPrev l) n)
    ∧ getZ (psiPrev l') n
      = (if decide (lo ≤ n < hi) then Some (at_ (mem s Psi) (32 + n * nZ c))
         else getZ (psiPrev l) n).
Proof.
  intros Hle H.
  pose (I := λ (m : Z) (y : LinLocals), ∀ n,
    getZ (tmpPrev y) n
      = (if decide (lo ≤ n < m) then Some (at_ (mem s Tmp) (32 + n * nZ c))
         else getZ (tmpPrev l) n)
    ∧ getZ (omgPrev y) n
      = (if decide (lo ≤ n < m) then Some (at_ (mem s Omg) (32 + n * nZ c))
         else getZ (omgPrev l) n)
    ∧ getZ (psiPrev y) n
      = (if decide (lo ≤ n < m) then Some (at_ (mem s Psi) (32 + n * nZ c))
         else getZ (psiPrev l) n)).
  eapply (for_loop_inv I); [| | | exact H]; [done | |].
  - intros n. rewrite !decide_False by lia. done.
  - intros m y z Hm Hy Hz n.
    apply snapshot_Ok in Hz as (_ & Ht & -> & -> & -> & Hw & Hp).
    destruct (Hy n) as (HT & HW & HP).
    rewrite !getZ_insert by done. rewrite HT, HW, HP.
    destruct (decide (n = m)) as [->|Hne].
    + rewrite !decide_True by lia. done.
    + destruct (decide (lo ≤ n < m)).
      * rewrite !decide_True by lia. done.
      * rewrite !decide_False by lia. done.
Qed.

(** The snapshots a check that does not return leaves behind. *)
Lemma convergence_check_snapshots nCrit s l l' :
  convergence_check E c nCrit s l = Ok (Continue l') →
  ∀ n,
    getZ (tmpPrev l') n
      = (if decide (1 ≤ n < 11) then Some (at_ (mem s Tmp) (32 + n * nZ c))
         else getZ (tmpPrev l) n)
    ∧ getZ (omgPrev l') n
      = (if decide (1 ≤ n < 11) then Some (at_ (mem s Omg) (32 + n * nZ c))
         else getZ (omgPrev l) n)
    ∧ getZ (psiPrev l') n
      = (if decide (1 ≤ n < 11) then Some (at_ (mem s Psi) (32 + n * nZ c))
         else getZ (psiPrev l) n).
Proof.
  unfold convergence_check. intros H. inv_bind H.
  destruct (_ && _ && _ && _); [discriminate|].
  inv_bind H. injection H as <-.
  assert (1 ≤ 11) as Hle by lia.
  match goal with
  | Hl : for_loop 1 11 _ _ = Ok _ |- _ =>
      exact (snapshot_loop _ _ _ _ _ Hle Hl)
  end.
Qed.

(** A check that does not return has stored ten snapshots: it needs eleven
    modes and the probe row of mode 10 inside the fields. *)
Lemma convergence_check_needs nCrit s l l' :
  convergence_check E c nCrit s l = Ok (Continue l') →
  11 ≤ len (tmpPrev l) ∧ 32 + 10 * nZ c < len (mem s Tmp).
Proof.
  unfold convergence_check. intros H. inv_bind H.
  destruct (_ && _ && _ && _); [discriminate|].
  inv_bind H. injection H as <-.
  match goal with
  | Hl : for_loop 1 11 _ _ = Ok _ |- _ => rename Hl into Hloop
  end.
  pose (I := λ (m : Z) (y : LinLocals),
    len (tmpPrev y) = len (tmpPrev l)
    ∧ (1 < m → m ≤ len (tmpPrev l) ∧ 32 + (m - 1) * nZ c < len (mem s Tmp))).
  assert (I 11 x6) as [_ HI]; [|split; apply HI; lia].
  eapply (for_loop_inv I); [| | | exact Hloop]; [lia | |].
  - split; [done | lia].
  - intros m y z Hm [Hlen _] Hz. unfold I.
    apply snapshot_Ok in Hz as (Hr & Ht & -> & _).
    split; [by rewrite len_insert|]. intros _.
    replace (m + 1 - 1) with m by lia. lia.
Qed.

Lemma printBenchmarkData_needs s rows :
  printBenchmarkData c s = Ok rows → 20 * nZ c + 32 < len (mem s Tmp).
Proof.
  unfold printBenchmarkData. intros H.
  pose (I := λ (m : Z) (_ : list (Z * float * float * float)),
    0 < m → (m - 1) * nZ c + 32 < len (mem s Tmp)).
  assert (I 21 rows) as HI; [|apply HI; lia].
  eapply (for_loop_inv I); [| | | exact H]; [lia | |].
  - intros ?. lia.
  - intros m y z Hm _ Hz _. inv_bind Hz. apply rd_range in Hx.
    replace (m + 1 - 1) with m by lia. lia.
Qed.

End Probes.

Section ProbeBounds.

Context (E : External) (c : Constants).

Lemma same_lengths_trans s1 s2 s3 :
  same_lengths s1 s2 → same_lengths s2 s3 → same_lengths s1 s3.
Proof. intros H1 H2 x. by rewrite H2. Qed.

Lemma store_same_lengths x i v s s' :
  store x i v s = Ok s' → same_lengths s s'.
Proof.
  intros H. apply store_Ok in H as [Hi ->]. intros y.
  destruct (decide (y = x)) as [->|].
  - by rewrite mem_set_mem_eq, len_insert.
  - by rewrite mem_set_mem_ne.
Qed.

Lemma for_loop_same_lengths lo hi (body : Z → Sim → result Sim) s s' :
  (∀ i x y, body i x = Ok y → same_lengths x y) →
  for_loop lo hi body s = Ok s' → same_lengths s s'.
Proof.
  intros Hbody H. destruct (Z.le_gt_cases hi lo).
  { rewrite for_loop_nil in H by done. by injection H as <-. }
  eapply (for_loop_inv (λ _ y, same_lengths s y)); [| | | exact H];
    [lia | done |].
  intros i x y _ Hx Hy. eapply same_lengths_trans; [exact Hx|]. by eapply Hbody.
Qed.

Lemma linear_initial_conditions_lengths s s' :
  linear_initial_conditions E c s = Ok s' → same_lengths s s'.
Proof.
  unfold linear_initial_conditions. intros H.
  assert (∀ v x, same_lengths (set_tmpGrad v x) x ∧ same_lengths x (set_tmpGrad v x)
                 ∧ same_lengths x (set_xiGrad v x)) as Hset by done.
  assert (∀ x i v y y', (if DDC E then store x i v y else Ok y) = Ok y' →
                        same_lengths y y') as Hddc.
  { intros x i v y y' Hy. destruct (DDC E); [by eapply store_same_lengths|].
    by injection Hy as <-. }
  apply for_loop_same_lengths in H.
  - intros x. rewrite H. by destruct (DDC E).
  - intros k x y Hy. inv_bind Hy.
    assert (same_lengths x x0) as H0.
    { destruct (tmpGrad x =? -1); [by eapply store_same_lengths|].
      destruct (tmpGrad x =? 1); [by eapply store_same_lengths|].
      by injection Hx as <-. }
    assert (same_lengths x0 x1) as H1.
    { destruct (DDC E); [|by injection Hx0 as <-].
      destruct (xiGrad x0 =? -1); [by eapply store_same_lengths|].
      destruct (xiGrad x0 =? 1); [by eapply store_same_lengths|].
      by injection Hx0 as <-. }
    eapply same_lengths_trans; [exact H0|].
    eapply same_lengths_trans; [exact H1|].
    eapply for_loop_same_lengths; [|exact Hy].
    intros n z z' Hz. inv_bind Hz.
    eapply same_lengths_trans; [by eapply store_same_lengths|].
    by eapply Hddc.
Qed.

Lemma linear_check_bcs_same s s' : linear_check_bcs E c s = Ok s' → s' = s.
Proof.
  unfold linear_check_bcs. intros H. destruct (Z.le_gt_cases (nN c) 0).
  { rewrite for_loop_nil in H by done. by injection H. }
  eapply (for_loop_inv (λ _ y, y = s)); [| | | exact H]; [lia | done |].
  intros n x y _ -> Hy. by apply update_check_bcs_Ok in Hy.
Qed.

(** The setup of [runLinear] completes only if the probe row 32 exists. *)
Lemma runLinear_setup_needs s st :
  well_formed c s → 0 < nN c →
  runLinear_setup E c s = Ok st → 32 < nZ c.
Proof.
  intros (Hz & Hn & _ & Hlen) HnN H. unfold runLinear_setup in H.
  inv_bind H. injection H as <-.
  apply linear_initial_conditions_lengths in Hx.
  apply linear_check_bcs_same in Hx0 as ->.
  pose (I := λ (m : Z) (_ : LinLocals),
    0 < m → 32 + (m - 1) * nZ c < len (mem x Tmp)).
  assert (I (nN c) x1) as HI.
  { eapply (for_loop_inv I); [| | | exact Hx1]; [lia | |].
    - intros ?. lia.
    - intros m y z Hm _ Hz' _. apply snapshot_Ok in Hz' as (Hr & _).
      replace (m + 1 - 1) with m by lia. lia. }
  specialize (HI HnN). rewrite Hx, Hlen in HI. simpl in HI. nia.
Qed.

Lemma runLinear_needs fuel nCrit s r :
  well_formed c s → 0 < nN c → nZ c ≤ 32 →
  runLinear E c fuel nCrit s ≠ Ok r.
Proof.
  intros Hwf Hn Hz H. unfold runLinear in H. inv_bind H.
  apply runLinear_setup_needs in Hx; [lia | done | done].
Qed.

End ProbeBounds.

(** ** The runs of the linear driver *)

Section LinearIterations.

Context (E : External) (c : Constants).


















End LinearIterations.

(** ** The boundary conditions as an invariant of the step *)

Section WallVorticity.

(** The hypothesis on entry is needed: an integrator step carries a
    vorticity of -1 on the wall through; every assertion passes, since the
    assertions of the update bound [omg] from above only, and the value is
    still there. *)
Lemma wall_vorticity_survives_step :
  ¬ dirichlet_after_every_step debug_build small_grid.
Proof.
  intros H.
  assert (integrator_step debug_build small_grid true 1%float wall_vorticity_state
          = Ok wall_vorticity_result) as Hstep by (vm_compute; reflexivity).
  apply H in Hstep. destruct (Hstep 1) as [_ [H0 _]]; [done|].
  vm_compute in H0. discriminate.
Qed.


End WallVorticity.

(** ** The linear pass completes on well-formed states *)

Section LinearCompletes.

Context (E : External) (c : Constants).

Lemma assert_NDEBUG e : NDEBUG E = true → assert E e = Ok tt.
Proof. intros H. unfold assert. by rewrite H. Qed.

Lemma dfdz2_in_range l i h :
  0 ≤ i - 1 → i + 1 < len l → dfdz2 l i h = Ok (dfdz2_at l i h).
Proof.
  intros H1 H2. unfold dfdz2, dfdz2_at.
  by rewrite !rd_in_range by lia.
Qed.

Lemma store_in_range x i v s :
  0 ≤ i < len (mem s x) →
  store x i v s = Ok (set_mem x (<[Z.to_nat i := v]> (mem s x)) s).
Proof. intros H. unfold store. by rewrite wr_in_range. Qed.

Lemma cell_in_range slot n k :
  0 ≤ slot ≤ 1 → 0 ≤ n < nN c → 0 ≤ k < nZ c →
  0 ≤ cell c slot n k < 2 * nN c * nZ c
  ∧ 0 ≤ k + n * nZ c < nN c * nZ c.
Proof.
  unfold cell. intros Hs Hn Hk.
  assert (0 ≤ n * nZ c) by nia.
  assert (n * nZ c ≤ (nN c - 1) * nZ c) by nia.
  assert (slot = 0 ∨ slot = 1) as [-> | ->] by lia; lia.
Qed.

Lemma linear_cell_completes ls n k s :
  NDEBUG E = true → well_formed c s →
  0 ≤ n < nN c → 1 ≤ k ≤ nZ c - 2 →
  ∃ s', linear_cell E c ls n k s = Ok s'.
Proof.
  intros Hnd (Hz & HnN & Hcur & Hlen) Hn Hk.
  destruct (cell_in_range (current s) n k) as [Hdi Hi]; [done | done | lia |].
  destruct (cell_in_range (current s) n (k - 1)) as [_ Hi1];
    [done | done | lia |].
  destruct (cell_in_range (current s) n (k + 1)) as [_ Hi2];
    [done | done | lia |].
  unfold cell in Hdi. unfold linear_cell.
  set (di := current s * nZ c * nN c + n * nZ c + k) in *.
  set (i := k + n * nZ c) in *.
  assert (∀ x, array_size c x = nN c * nZ c → 0 ≤ i < len (mem s x)
                                               ∧ 0 ≤ i - 1 ∧ i + 1 < len (mem s x))
    as Hfld by (intros x Hx; rewrite Hlen, Hx; lia).
  assert (∀ x, array_size c x = 2 * nN c * nZ c → 0 ≤ di < len (mem s x))
    as Htend by (intros x Hx; rewrite Hlen, Hx; lia).
  destruct (Hfld Tmp eq_refl) as (HT & HT1 & HT2).
  destruct (Hfld Omg eq_refl) as (HW & HW1 & HW2).
  destruct (Hfld Psi eq_refl) as (HP & _ & _).
  destruct (Hfld Xi eq_refl) as (HX & HX1 & HX2).
  pose proof (Htend DTmpdt eq_refl) as HdT.
  pose proof (Htend DOmgdt eq_refl) as HdW.
  pose proof (Htend DXidt eq_refl) as HdX.
  destruct (DDC E), (ls =? 1);
    repeat (first
      [ rewrite assert_NDEBUG by done
      | rewrite dfdz2_in_range by (simpl_sim; rewrite ?len_insert; lia)
      | rewrite rd_in_range by (simpl_sim; rewrite ?len_insert; lia)
      | rewrite store_in_range by (simpl_sim; rewrite ?len_insert; lia) ];
      cbn [mbind result_bind]);
    eauto.
Qed.

(** On a well-formed state, with the assertions compiled out, the linear
    pass completes. *)
Lemma computeLinearDerivatives_completes ls s :
  NDEBUG E = true → well_formed c s → 0 ≤ ls →
  ∃ s', computeLinearDerivatives E c ls s = Ok s'.
Proof.
  intros Hnd Hwf Hls. unfold computeLinearDerivatives.
  assert (∀ x, tend_frame (λ _, True) s x → well_formed c x) as Hkeep.
  { intros x [Hf Hl _]. destruct Hwf as (? & ? & ? & Hlen).
    split; [done|]. split; [done|]. split.
    - rewrite (sf_current _ _ Hf). lia.
    - intros y. by rewrite Hl. }
  assert (∀ lo hi (body : Z → Sim → result Sim),
    (∀ i x, lo ≤ i < hi → tend_frame (λ _, True) s x →
       ∃ y, body i x = Ok y ∧ tend_frame (λ _, True) s y) →
    ∀ x, tend_frame (λ _, True) s x →
    ∃ y, for_loop lo hi body x = Ok y ∧ tend_frame (λ _, True) s y) as Hloop.
  { intros lo hi body Hbody x Hx. destruct (Z.le_gt_cases hi lo).
    - rewrite for_loop_nil by done. eauto.
    - apply (for_loop_total (λ _ y, tend_frame (λ _, True) s y)); [lia | done |].
      intros i y Hi Hy. by apply Hbody. }
  destruct (Hloop ls (nN c)
              (λ n s, for_loop 1 (nZ c - 1) (linear_cell E c ls n) s))
    with (x := s) as (s' & Hs' & _); [| apply tend_frame_refl | eauto].
  intros n x Hn Hx. apply Hloop; [|done].
  intros k y Hk Hy.
  destruct (linear_cell_completes ls n k y) as [z Hz];
    [done | by apply Hkeep | lia | lia |].
  exists z. split; [done|].
  apply linear_cell_spec in Hz as [Hfz _].
  eapply tend_frame_trans; [exact Hy|].
  eapply tend_frame_mono; [|exact Hfz]. done.
Qed.

End LinearCompletes.

Section Witnesses.

Lemma linear_pass_completes :
  computeLinearDerivatives debug_build small_grid 0 small_state
  = Ok linear_pass_result.
Proof. vm_compute. reflexivity. Defined.

Lemma nonlinear_pass_completes :
  computeNonLinearDerivatives debug_build small_grid linear_pass_result
  = Ok nonlinear_pass_result.
Proof. vm_compute. reflexivity. Defined.

Lemma update_completes :
  updateTmpAndOmg debug_build small_grid 1%float nonlinear_pass_result
  = Ok update_result.
Proof. vm_compute. reflexivity. Defined.

Lemma step_completes :
  integrator_step debug_build small_grid true 1%float small_state
  = Ok step_result.
Proof. vm_compute. reflexivity. Defined.

Lemma body_completes :
  runNonLinear_body debug_build small_grid (small_state, small_locals)
  = Ok body_result.
Proof. vm_compute. reflexivity. Defined.

(** The linear pass on the small grid, mode 1, row 1. *)
Lemma computeLinearDerivatives_writes_witness :
  computeLinearDerivatives debug_build small_grid 0 small_state
    = Ok linear_pass_result
  ∧ 0 ≤ 1 < nN small_grid ∧ 1 ≤ 1 ≤ nZ small_grid - 2
  ∧ getZ (mem linear_pass_result DTmpdt) 5
    = Some (dfdz2_at (mem small_state Tmp) 5 (dz small_grid)
            - ref_pow (of_int 1 * M_PI / of_int 3) 2
              * at_ (mem small_state Tmp) 5)%float.
Proof.
  split; [exact linear_pass_completes|].
  split; [done|]. split; [done|].
  destruct (computeLinearDerivatives_writes debug_build small_grid 0
              small_state linear_pass_result 1 1 linear_pass_completes)
    as [HT _]; [simpl; lia | simpl; lia | exact HT].
Defined.

(** The nonlinear pass on the small grid, mode 1, row 1: the last triad is
    m = 1, o = 2. *)
Lemma computeNonLinearDerivatives_triad_signs_witness :
  computeNonLinearDerivatives debug_build small_grid linear_pass_result
    = Ok nonlinear_pass_result
  ∧ 1 ≤ 1 < nN small_grid ∧ 1 ≤ 1 ≤ nZ small_grid - 2
  ∧ let P := mem linear_pass_result Psi in
    let bracket (fld : list float) (m : Z) : float :=
      (of_int m * dfdz_at P (4 * (1 + m) + 1) (dz small_grid)
       * at_ fld (4 * m + 1)
       + of_int (1 + m) * dfdz_at fld (4 * m + 1) (dz small_grid)
         * at_ P (4 * (1 + m) + 1))%float in
    at_ (mem nonlinear_pass_result DTmpdt) 5
      = accumulate
          ((earlier_contributions small_grid 1 1 linear_pass_result).1
           ++ ((λ m, - M_PI / of_int 6
                     * bracket (mem linear_pass_result Tmp) m)%float
                 <$> seqZ 1 1))
          (at_ (mem linear_pass_result DTmpdt) 5)
    ∧ at_ (mem nonlinear_pass_result DOmgdt) 5
      = accumulate
          ((earlier_contributions small_grid 1 1 linear_pass_result).2
           ++ ((λ m, M_PI / of_int 6
                     * bracket (mem linear_pass_result Omg) m)%float
                 <$> seqZ 1 1))
          (at_ (mem linear_pass_result DOmgdt) 5).
Proof.
  split; [exact nonlinear_pass_completes|].
  split; [done|]. split; [done|].
  destruct (computeNonLinearDerivatives_triad_signs debug_build small_grid
              linear_pass_result nonlinear_pass_result 1 1
              nonlinear_pass_completes)
    as [HT HW]; [simpl; lia | simpl; lia |].
  split; [exact HT | exact HW].
Defined.

Lemma small_state_tendencies_zero :
  tendency_boundaries_zero small_grid small_state.
Proof.
  intros slot n b Hslot Hn Hb.
  assert (slot = 0 ∨ slot = 1) as [-> | ->] by lia;
    (assert (n = 0 ∨ n = 1 ∨ n = 2) as [-> | [-> | ->]]
       by (simpl in Hn; lia));
    destruct Hb as [-> | ->]; split; reflexivity.
Defined.



Lemma nonlinear_run_completes :
  runNonLinear debug_build small_grid 5 restart_state
  = Ok (Some nonlinear_run_result).
Proof. vm_compute. reflexivity. Defined.

(** A run of the nonlinear driver on the small grid: it makes at least one
    iteration. *)
Lemma runNonLinear_iterations_witness :
  runNonLinear debug_build small_grid 5 restart_state
    = Ok (Some nonlinear_run_result)
  ∧ ∃ s0 heads final,
      load small_grid Tmp Omg Psi (icFile small_grid) restart_state = Ok s0
      ∧ iterations (nl_iteration debug_build small_grid)
          (set_t 0%float (set_current 0 s0), nl_start) heads final
      ∧ heads ≠ []
      ∧ (length heads ≤ 5)%nat
      ∧ (EPSILON debug_build <? totalTime small_grid - t final.1)%float = false
      ∧ save debug_build small_grid final.1 = Ok nonlinear_run_result.
Proof.
  split; [exact nonlinear_run_completes|].
  destruct (proj1 (proj1 (runNonLinear_iterations debug_build small_grid)
                     5%nat restart_state nonlinear_run_result)
              nonlinear_run_completes)
    as (s0 & heads & final & Hload & Hit & Hlen & Hend & Hsave).
  exists s0, heads, final.
  split; [exact Hload|]. split; [exact Hit|].
  split; [|split; [exact Hlen|split; [exact Hend | exact Hsave]]].
  intros ->. cbn [iterations] in Hit. subst final.
  cbn [fst t set_t] in Hend.
  revert Hend. vm_compute. discriminate.
Defined.

Lemma small_state_well_formed : well_formed small_grid small_state.
Proof.
  split; [simpl; lia|]. split; [simpl; lia|]. split; [simpl; lia|].
  intros x. destruct x; reflexivity.
Defined.

(** Saving the small state. *)
Lemma checkpoint_round_trip_witness :
  well_formed small_grid small_state
  ∧ (vars_name debug_build small_grid (saveNumber small_state)
       ∉ fs_denied small_state)
  ∧ ∃ s1, save debug_build small_grid small_state = Ok s1
      ∧ fs s1 !! "out/vars0.dat" = Some (checkpoint small_grid small_state)
      ∧ len (checkpoint small_grid small_state) = 84.
Proof.
  split; [exact small_state_well_formed|].
  assert (vars_name debug_build small_grid (saveNumber small_state)
            ∉ fs_denied small_state) as Hden by (simpl; set_solver).
  split; [exact Hden|].
  destruct (checkpoint_round_trip debug_build small_grid small_state
              small_state_well_formed Hden)
    as (s1 & Hsave & Hfs & Hlen & _).
  exists s1. split; [exact Hsave|]. split; [exact Hfs | exact Hlen].
Defined.



(** The kernels and the update of one step on the small grid. *)
Lemma tendency_kernels_leave_boundary_rows_witness :
  0 ≤ current small_state ≤ 1
  ∧ computeLinearDerivatives debug_build small_grid 0 small_state
      = Ok linear_pass_result
  ∧ computeNonLinearDerivatives debug_build small_grid linear_pass_result
      = Ok nonlinear_pass_result
  ∧ updateTmpAndOmg debug_build small_grid 1%float nonlinear_pass_result
      = Ok update_result
  ∧ tend_frame (interior_cells small_grid (current small_state))
      small_state nonlinear_pass_result
  ∧ tendency_boundaries_zero small_grid nonlinear_pass_result.
Proof.
  assert (0 ≤ current small_state ≤ 1) as Hcur by (simpl; lia).
  assert (0 ≤ 0) as Hls by lia.
  split; [exact Hcur|].
  split; [exact linear_pass_completes|].
  split; [exact nonlinear_pass_completes|].
  split; [exact update_completes|].
  destruct (tendency_kernels_leave_boundary_rows debug_build small_grid 0
              1%float small_state linear_pass_result nonlinear_pass_result
              update_result Hcur Hls linear_pass_completes
              (or_intror nonlinear_pass_completes) update_completes)
    as (Hf & _ & Hz).
  split; [exact Hf|].
  exact (proj1 (Hz small_state_tendencies_zero eq_refl eq_refl eq_refl)).
Defined.

End Witnesses.

(** ** Where the code departs from its specification *)

Section Departures.

(** C7: [save] and [load] end the process with a diagnostic when their file
    cannot be opened, but [saveKineticEnergy] never does: whatever the files,
    it can only fail by an access out of bounds, and on the small grid with
    all three kinetic-energy files impossible to open it completes, updates
    the energy diagnostics and writes nothing. *)
Theorem saveKineticEnergy_open_failure_not_fatal :
  (∀ E c s e, saveKineticEnergy E c s = Err e → e = OutOfBounds)
  ∧ (∃ s', saveKineticEnergy debug_build small_grid denied_state = Ok s'
           ∧ fs s' = ∅
           ∧ (keCurrent s' =? keCurrent denied_state)%float = false)
  ∧ save debug_build small_grid denied_checkpoint_state
    = Err (Exit (-1) "Couldn't open out/ for writing. Aborting.")
  ∧ load small_grid Tmp Omg Psi "ic.dat" small_state
    = Err (Exit (-1) "Couldn't open ic.dat for reading. Aborting.").
Proof.
  split; [intros E c s e; apply foob_saveKineticEnergy|].
  split.
  - exists (value_of denied_state
              (saveKineticEnergy debug_build small_grid denied_state)).
    split; [vm_compute; reflexivity|]. split; vm_compute; reflexivity.
  - split; vm_compute; reflexivity.
Qed.

(** C8: a convergence check that does not return refreshes the snapshots of
    the modes 1 .. 10 only; the snapshots of mode 0 and of the modes from 11
    on keep the value they had.  On the probe grid, for the critical mode
    11, the snapshot after a check is still the probe of the setup although
    the field has changed, while the snapshot of mode 1 is the probe of the
    moment. *)
Theorem convergence_check_keeps_stale_snapshots :
  (∀ E c nCrit s l l' n,
     convergence_check E c nCrit s l = Ok (Continue l') →
     ¬ (1 ≤ n < 11) →
     getZ (tmpPrev l') n = getZ (tmpPrev l) n
     ∧ getZ (omgPrev l') n = getZ (omgPrev l) n
     ∧ getZ (psiPrev l') n = getZ (psiPrev l) n)
  ∧ match stale_snapshot_scenario with
    | Ok (prev11, setup11, now11, prev1, now1) =>
        prev11 = setup11 ∧ (now11 =? setup11)%float = false ∧ prev1 = now1
    | Err _ => False
    end.
Proof.
  split.
  - intros E c nCrit s l l' n H Hn.
    destruct (convergence_check_snapshots E c nCrit s l l' H n)
      as (HT & HW & HP).
    rewrite decide_False in HT, HW, HP by done. done.
  - vm_compute. repeat split; reflexivity.
Qed.

(** C9: on a grid with at most 32 rows the linear driver cannot complete:
    its first snapshot loop reads row 32 of every mode.  On the minimum
    grid, nZ = 3 and nN = 1, it reads tmp[32] of an array of 3 doubles. *)
Theorem runLinear_minimum_grid_out_of_bounds :
  (∀ E c fuel nCrit s r,
     well_formed c s → 0 < nN c → nZ c ≤ 32 →
     runLinear E c fuel nCrit s ≠ Ok r)
  ∧ (∀ fuel nCrit,
       runLinear debug_build minimal_grid fuel nCrit
         (zeroed minimal_grid 0 0%float ∅ ∅)
       = Err OutOfBounds)
  ∧ (∀ c s rows,
       printBenchmarkData c s = Ok rows → 20 * nZ c + 32 < len (mem s Tmp)).
Proof.
  split; [intros E c fuel nCrit s r; apply runLinear_needs|].
  split; [|intros c s rows; apply printBenchmarkData_needs].
  intros fuel nCrit. unfold runLinear.
  assert (runLinear_setup debug_build minimal_grid
            (zeroed minimal_grid 0 0%float ∅ ∅) = Err OutOfBounds) as ->
    by (vm_compute; reflexivity).
  done.
Qed.

End Departures.

(** * Further properties of the simulator *)

(** ** Clearing the arrays *)

Section Reinit.

Context (E : External) (c : Constants).

Lemma filled_refl P v s : filled P v 0 s s.
Proof.
  split; [apply same_scalars_refl|]. split; [done|].
  intros x j. rewrite bool_decide_eq_false_2 by lia. by rewrite andb_false_r.
Qed.

(** A round of a fill loop, as the stores it performs. *)
Lemma filled_step P v i s y (xs : list arr) :
  filled P v i s y →
  (∀ x, P x = bool_decide (x ∈ xs)) →
  (∀ x, x ∈ xs → 0 ≤ i < len (mem s x)) →
  filled P v (i + 1) s
    (foldr (λ x y, set_mem x (<[Z.to_nat i := v]> (mem y x)) y) y xs).
Proof.
  intros (Hs & Hl & Hg) HP Hr.
  set (put := λ (x : arr) (y : Sim),
         set_mem x (<[Z.to_nat i := v]> (mem y x)) y).
  assert (∀ zs, (∀ x, x ∈ zs → x ∈ xs) →
    same_scalars s (foldr put y zs)
    ∧ (∀ x, len (mem (foldr put y zs) x) = len (mem s x))
    ∧ ∀ x j, getZ (mem (foldr put y zs) x) j
             = if bool_decide (x ∈ zs) && bool_decide (j = i) then Some v
               else getZ (mem y x) j) as Hfold.
  { induction zs as [|z zs IH]; intros Hsub.
    - split; [done|]. split; [done|]. intros x j. done.
    - destruct IH as (IH1 & IH2 & IH3).
      { intros x Hx. by apply Hsub, list_elem_of_further. }
      assert (0 ≤ i < len (mem s z)) as Hz.
      { apply Hr, Hsub, list_elem_of_here. }
      cbn [foldr]. unfold put at 1 3 5.
      split; [eapply same_scalars_trans; [exact IH1 | apply same_scalars_set_mem]|].
      split.
      + intros x. destruct (decide (x = z)) as [->|Hne].
        * rewrite mem_set_mem_eq, len_insert. apply IH2.
        * rewrite mem_set_mem_ne by done. apply IH2.
      + intros x j. destruct (decide (x = z)) as [->|Hne].
        * rewrite mem_set_mem_eq, getZ_insert by (by rewrite IH2).
          rewrite (bool_decide_eq_true_2 (z ∈ z :: zs))
            by apply list_elem_of_here.
          simpl. case_decide as Hj.
          -- by rewrite bool_decide_eq_true_2.
          -- rewrite bool_decide_eq_false_2 by done. rewrite IH3.
             rewrite (bool_decide_eq_false_2 (j = i)) by done.
             by rewrite andb_false_r.
        * rewrite mem_set_mem_ne by done. rewrite IH3.
          destruct (decide (x ∈ zs)) as [Hin|Hin].
          -- rewrite !(bool_decide_eq_true_2 (x ∈ _));
               [done | by apply list_elem_of_further | done].
          -- rewrite !(bool_decide_eq_false_2 (x ∈ _)); [done | | done].
             rewrite elem_of_cons. tauto. }
  destruct (Hfold xs) as (H1 & H2 & H3); [done|].
  split; [done|]. split; [done|].
  intros x j. rewrite H3, Hg, HP.
  destruct (decide (x ∈ xs)) as [Hin|Hin].
  - specialize (Hr x Hin). rewrite (bool_decide_eq_true_2 (x ∈ xs)) by done.
    simpl. repeat case_bool_decide; try done; lia.
  - by rewrite (bool_decide_eq_false_2 (x ∈ xs)) by done.
Qed.

Lemma len_zeros n : 0 ≤ n → len (zeros n) = n.
Proof. unfold len, zeros. rewrite length_replicate. lia. Qed.

Lemma getZ_zeros n j :
  getZ (zeros n) j = if bool_decide (0 ≤ j < n) then Some 0%float else None.
Proof.
  unfold getZ, zeros. case_bool_decide as Hj.
  - destruct (Z.leb_spec 0 j); [|lia].
    apply lookup_replicate_2. lia.
  - destruct (Z.leb_spec 0 j); [|done].
    apply lookup_ge_None_2. rewrite length_replicate. lia.
Qed.

(** The stores of a round, performed one after the other. *)
Lemma stores_complete v i (xs : list arr) y :
  (∀ x, x ∈ xs → 0 ≤ i < len (mem y x)) →
  foldr (λ x r, y ← r; store x i v y) (Ok y) xs
  = Ok (foldr (λ x y, set_mem x (<[Z.to_nat i := v]> (mem y x)) y) y xs).
Proof.
  induction xs as [|x xs IH]; intros Hr; [done|].
  cbn [foldr]. rewrite IH by (intros z Hz; by apply Hr, list_elem_of_further).
  simpl. apply store_in_range.
  assert (∀ zs, len (mem (foldr (λ x y, set_mem x (<[Z.to_nat i := v]> (mem y x)) y)
                               y zs) x) = len (mem y x)) as ->.
  { induction zs as [|z zs IHz]; [done|]. cbn [foldr].
    destruct (decide (x = z)) as [->|Hne].
    - by rewrite mem_set_mem_eq, len_insert.
    - by rewrite mem_set_mem_ne. }
  apply Hr, list_elem_of_here.
Qed.

Lemma fill_loop v n (xs : list arr) (body : Z → Sim → result Sim) s :
  0 ≤ n →
  (∀ x, x ∈ xs → n ≤ len (mem s x)) →
  (∀ i y, body i y = foldr (λ x r, y ← r; store x i v y) (Ok y) xs) →
  ∃ s', for_loop 0 n body s = Ok s'
        ∧ filled (λ x, bool_decide (x ∈ xs)) v n s s'.
Proof.
  intros Hn Hlen Hbody.
  apply (for_loop_total (λ i y, filled (λ x, bool_decide (x ∈ xs)) v i s y));
    [done | apply filled_refl |].
  intros i y Hi Hy. rewrite Hbody.
  rewrite stores_complete.
  - eexists. split; [done|]. apply filled_step; [done | done |].
    intros x Hx. specialize (Hlen x Hx). lia.
  - intros x Hx. destruct Hy as (_ & Hl & _). rewrite Hl.
    specialize (Hlen x Hx). lia.
Qed.

(** The two fill loops, on the arrays the build has. *)
Lemma zero_fill (s : Sim) :
  0 ≤ nN c * nZ c →
  (∀ x, allocated E x = true → len (mem s x) = array_size c x) →
  ∃ s', reinit E c s = Ok s'
    ∧ (∀ x, mem s' x = if allocated E x then init_mem c x else mem s x)
    ∧ same_scalars s s'.
Proof.
  intros Hp Hlen.
  set (xs1 := (if DDC E then [Xi] else []) ++ [Tmp; Omg; Psi]).
  set (xs2 := (if DDC E then [DXidt] else []) ++ [DOmgdt; DTmpdt]).
  assert (∀ x, x ∈ xs1 → x = Xi ∨ x = Tmp ∨ x = Omg ∨ x = Psi) as Hk1.
  { intros x. subst xs1. destruct (DDC E); simpl;
      rewrite ?elem_of_cons, ?elem_of_nil; tauto. }
  assert (∀ x, x ∈ xs2 → x = DXidt ∨ x = DOmgdt ∨ x = DTmpdt) as Hk2.
  { intros x. subst xs2. destruct (DDC E); simpl;
      rewrite ?elem_of_cons, ?elem_of_nil; tauto. }
  assert (∀ x, x ∈ xs1 ++ xs2 ↔ allocated E x = true) as Hall.
  { intros x. subst xs1 xs2. unfold allocated.
    rewrite !elem_of_app. destruct (DDC E); simpl;
      rewrite ?elem_of_cons, ?elem_of_nil; destruct x;
      intuition (discriminate || auto). }
  assert (∀ x, x ∈ xs1 → len (mem s x) = nN c * nZ c) as Hlen1.
  { intros x Hx. rewrite Hlen by (apply Hall, elem_of_app; auto).
    destruct (Hk1 x Hx) as [->|[->|[->| ->]]]; done. }
  assert (∀ x, x ∈ xs2 → len (mem s x) = 2 * nN c * nZ c) as Hlen2.
  { intros x Hx. rewrite Hlen by (apply Hall, elem_of_app; auto).
    destruct (Hk2 x Hx) as [->|[->| ->]]; done. }
  unfold reinit.
  edestruct (fill_loop 0%float (nZ c * nN c) xs1) as (s1 & -> & H1);
    [lia | | |].
  { intros x Hx. rewrite (Hlen1 x Hx). lia. }
  { intros i y. subst xs1. cbv beta.
    destruct (DDC E); simpl;
      destruct (store Psi i 0 y) as [y1|]; simpl; [|done| |done];
      destruct (store Omg i 0 y1) as [y2|]; simpl; [|done| |done];
      by destruct (store Tmp i 0 y2). }
  destruct H1 as (Hs1 & Hl1 & Hg1). cbn [mbind result_bind].
  edestruct (fill_loop 0%float (nZ c * nN c * 2) xs2) as (s2 & -> & H2);
    [lia | | |].
  { intros x Hx. rewrite Hl1, (Hlen2 x Hx). lia. }
  { intros i y. subst xs2. cbv beta.
    destruct (DDC E); simpl;
      destruct (store DTmpdt i 0 y) as [y1|]; simpl; [|done| |done];
      by destruct (store DOmgdt i 0 y1). }
  destruct H2 as (Hs2 & Hl2 & Hg2).
  exists s2. split; [done|]. split; [|by eapply same_scalars_trans].
  intros x.
  assert (x ∈ xs1 → x ∉ xs2) as Hdisj.
  { intros Ha Hb. pose proof (Hk1 x Ha) as Ha'. pose proof (Hk2 x Hb) as Hb'.
    destruct Ha' as [->|[->|[->| ->]]]; destruct Hb' as [?|[?|?]];
      discriminate. }
  apply list_eq_getZ.
  - rewrite Hl2, Hl1. destruct (allocated E x) eqn:Hx; [|done].
    rewrite (Hlen x Hx). destruct x; simpl; symmetry; apply len_zeros; lia.
  - intros j Hj. rewrite Hl2, Hl1 in Hj. rewrite Hg2, Hg1.
    destruct (decide (x ∈ xs1)) as [Ha|Ha].
    + rewrite (bool_decide_eq_false_2 (x ∈ xs2)) by auto.
      rewrite (bool_decide_eq_true_2 (x ∈ xs1)) by done.
      rewrite (proj1 (Hall x)) by (apply elem_of_app; auto).
      simpl. rewrite (Hlen1 x Ha) in Hj.
      rewrite bool_decide_eq_true_2 by lia.
      destruct (Hk1 x Ha) as [->|[->|[->| ->]]]; simpl; rewrite getZ_zeros;
        by rewrite bool_decide_eq_true_2 by lia.
    + rewrite (bool_decide_eq_false_2 (x ∈ xs1)) by done. simpl.
      destruct (decide (x ∈ xs2)) as [Hb|Hb].
      * rewrite (bool_decide_eq_true_2 (x ∈ xs2)) by done.
        rewrite (proj1 (Hall x)) by (apply elem_of_app; auto).
        simpl. rewrite (Hlen2 x Hb) in Hj.
        rewrite bool_decide_eq_true_2 by lia.
        destruct (Hk2 x Hb) as [->|[->| ->]]; simpl; rewrite getZ_zeros;
          by rewrite bool_decide_eq_true_2 by lia.
      * rewrite (bool_decide_eq_false_2 (x ∈ xs2)) by done.
        destruct (allocated E x) eqn:Hx; [|done].
        apply Hall in Hx. apply elem_of_app in Hx. tauto.
Qed.

(** X1: [reinit] on a simulator whose arrays have their allocated sizes: it
    completes, every cell of [psi], [omg], [tmp], [dTmpdt] and [dOmgdt] (and
    of [xi] and [dXidt] in a DDC build) is 0.0 afterwards, as after
    construction, and nothing else changes: in particular [t], [current],
    [saveNumber] and the energy diagnostics are not reset. *)
Theorem reinit_clears_arrays (s : Sim) :
  well_formed c s →
  ∃ s', reinit E c s = Ok s'
    ∧ (∀ x, x ∈ [Psi; Omg; Tmp; DTmpdt; DOmgdt] → mem s' x = init_mem c x)
    ∧ (∀ x, x ∈ [Xi; DXidt] →
         mem s' x = if DDC E then init_mem c x else mem s x)
    ∧ same_scalars s s'.
Proof.
  intros (Hz & Hn & _ & Hlen).
  destruct (zero_fill s) as (s' & Hrun & Hmem & Hsc); [nia | auto |].
  exists s'. split; [done|]. split; [|split; [|done]].
  - intros x Hx. rewrite Hmem.
    rewrite !elem_of_cons, elem_of_nil in Hx. by destruct_or!; subst.
  - intros x Hx. rewrite Hmem.
    rewrite !elem_of_cons, elem_of_nil in Hx. by destruct_or!; subst.
Qed.

End Reinit.

(** ** The order of doubles *)

Lemma SFltb_trans x y z :
  SFltb x y = true → SFltb y z = true → SFltb x z = true.
Proof.
  unfold SFltb, SFcompare.
  destruct x as [sx|sx| |sx mx ex], y as [sy|sy| |sy my ey],
           z as [sz|sz| |sz mz ez];
    repeat match goal with b : bool |- _ => destruct b end;
    try done.
  all: destruct (Z.compare_spec ex ey), (Z.compare_spec ey ez),
         (Z.compare_spec ex ez); try done; try lia; subst;
       change (Pos.compare_cont Eq ?a ?b) with (Pos.compare a b);
       destruct (Pos.compare_spec mx my), (Pos.compare_spec my mz),
         (Pos.compare_spec mx mz); try done; lia.
Qed.

Lemma ltb_trans (x y z : float) :
  (x <? y)%float = true → (y <? z)%float = true → (x <? z)%float = true.
Proof. rewrite !FloatAxioms.ltb_spec. apply SFltb_trans. Qed.

Lemma nan_ltb (x y : float) : PrimFloat.is_nan x = true → (x <? y)%float = false.
Proof.
  unfold PrimFloat.is_nan. rewrite FloatAxioms.eqb_spec, FloatAxioms.ltb_spec.
  unfold SFeqb, SFltb, SFcompare.
  destruct (Prim2SF x) as [s|s| |s m e]; try done.
  - by destruct s.
  - destruct s; rewrite Z.compare_refl;
      change (Pos.compare_cont Eq m m) with (Pos.compare m m);
      by rewrite Pos.compare_refl.
Qed.

Lemma ltb_irrefl (x : float) : (x <? x)%float = false.
Proof.
  rewrite FloatAxioms.ltb_spec. unfold SFltb, SFcompare.
  destruct (Prim2SF x) as [s|s| |s m e]; try done.
  - by destruct s.
  - destruct s; rewrite Z.compare_refl;
      change (Pos.compare_cont Eq m m) with (Pos.compare m m);
      by rewrite Pos.compare_refl.
Qed.

(** ** The maximum of an array *)

Section PrintMax.

Context (c : Constants).

(** X2: [printMaxOf] reports a value of the array together with a place where
    it stands, and no cell of the grid compares greater than it. A NaN in
    the first cell is reported whatever the other cells hold, since no
    double compares greater than a NaN. *)
Theorem printMaxOf_reports_maximum (arr : list float) (m : float) (k n : Z) :
  printMaxOf c arr = Ok (m, k, n) →
  getZ arr (n * nZ c + k) = Some m
  ∧ (∀ n' k', 0 ≤ n' < nN c → 0 ≤ k' < nZ c →
       (m <? at_ arr (n' * nZ c + k'))%float = false)
  ∧ (PrimFloat.is_nan (at_ arr 0) = true → m = at_ arr 0 ∧ k = 0 ∧ n = 0).
Proof.
  unfold printMaxOf. intros H. inv_bind H. rename x into m0.
  apply rd_Ok in Hx. change (0 * nZ c) with 0 in Hx.
  pose (J := λ (st : float * Z * Z),
    getZ arr (st.2 * nZ c + st.1.2) = Some st.1.1
    ∧ (PrimFloat.is_nan (at_ arr 0) = true → st = (at_ arr 0, 0, 0))).
  pose (seen := λ (n0 k0 : Z) (st : float * Z * Z),
    ∀ n' k', 0 ≤ n' → 0 ≤ k' < nZ c → n' < n0 ∨ (n' = n0 ∧ k' < k0) →
      (st.1.1 <? at_ arr (n' * nZ c + k'))%float = false).
  assert (J (m0, 0, 0)) as HJ0.
  { split; [done|]. intros _. simpl. by rewrite (getZ_at _ _ _ Hx). }
  destruct (Z.le_gt_cases (nN c) 0) as [Hn|Hn].
  { rewrite for_loop_nil in H by done. injection H as <- <- <-.
    destruct HJ0 as [Hloc0 Hnan0]. split; [done|]. split; [intros; lia|].
    intros Hnan. by injection (Hnan0 Hnan) as ->. }
  assert (J (m, k, n) ∧ seen (nN c) 0 (m, k, n)) as [[HJ Hnan] Hseen].
  { eapply (for_loop_inv (λ n0 st, J st ∧ seen n0 0 st));
      [| | | exact H]; [lia | |].
    - split; [done|]. intros n' k' ? ? ?. lia.
    - intros n0 st st' Hn0 [HJst Hs] Hst'.
      destruct (Z.le_gt_cases (nZ c) 0) as [Hz|Hz].
      { rewrite for_loop_nil in Hst' by done. injection Hst' as <-.
        split; [done|]. intros n' k' ? ? ?. lia. }
      assert (J st' ∧ seen n0 (nZ c) st') as [HJ' Hs'].
      { eapply (for_loop_inv (λ k0 st, J st ∧ seen n0 k0 st));
          [| | | exact Hst']; [lia | |].
        - split; [done|]. intros n' k' ? ? [?|[? ?]]; [|lia].
          apply Hs; [done | done | by left].
        - clear dependent st st'.
          intros k0 st st' Hk0 [[Hloc Hnan] Hs] Hst'. inv_bind Hst'.
          pose proof (rd_Ok _ _ _ Hx0) as Hv.
          destruct (st.1.1 <? x)%float eqn:Hlt; injection Hst' as <-.
          + split; [split|].
            * done.
            * intros Hn'. rewrite (Hnan Hn') in Hlt. simpl in Hlt.
              by rewrite nan_ltb in Hlt.
            * intros n' k' Hn' Hk' Hpos. simpl.
              destruct (decide (n' = n0 ∧ k' = k0)) as [[-> ->]|Hne].
              -- rewrite (getZ_at _ _ _ Hv). apply ltb_irrefl.
              -- destruct (x <? at_ arr (n' * nZ c + k'))%float eqn:Hx';
                   [|done].
                 rewrite <- (Hs n' k'); [|done|done|lia].
                 symmetry. by eapply ltb_trans.
          + split; [done|].
            intros n' k' Hn' Hk' Hpos.
            destruct (decide (n' = n0 ∧ k' = k0)) as [[-> ->]|Hne].
            * by rewrite (getZ_at _ _ _ Hv).
            * apply Hs; [done | done | lia]. }
      split; [done|]. intros n' k' Hn' Hk' Hpos. apply Hs'; [done|done|lia]. }
  split; [done|]. split.
  - intros n' k' Hn' Hk'. apply (Hseen n' k'); [lia | done | lia].
  - intros Hn'. by injection (Hnan Hn') as -> -> ->.
Qed.

End PrintMax.

(** ** File names *)

Lemma string_length_app (x y : string) :
  String.length (x +:+ y) = (String.length x + String.length y)%nat.
Proof. induction x as [|a x IH]; simpl; [done | by rewrite IH]. Qed.

Lemma string_app_inj_r (x y d : string) : x +:+ d = y +:+ d → x = y.
Proof.
  revert y. induction x as [|a x IH]; intros [|b y] H.
  - done.
  - apply (f_equal String.length) in H.
    rewrite !string_length_app in H. simpl in H. lia.
  - apply (f_equal String.length) in H.
    rewrite !string_length_app in H. simpl in H. lia.
  - injection H as -> H. f_equal. by apply IH.
Qed.

Section FileNames.

Context (E : External) (c : Constants).

Lemma vars_name_inj k k' :
  vars_name E c k = vars_name E c k' → strFromNumber E k = strFromNumber E k'.
Proof.
  unfold vars_name. intros H.
  apply String.app_inj in H. apply String.app_inj in H.
  by apply string_app_inj_r in H.
Qed.

Lemma total_name_not_mode_name (x : string) :
  saveFolder c +:+ "KineticEnergy" +:+ ".dat"
  ≠ saveFolder c +:+ "KineticEnergyMode" +:+ x +:+ ".dat".
Proof. intros H. apply String.app_inj in H. simpl in H. discriminate. Qed.

Lemma mode_name_inj (x y : string) :
  saveFolder c +:+ "KineticEnergyMode" +:+ x +:+ ".dat"
  = saveFolder c +:+ "KineticEnergyMode" +:+ y +:+ ".dat" → x = y.
Proof.
  intros H. apply String.app_inj in H. apply String.app_inj in H.
  by apply string_app_inj_r in H.
Qed.

End FileNames.

(** ** Checkpoints on disk *)

Section CheckpointFiles.

Context (E : External) (c : Constants).

(** What a save that completes has done. *)
Lemma save_Ok s s' :
  save E c s = Ok s' →
  (vars_name E c (saveNumber s) ∉ fs_denied s)
  ∧ saveNumber s' = saveNumber s + 1
  ∧ fs_denied s' = fs_denied s
  ∧ kePrev s' = kePrev s ∧ keCurrent s' = keCurrent s
  ∧ ∃ blob, fs s' = <[vars_name E c (saveNumber s) := blob]> (fs s)
            ∧ len blob = 7 * (nN c * nZ c).
Proof.
  unfold save. simpl. case_decide as Hden; [done|].
  intros H. inv_bind H. injection H as <-. simpl.
  split; [done|]. split; [done|]. split; [done|]. split; [done|].
  split; [done|]. eexists. split; [done|].
  repeat match goal with
  | H : slice _ _ _ = Ok _ |- _ =>
      apply slice_Ok in H as (? & ? & ? & ->)
  end.
  rewrite !len_app, !len_slice by done. lia.
Qed.

(** X3: a checkpoint is never overwritten by a later one: after a save, whatever
    the simulator does to its arrays and its clock, the next save goes to
    the file of the next number and leaves the first file as it was written,
    provided [strFromNumber] gives the two numbers different names. *)
Theorem save_keeps_earlier_checkpoint (s s1 s1' s2 : Sim) :
  well_formed c s →
  save E c s = Ok s1 →
  fs s1' = fs s1 → saveNumber s1' = saveNumber s1 →
  save E c s1' = Ok s2 →
  strFromNumber E (saveNumber s) ≠ strFromNumber E (saveNumber s + 1) →
  fs s2 !! vars_name E c (saveNumber s) = Some (checkpoint c s)
  ∧ saveNumber s2 = saveNumber s + 2
  ∧ ∀ name, name ≠ vars_name E c (saveNumber s) →
            name ≠ vars_name E c (saveNumber s + 1) →
            fs s2 !! name = fs s !! name.
Proof.
  intros Hwf H1 Hfs Hnum H2 Hstr.
  pose proof (save_Ok _ _ H1) as (Hden & Hn1 & _ & _ & _ & _).
  destruct (save_spec E c s Hwf Hden) as (s1'' & H1' & Hfs1 & _).
  rewrite H1 in H1'. injection H1' as <-.
  pose proof (save_Ok _ _ H2) as (_ & Hn2 & _ & _ & _ & blob & Hfs2 & _).
  rewrite Hnum, Hn1 in Hfs2, Hn2. rewrite Hfs, Hfs1 in Hfs2.
  assert (vars_name E c (saveNumber s) ≠ vars_name E c (saveNumber s + 1))
    as Hne by (intros Heq; by apply vars_name_inj in Heq).
  split; [|split].
  - rewrite Hfs2. rewrite lookup_insert_ne by done.
    by rewrite lookup_insert_eq.
  - lia.
  - intros name Hn Hn'. rewrite Hfs2. by rewrite !lookup_insert_ne.
Qed.

Lemma getZ_app (l k : list float) j :
  getZ (l ++ k) j = if decide (j < len l) then getZ l j else getZ k (j - len l).
Proof.
  unfold getZ, len. destruct (Z.leb_spec 0 j).
  - case_decide.
    + by rewrite lookup_app_l by lia.
    + destruct (Z.leb_spec 0 (j - Z.of_nat (length l))); [|lia].
      rewrite lookup_app_r by lia. f_equal. lia.
  - case_decide; [done|].
    destruct (Z.leb_spec 0 (j - Z.of_nat (length l))); [lia|done].
Qed.

Lemma block_spec i data :
  0 ≤ nN c * nZ c → 0 ≤ i → (i + 1) * (nN c * nZ c) ≤ len data →
  len (block c i data) = nN c * nZ c
  ∧ ∀ j, getZ (block c i data) j
         = if decide (0 ≤ j < nN c * nZ c)
           then getZ data (i * (nN c * nZ c) + j) else None.
Proof.
  intros HN Hi Hlen. split.
  - apply len_slice; nia.
  - intros j. apply getZ_slice; nia.
Qed.

Lemma slots_spec k i j data :
  0 ≤ nZ c → 0 ≤ nN c → 0 ≤ k ≤ 1 → 0 ≤ i → 0 ≤ j →
  (i + 1) * (nN c * nZ c) ≤ len data → (j + 1) * (nN c * nZ c) ≤ len data →
  len (slots c k i j data) = 2 * nN c * nZ c
  ∧ slot_of c k (slots c k i j data) = block c i data
  ∧ slot_of c (Z.rem (k + 1) 2) (slots c k i j data) = block c j data.
Proof.
  intros Hz Hn Hk Hi Hj Hli Hlj.
  assert (0 ≤ nN c * nZ c) as HN by nia.
  destruct (block_spec i data HN Hi Hli) as [Hbi Hgi].
  destruct (block_spec j data HN Hj Hlj) as [Hbj Hgj].
  unfold slots, slot_of.
  assert (k = 0 ∨ k = 1) as [-> | ->] by lia; simpl (_ =? _).
  all: try change ((0 + 1) `rem` 2) with 1.
  all: try change ((1 + 1) `rem` 2) with 0.
  all: split; [rewrite len_app; lia|].
  all: split; apply list_eq_getZ;
    try (rewrite len_slice; rewrite ?len_app; lia).
  all: intros q Hq; rewrite len_slice in Hq by (rewrite ?len_app; lia);
    rewrite getZ_slice by (rewrite ?len_app; lia);
    rewrite decide_True by done; rewrite getZ_app;
    case_decide; try lia; f_equal; lia.
Qed.

(** The checkpoint of the decoded file is the file. *)
Lemma checkpoint_decoded s data :
  0 ≤ nZ c → 0 ≤ nN c → 0 ≤ current s ≤ 1 →
  len data = 7 * (nN c * nZ c) →
  checkpoint c (decoded c s data) = data.
Proof.
  intros Hz Hn Hk Hlen. assert (0 ≤ nN c * nZ c) as HN by nia.
  unfold checkpoint. cbn [decoded mem current].
  destruct (slots_spec (current s) 3 4 data) as (_ & -> & ->); try lia.
  destruct (slots_spec (current s) 5 6 data) as (_ & -> & ->); try lia.
  assert (∀ i, 0 ≤ i < 7 →
    len (block c i data) = nN c * nZ c
    ∧ ∀ j, getZ (block c i data) j
           = if decide (0 ≤ j < nN c * nZ c)
             then getZ data (i * (nN c * nZ c) + j) else None) as Hb.
  { intros i Hi. apply block_spec; [done | lia | nia]. }
  destruct (Hb 0) as [H0 G0]; [lia|]. destruct (Hb 1) as [H1 G1]; [lia|].
  destruct (Hb 2) as [H2 G2]; [lia|]. destruct (Hb 3) as [H3 G3]; [lia|].
  destruct (Hb 4) as [H4 G4]; [lia|]. destruct (Hb 5) as [H5 G5]; [lia|].
  destruct (Hb 6) as [H6 G6]; [lia|].
  apply list_eq_getZ; [rewrite !len_app; lia|].
  intros j Hj. rewrite !len_app in Hj.
  rewrite !getZ_app, G0, G1, G2, G3, G4, G5, G6.
  repeat case_decide; try lia; f_equal; lia.
Qed.

Lemma decoded_well_formed s data :
  well_formed c s → len data = 7 * (nN c * nZ c) →
  well_formed c (decoded c s data).
Proof.
  intros (Hz & Hn & Hk & Hl) Hlen. assert (0 ≤ nN c * nZ c) as HN by nia.
  split; [done|]. split; [done|]. split; [done|].
  intros x. destruct x; cbn [decoded mem array_size]; try apply Hl.
  - apply block_spec; [done | lia | nia].
  - apply block_spec; [done | lia | nia].
  - apply block_spec; [done | lia | nia].
  - apply slots_spec; try lia.
  - apply slots_spec; try lia.
Qed.

(** Loading a file of the full length stores its seven blocks. *)
Lemma load_decodes s file data :
  well_formed c s → fs s !! file = Some data →
  len data = 7 * (nN c * nZ c) →
  ∃ s1, load c Tmp Omg Psi file s = Ok s1
        ∧ (∀ x, mem s1 x = mem (decoded c s data) x)
        ∧ same_scalars s s1.
Proof.
  intros Hwf Hfile Hlen. pose proof Hwf as (Hz & Hn & Hk & _).
  destruct (load_spec c (decoded c s data) s file) as
    (s1 & Hload & HT & HW & HP & HdT & HdW & HX & HdX & Hsc).
  - by apply decoded_well_formed.
  - done.
  - done.
  - by rewrite checkpoint_decoded.
  - exists s1. split; [done|]. split; [|done].
    intros x. by destruct x.
Qed.

(** X4: reading a checkpoint file of the full length and saving at once writes
    the same doubles back: [save] undoes [load], as [load] undoes [save]. *)
Theorem load_then_save_reproduces_file (s : Sim) (file : string)
    (data : list float) :
  well_formed c s →
  fs s !! file = Some data →
  len data = 7 * (nN c * nZ c) →
  vars_name E c (saveNumber s) ∉ fs_denied s →
  ∃ s1 s2, load c Tmp Omg Psi file s = Ok s1
    ∧ save E c s1 = Ok s2
    ∧ fs s2 !! vars_name E c (saveNumber s) = Some data.
Proof.
  intros Hwf Hfile Hlen Hden.
  destruct (load_decodes s file data Hwf Hfile Hlen) as (s1 & Hload & Hmem & Hsc).
  pose proof (decoded_well_formed s data Hwf Hlen) as Hwfd.
  assert (well_formed c s1) as Hwf1.
  { destruct Hwfd as (Hz & Hn & Hk & Hl).
    split; [done|]. split; [done|]. split.
    - by rewrite (ss_current _ _ Hsc).
    - intros x. rewrite Hmem. apply Hl. }
  destruct (save_spec E c s1 Hwf1) as (s2 & Hsave & Hfs & _).
  { by rewrite (ss_saveNumber _ _ Hsc), (ss_fs_denied _ _ Hsc). }
  exists s1, s2. split; [done|]. split; [done|].
  rewrite Hfs, (ss_saveNumber _ _ Hsc), lookup_insert_eq. f_equal.
  destruct Hwf as (Hz & Hn & Hk & _).
  etrans; [|exact (checkpoint_decoded s data Hz Hn Hk Hlen)].
  unfold checkpoint. rewrite !Hmem. by rewrite (ss_current _ _ Hsc).
Qed.

(** A read never fails when the block fits into the array, whatever is left
    of the file. *)
Lemma file_read_total x off n s stream :
  0 ≤ off → 0 ≤ n → off + n ≤ len (mem s x) →
  ∃ s' stream', file_read x off n (s, stream) = Ok (s', stream')
    ∧ same_scalars s s' ∧ same_lengths s s'
    ∧ (∀ y, y ≠ x → mem s' y = mem s y)
    ∧ (stream = None → s' = s ∧ stream' = None)
    ∧ (∀ rest, stream = Some rest → len rest < n →
         stream' = None ∧ blit (mem s x) off rest = Ok (mem s' x)).
Proof.
  intros Hoff Hn Hlen. unfold file_read.
  destruct stream as [rest|].
  - destruct (Z.leb_spec n (len rest)) as [Hle|Hlt].
    + assert (len (take (Z.to_nat n) rest) = n) as Ht
        by (unfold len in *; rewrite length_take; lia).
      destruct (blit_in_range (mem s x) off (take (Z.to_nat n) rest))
        as [l Hl]; [done | lia |].
      rewrite Hl. simpl. eexists _, _. split; [done|].
      apply blit_Ok in Hl as (_ & _ & Hlen' & _).
      split; [apply same_scalars_set_mem|]. split.
      { intros y. destruct (decide (y = x)) as [->|Hne].
        - by rewrite mem_set_mem_eq.
        - by rewrite mem_set_mem_ne. }
      split; [intros y Hy; by rewrite mem_set_mem_ne|].
      split; [done|]. intros rest' [= <-] Hr. lia.
    + destruct (blit_in_range (mem s x) off rest) as [l Hl]; [done | lia |].
      rewrite Hl. simpl. eexists _, _. split; [done|].
      pose proof (blit_Ok _ _ _ _ Hl) as (_ & _ & Hlen' & _).
      split; [apply same_scalars_set_mem|]. split.
      { intros y. destruct (decide (y = x)) as [->|Hne].
        - by rewrite mem_set_mem_eq.
        - by rewrite mem_set_mem_ne. }
      split; [intros y Hy; by rewrite mem_set_mem_ne|].
      split; [done|]. intros rest' [= <-] Hr.
      by rewrite mem_set_mem_eq.
  - eexists _, _. split; [done|].
    split; [apply same_scalars_refl|]. split; [done|].
    split; [done|]. split; [done|]. intros rest' [=].
Qed.

(** X5: [load] never rejects a file it could open. The length of the file is
    not looked at: the blocks are read as far as the file goes and the rest
    of the arrays keeps its contents, without a diagnostic. In particular a
    file shorter than one block overwrites the beginning of [tmp] and
    nothing else. [xi] and [dXidt] are never read from a checkpoint. *)
Theorem load_accepts_any_length (s : Sim) (file : string) (data : list float) :
  well_formed c s →
  fs s !! file = Some data →
  ∃ s', load c Tmp Omg Psi file s = Ok s'
    ∧ well_formed c s' ∧ same_scalars s s'
    ∧ mem s' Xi = mem s Xi ∧ mem s' DXidt = mem s DXidt
    ∧ (len data < nN c * nZ c →
         mem s' Tmp = data ++ drop (length data) (mem s Tmp)
         ∧ ∀ x, x ≠ Tmp → mem s' x = mem s x).
Proof.
  intros Hwf Hfile. pose proof Hwf as (Hz & Hn & Hk & Hlen).
  pose proof (rem_succ_2_range _ Hk) as Ho.
  destruct (slot_range c s _ Hwf Hk) as (Hc1 & HN & Hc3).
  destruct (slot_range c s _ Hwf Ho) as (Ho1 & _ & Ho3).
  unfold load. rewrite Hfile.
  destruct (file_read_total Tmp 0 (nN c * nZ c) s (Some data))
    as (s1 & r1 & -> & Hs1 & Hl1 & Hm1 & _ & Hshort1);
    [lia | lia | rewrite Hlen; simpl; lia |].
  cbn [mbind result_bind].
  destruct (file_read_total Omg 0 (nN c * nZ c) s1 r1)
    as (s2 & r2 & -> & Hs2 & Hl2 & Hm2 & Hnone2 & _);
    [lia | lia | rewrite Hl1, Hlen; simpl; lia |].
  cbn [mbind result_bind].
  destruct (file_read_total Psi 0 (nN c * nZ c) s2 r2)
    as (s3 & r3 & -> & Hs3 & Hl3 & Hm3 & Hnone3 & _);
    [lia | lia | rewrite Hl2, Hl1, Hlen; simpl; lia |].
  cbn [mbind result_bind].
  destruct (file_read_total DTmpdt (current s * nZ c * nN c) (nN c * nZ c) s3 r3)
    as (s4 & r4 & -> & Hs4 & Hl4 & Hm4 & Hnone4 & _);
    [lia | lia | rewrite Hl3, Hl2, Hl1, Hlen; simpl; lia |].
  cbn [mbind result_bind].
  destruct (file_read_total DTmpdt (Z.rem (current s + 1) 2 * nZ c * nN c)
              (nN c * nZ c) s4 r4)
    as (s5 & r5 & -> & Hs5 & Hl5 & Hm5 & Hnone5 & _);
    [lia | lia | rewrite Hl4, Hl3, Hl2, Hl1, Hlen; simpl; lia |].
  cbn [mbind result_bind].
  destruct (file_read_total DOmgdt (current s * nZ c * nN c) (nN c * nZ c) s5 r5)
    as (s6 & r6 & -> & Hs6 & Hl6 & Hm6 & Hnone6 & _);
    [lia | lia | rewrite Hl5, Hl4, Hl3, Hl2, Hl1, Hlen; simpl; lia |].
  cbn [mbind result_bind].
  destruct (file_read_total DOmgdt (Z.rem (current s + 1) 2 * nZ c * nN c)
              (nN c * nZ c) s6 r6)
    as (s7 & r7 & -> & Hs7 & Hl7 & Hm7 & Hnone7 & _);
    [lia | lia | rewrite Hl6, Hl5, Hl4, Hl3, Hl2, Hl1, Hlen; simpl; lia |].
  cbn [mbind result_bind fst].
  exists s7. split; [done|].
  assert (same_scalars s s7) as Hsc
    by (repeat (eapply same_scalars_trans; [|eassumption]); done).
  split.
  { split; [done|]. split; [done|]. split.
    - by rewrite (ss_current _ _ Hsc).
    - intros x. by rewrite Hl7, Hl6, Hl5, Hl4, Hl3, Hl2, Hl1. }
  split; [done|].
  split; [by rewrite Hm7, Hm6, Hm5, Hm4, Hm3, Hm2, Hm1|].
  split; [by rewrite Hm7, Hm6, Hm5, Hm4, Hm3, Hm2, Hm1|].
  intros Hshort.
  destruct (Hshort1 data eq_refl Hshort) as [-> Hb].
  destruct (Hnone2 eq_refl) as [-> ->]. destruct (Hnone3 eq_refl) as [-> ->].
  destruct (Hnone4 eq_refl) as [-> ->]. destruct (Hnone5 eq_refl) as [-> ->].
  destruct (Hnone6 eq_refl) as [-> ->]. destruct (Hnone7 eq_refl) as [-> ->].
  split; [|done].
  unfold blit in Hb.
  destruct ((0 <=? 0) && (0 + len data <=? len (mem s Tmp))); [|done].
  by injection Hb as <-.
Qed.

End CheckpointFiles.

(** ** Loops that keep a property of the state *)

Lemma for_loop_keeps {St : Type} (P : St → Prop) lo hi
    (body : Z → St → result St) s :
  P s →
  (∀ i x, lo ≤ i < hi → P x → ∃ y, body i x = Ok y ∧ P y) →
  ∃ s', for_loop lo hi body s = Ok s' ∧ P s'.
Proof.
  intros Hs Hbody. destruct (Z.le_gt_cases hi lo).
  - rewrite for_loop_nil by done. eauto.
  - apply (for_loop_total (λ _ y, P y)); [lia | done |].
    intros i y Hi Hy. by apply Hbody.
Qed.

(** ** Sums accumulated by a loop *)

Lemma accumulate_loop_value {St : Type} lo hi
    (body : Z → St * float → result (St * float))
    (val : Z → St → result float) (w : Z → float) s acc st' :
  (∀ k st, body k st = v ← val k st.1; Ok (st.1, (st.2 + v)%float)) →
  (∀ k v, lo ≤ k < hi → val k s = Ok v → v = w k) →
  for_loop lo hi body (s, acc) = Ok st' →
  st' = (s, fold_left (λ a k, a + w k)%float (seqZ lo (hi - lo)) acc).
Proof.
  intros Hbody Hval H.
  destruct (Z.le_gt_cases hi lo) as [Hle|Hlt].
  { rewrite for_loop_nil in H by done. injection H as <-.
    by replace (seqZ lo (hi - lo)) with (@nil Z)
      by (unfold seqZ; by replace (Z.to_nat (hi - lo)) with O by lia). }
  eapply (for_loop_inv (λ i st,
            st = (s, fold_left (λ a k, a + w k)%float (seqZ lo (i - lo)) acc)));
    [| | | exact H]; [lia | by rewrite Z.sub_diag |].
  intros i x y Hi -> Hy. rewrite Hbody in Hy. simpl in Hy.
  apply bind_Ok in Hy as (v & Hv & Hy). injection Hy as <-. f_equal.
  replace (i + 1 - lo) with (i - lo + 1) by lia.
  rewrite seqZ_snoc by lia. rewrite fold_left_app. simpl.
  replace (lo + (i - lo)) with i by lia.
  by rewrite (Hval i v) by (done || lia).
Qed.

Lemma accumulate_loop_total {St : Type} lo hi
    (body : Z → St * float → result (St * float))
    (val : Z → St → result float) (w : Z → float) s acc :
  (∀ k st, body k st = v ← val k st.1; Ok (st.1, (st.2 + v)%float)) →
  (∀ k, lo ≤ k < hi → val k s = Ok (w k)) →
  for_loop lo hi body (s, acc)
  = Ok (s, fold_left (λ a k, a + w k)%float (seqZ lo (hi - lo)) acc).
Proof.
  intros Hbody Hval.
  destruct (Z.le_gt_cases hi lo) as [Hle|Hlt].
  { rewrite for_loop_nil by done.
    by replace (seqZ lo (hi - lo)) with (@nil Z)
      by (unfold seqZ; by replace (Z.to_nat (hi - lo)) with O by lia). }
  destruct (for_loop_total (λ i st,
            st = (s, fold_left (λ a k, a + w k)%float (seqZ lo (i - lo)) acc))
            lo hi body (s, acc)) as (st' & -> & ->);
    [lia | by rewrite Z.sub_diag | | done].
  intros i x Hi ->. rewrite Hbody. simpl. rewrite Hval by done. simpl.
  eexists. split; [done|]. f_equal.
  replace (i + 1 - lo) with (i - lo + 1) by lia.
  rewrite seqZ_snoc by lia. rewrite fold_left_app. simpl.
  by replace (lo + (i - lo)) with i by lia.
Qed.

(** ** The kinetic energy and its streams *)

Section KineticEnergy.

Context (E : External) (c : Constants).

Lemma calcKineticEnergyForMode_value n s v :
  calcKineticEnergyForMode E c n s = Ok v → v = ke_mode_at E c n (mem s Psi).
Proof.
  unfold calcKineticEnergyForMode. intros H. inv_bind H.
  destruct x1 as [s1 ke]. injection H as <-.
  apply rd_at in Hx, Hx0. subst x x0.
  eapply (accumulate_loop_value 1 (nZ c - 1) _
            (λ k s, dp ← dfdz (mem s Psi) (nZ c * n + k) (dz c);
                    pv ← rd (mem s Psi) (nZ c * n + k);
                    Ok (c_pow E dp 2 + c_pow E (kx c n * pv) 2)%float)
            (ke_interior E c n (mem s Psi))) in Hx1.
  - injection Hx1 as _ ->. unfold ke_mode_at.
    by replace (nZ c - 1 - 1) with (nZ c - 2) by lia.
  - intros k st. cbv beta.
    destruct (dfdz _ _ _); simpl; [|done]. by destruct (rd _ _).
  - intros k v _ Hv. inv_bind Hv. injection Hv as <-.
    apply dfdz_at_Ok in Hx. apply rd_at in Hx0. by subst.
Qed.

Lemma dfdz_in_range l i h :
  0 ≤ i - 1 → i + 1 < len l → dfdz l i h = Ok (dfdz_at l i h).
Proof.
  intros H1 H2. unfold dfdz, dfdz_at. by rewrite !rd_in_range by lia.
Qed.

Lemma calcKineticEnergyForMode_completes n s :
  1 ≤ nZ c → 0 ≤ n < nN c → len (mem s Psi) = nN c * nZ c →
  calcKineticEnergyForMode E c n s = Ok (ke_mode_at E c n (mem s Psi)).
Proof.
  intros Hz Hn Hlen. unfold calcKineticEnergyForMode.
  assert (0 ≤ n * nZ c ∧ n * nZ c + nZ c ≤ nN c * nZ c) as [Hlo Hhi] by nia.
  rewrite !rd_in_range by lia. cbn [mbind result_bind].
  rewrite (accumulate_loop_total 1 (nZ c - 1) _
            (λ k s, dp ← dfdz (mem s Psi) (nZ c * n + k) (dz c);
                    pv ← rd (mem s Psi) (nZ c * n + k);
                    Ok (c_pow E dp 2 + c_pow E (kx c n * pv) 2)%float)
            (ke_interior E c n (mem s Psi))).
  - cbn [mbind result_bind]. unfold ke_mode_at.
    by replace (nZ c - 1 - 1) with (nZ c - 2) by lia.
  - intros k st. cbv beta.
    destruct (dfdz _ _ _); simpl; [|done]. by destruct (rd _ _).
  - intros k Hk. rewrite dfdz_in_range by lia.
    rewrite rd_in_range by lia. done.
Qed.

Lemma calcKineticEnergy_value s v :
  calcKineticEnergy E c s = Ok v → v = ke_total_at E c (mem s Psi).
Proof.
  unfold calcKineticEnergy. intros H. inv_bind H.
  destruct x as [s1 ke]. injection H as <-.
  eapply (accumulate_loop_value 0 (nN c) _
            (λ n s, calcKineticEnergyForMode E c n s)
            (λ n, ke_mode_at E c n (mem s Psi))) in Hx.
  - injection Hx as _ ->. unfold ke_total_at.
    by rewrite Z.sub_0_r.
  - done.
  - intros n v _ Hv. by apply calcKineticEnergyForMode_value.
Qed.

Lemma calcKineticEnergy_completes s :
  1 ≤ nZ c → len (mem s Psi) = nN c * nZ c →
  calcKineticEnergy E c s = Ok (ke_total_at E c (mem s Psi)).
Proof.
  intros Hz Hlen. unfold calcKineticEnergy.
  rewrite (accumulate_loop_total 0 (nN c) _
            (λ n s, calcKineticEnergyForMode E c n s)
            (λ n, ke_mode_at E c n (mem s Psi))).
  - cbn [mbind result_bind]. unfold ke_total_at. by rewrite Z.sub_0_r.
  - done.
  - intros n Hn. by apply calcKineticEnergyForMode_completes.
Qed.

Lemma fs_append_double name v s name' :
  fs (append_double name v s) !! name'
  = if decide (name' = name ∧ name ∉ fs_denied s)
    then appended (fs s) name v else fs s !! name'.
Proof.
  unfold append_double, appended. case_decide as Hden.
  - rewrite decide_False; [done | tauto].
  - simpl. destruct (decide (name' = name)) as [->|Hne].
    + rewrite decide_True by done. by rewrite lookup_insert_eq.
    + rewrite decide_False by tauto. by rewrite lookup_insert_ne.
Qed.

Lemma append_double_scalars name v s :
  kePrev (append_double name v s) = kePrev s
  ∧ keCurrent (append_double name v s) = keCurrent s
  ∧ saveNumber (append_double name v s) = saveNumber s
  ∧ fs_denied (append_double name v s) = fs_denied s.
Proof. unfold append_double. by case_decide. Qed.

(** What a call of [saveKineticEnergy] that completes has done. *)
Lemma saveKineticEnergy_effects s s' :
  saveKineticEnergy E c s = Ok s' →
  same_simulation s s'
  ∧ kePrev s' = keCurrent s
  ∧ keCurrent s' = ke_total_at E c (mem s Psi)
  ∧ saveNumber s' = saveNumber s ∧ fs_denied s' = fs_denied s
  ∧ fs s' !! ke_total_name c
    = (if decide (ke_total_name c ∈ fs_denied s) then fs s !! ke_total_name c
       else appended (fs s) (ke_total_name c) (ke_total_at E c (mem s Psi)))
  ∧ (∀ name, name ≠ ke_total_name c →
       (∀ n, 1 ≤ n < nN c → name ≠ ke_mode_name E c n) →
       fs s' !! name = fs s !! name)
  ∧ ((∀ n m, 1 ≤ n < nN c → 1 ≤ m < nN c →
        strFromNumber E n = strFromNumber E m → n = m) →
     ∀ n, 1 ≤ n < nN c → ke_mode_name E c n ∉ fs_denied s →
       fs s' !! ke_mode_name E c n
       = appended (fs s) (ke_mode_name E c n)
           (ke_mode_at E c n (mem s Psi))).
Proof.
  unfold saveKineticEnergy. intros H. inv_bind H.
  apply calcKineticEnergy_value in Hx. subst x.
  set (total := ke_total_at E c (mem s Psi)) in *.
  set (s0 := append_double _ total (set_ke (keCurrent s) total s)) in *.
  pose (I := λ (n0 : Z) (y : Sim),
    same_simulation s y
    ∧ kePrev y = keCurrent s ∧ keCurrent y = total
    ∧ saveNumber y = saveNumber s ∧ fs_denied y = fs_denied s
    ∧ fs y !! ke_total_name c = fs s0 !! ke_total_name c
    ∧ (∀ name, name ≠ ke_total_name c →
         (∀ n, 1 ≤ n < nN c → name ≠ ke_mode_name E c n) →
         fs y !! name = fs s !! name)
    ∧ ((∀ n m, 1 ≤ n < nN c → 1 ≤ m < nN c →
          strFromNumber E n = strFromNumber E m → n = m) →
       ∀ n, 1 ≤ n < nN c →
         fs y !! ke_mode_name E c n
         = if decide (n < n0 ∧ ke_mode_name E c n ∉ fs_denied s)
           then appended (fs s) (ke_mode_name E c n)
                  (ke_mode_at E c n (mem s Psi))
           else fs s !! ke_mode_name E c n)).
  assert (I 1 s0) as HI0.
  { subst s0. unfold I.
    destruct (append_double_scalars (saveFolder c +:+ "KineticEnergy" +:+ ".dat")
                total (set_ke (keCurrent s) total s)) as (-> & -> & -> & ->).
    split; [|split_and!; try done].
    - eapply same_simulation_trans; [|apply append_double_same]. done.
    - intros name Hname _. rewrite fs_append_double, decide_False; [done|].
      tauto.
    - intros _ n Hn. rewrite decide_False by lia.
      rewrite fs_append_double, decide_False; [done|].
      intros [Heq _]. symmetry in Heq.
      by apply total_name_not_mode_name in Heq. }
  assert (I (Z.max 1 (nN c)) s') as HI.
  { destruct (Z.le_gt_cases (nN c) 1) as [Hle|Hgt].
    { rewrite for_loop_nil in H by done. injection H as <-.
      by replace (Z.max 1 (nN c)) with 1 by lia. }
    replace (Z.max 1 (nN c)) with (nN c) by lia.
    eapply (for_loop_inv I); [| | | exact H]; [lia | done |].
    clear H. intros n0 y y' Hn0
      (Hsame & Hprev & Hcur & Hnum & Hden & Htot & Hframe & Hmodes) Hy'.
    cbv beta in Hy'. inv_bind Hy'. injection Hy' as <-.
    apply calcKineticEnergyForMode_value in Hx. subst x.
    destruct Hsame as (Hmem & Hrest).
    fold (ke_mode_name E c n0).
    assert (same_simulation y (append_double (ke_mode_name E c n0)
              (ke_mode_at E c n0 (mem y Psi)) y)) as Hsame'
      by apply append_double_same.
    split; [by eapply same_simulation_trans|].
    destruct (append_double_scalars (ke_mode_name E c n0)
                (ke_mode_at E c n0 (mem y Psi)) y) as (-> & -> & -> & ->).
    split; [done|]. split; [done|]. split; [done|]. split; [done|].
    split; [|split].
    - rewrite fs_append_double, decide_False; [done|].
      intros [Heq _]. by apply total_name_not_mode_name in Heq.
    - intros name Hname Hmode. rewrite fs_append_double, decide_False.
      + by apply Hframe.
      + intros [-> _]. by apply (Hmode n0).
    - intros Hinj n Hn. rewrite fs_append_double, Hden, Hmem.
      destruct (decide (n = n0)) as [->|Hne].
      + destruct (decide (ke_mode_name E c n0 ∈ fs_denied s)) as [Hd|Hd].
        * rewrite (Hmodes Hinj n0 Hn). by rewrite !decide_False by tauto.
        * rewrite decide_True by done.
          rewrite decide_True by (split; [lia | done]).
          unfold appended. rewrite (Hmodes Hinj n0 Hn).
          by rewrite decide_False by lia.
      + rewrite decide_False.
        * rewrite Hmodes by done.
          destruct (decide (ke_mode_name E c n ∈ fs_denied s)) as [Hd|Hd].
          -- by rewrite !decide_False by tauto.
          -- destruct (decide (n < n0)).
             ++ by rewrite !decide_True by (split; [lia | done]).
             ++ by rewrite !decide_False by lia.
        * intros [Heq _]. apply mode_name_inj in Heq.
          apply Hne, Hinj; [done | lia | done]. }
  destruct HI as (Hsame & Hprev & Hcur & Hnum & Hden & Htot & Hframe & Hmodes).
  split_and!; try done.
  - rewrite Htot. subst s0. rewrite fs_append_double.
    destruct (decide (ke_total_name c ∈ fs_denied s)) as [Hd|Hd].
    + rewrite decide_False; [done|]. intros [_ Hn]. by apply Hn.
    + rewrite decide_True; [done|]. split; [done | exact Hd].
  - intros Hinj n Hn Hd. rewrite Hmodes by done.
    by rewrite decide_True by (split; [lia | done]).
Qed.

Lemma saveKineticEnergy_completes s :
  1 ≤ nZ c → len (mem s Psi) = nN c * nZ c →
  ∃ s', saveKineticEnergy E c s = Ok s'.
Proof.
  intros Hz Hlen. unfold saveKineticEnergy.
  rewrite calcKineticEnergy_completes by done. cbn [mbind result_bind].
  edestruct (for_loop_keeps (λ y, mem y = mem s) 1 (nN c)) as (s' & Hs' & _);
    [| |eauto].
  - unfold append_double. by case_decide.
  - intros n y Hn Hy. cbv beta.
    rewrite calcKineticEnergyForMode_completes by (done || lia || by rewrite Hy).
    cbn [mbind result_bind]. eexists. split; [done|].
    unfold append_double. by case_decide.
Qed.

(** X6: one call of [saveKineticEnergy] on a grid with at least one row, the
    array [psi] having its allocated size: the call completes without
    touching the arrays; the previous total moves to [kePrev], the new total
    is in [keCurrent]; the total is appended as one double to
    KineticEnergy.dat, and, when [strFromNumber] names the modes apart, the
    energy of every mode n = 1 .. nN-1 is appended as one double to its own
    KineticEnergyMode<n>.dat. Files that cannot be opened are skipped. *)
Theorem saveKineticEnergy_appends_samples (s : Sim) :
  1 ≤ nZ c → len (mem s Psi) = nN c * nZ c →
  ∃ s', saveKineticEnergy E c s = Ok s'
    ∧ same_simulation s s'
    ∧ kePrev s' = keCurrent s
    ∧ keCurrent s' = ke_total_at E c (mem s Psi)
    ∧ saveNumber s' = saveNumber s ∧ fs_denied s' = fs_denied s
    ∧ (ke_total_name c ∉ fs_denied s →
         fs s' !! ke_total_name c
         = appended (fs s) (ke_total_name c) (ke_total_at E c (mem s Psi)))
    ∧ ((∀ n m, 1 ≤ n < nN c → 1 ≤ m < nN c →
          strFromNumber E n = strFromNumber E m → n = m) →
       ∀ n, 1 ≤ n < nN c → ke_mode_name E c n ∉ fs_denied s →
         fs s' !! ke_mode_name E c n
         = appended (fs s) (ke_mode_name E c n)
             (ke_mode_at E c n (mem s Psi))).
Proof.
  intros Hz Hlen.
  destruct (saveKineticEnergy_completes s Hz Hlen) as [s' Hs'].
  exists s'. split; [exact Hs'|].
  destruct (saveKineticEnergy_effects s s' Hs')
    as (Hsame & Hprev & Hcur & Hnum & Hden & Htot & _ & Hmodes).
  split; [done|]. split; [done|]. split; [done|]. split; [done|].
  split; [done|]. split; [|done].
  intros Hd. rewrite Htot. by rewrite decide_False.
Qed.

End KineticEnergy.

(** ** The update of the second scalar *)

Section UpdateXi.

Context (c : Constants).

(** X7: [updateXi] advances every cell of [xi], boundary rows included, by the
    Adams-Bashforth increment of the two slots of [dXidt], and changes
    nothing else. *)
Theorem updateXi_adds_increment (frac : float) (s s' : Sim) :
  updateXi c frac s = Ok s' →
  same_scalars s s'
  ∧ (∀ x, x ≠ Xi → mem s' x = mem s x)
  ∧ len (mem s' Xi) = len (mem s Xi)
  ∧ (∀ n k, 0 ≤ n < nN c → 0 ≤ k < nZ c →
       getZ (mem s' Xi) (n * nZ c + k)
       = Some (at_ (mem s Xi) (n * nZ c + k)
               + ab_increment c frac (mem s DXidt) (current s) n k)%float)
  ∧ (∀ j, ¬ field_cells c j → getZ (mem s' Xi) j = getZ (mem s Xi) j).
Proof.
  intros H. destruct (updateXi_frame c frac s s' H) as [Hsc Hother].
  split; [done|]. split; [done|].
  pose (seen := λ (n0 k0 n k : Z), n < n0 ∨ (n = n0 ∧ k < k0)).
  pose (I := λ (n0 k0 : Z) (y : Sim),
    current y = current s ∧ mem y DXidt = mem s DXidt
    ∧ len (mem y Xi) = len (mem s Xi)
    ∧ (∀ n k, 0 ≤ n → 0 ≤ k < nZ c →
         getZ (mem y Xi) (n * nZ c + k)
         = if decide (seen n0 k0 n k)
           then Some (at_ (mem s Xi) (n * nZ c + k)
                      + ab_increment c frac (mem s DXidt) (current s) n k)%float
           else getZ (mem s Xi) (n * nZ c + k))
    ∧ (∀ j, ¬ field_cells c j → getZ (mem y Xi) j = getZ (mem s Xi) j)).
  assert (I (Z.max 0 (nN c)) 0 s') as (_ & _ & Hlen & Hval & Hout).
  { unfold updateXi in H.
    destruct (Z.le_gt_cases (nN c) 0) as [Hn|Hn].
    { rewrite for_loop_nil in H by done. injection H as <-.
      replace (Z.max 0 (nN c)) with 0 by lia.
      split_and!; try done. intros n k Hn0 Hk.
      rewrite decide_False; [done | unfold seen; lia]. }
    replace (Z.max 0 (nN c)) with (nN c) by lia.
    eapply (for_loop_inv (λ n0 y, I n0 0 y)); [| | | exact H]; [lia | |].
    { split_and!; try done. intros n k Hn0 Hk.
      rewrite decide_False; [done | unfold seen; lia]. }
    clear H. intros n0 y y' Hn0 HI Hy'. cbv beta in Hy'.
    destruct (Z.le_gt_cases (nZ c) 0) as [Hz|Hz].
    { rewrite for_loop_nil in Hy' by done. injection Hy' as <-.
      destruct HI as (? & ? & ? & Hv & ?). split_and!; try done.
      intros n k ? ?. lia. }
    assert (I n0 (nZ c) y') as (Hc' & Hd' & Hl' & Hv' & Ho').
    { eapply (for_loop_inv (λ k0 y, I n0 k0 y)); [| | | exact Hy'];
        [lia | done |].
      clear dependent y y'.
      intros k0 y y' Hk0 (Hc & Hd & Hl & Hv & Ho) Hy'. cbv beta in Hy'.
      inv_bind Hy'. apply store_Ok in Hy' as [Hr ->]. unfold I. simpl_sim.
      apply rd_at in Hx, Hx0, Hx1. subst x x0 x1.
      rewrite Hc, Hd.
      assert (at_ (mem y Xi) (n0 * nZ c + k0) = at_ (mem s Xi) (n0 * nZ c + k0))
        as ->.
      { unfold at_. rewrite Hv by lia.
        rewrite decide_False; [done | unfold seen; lia]. }
      split_and!; try done.
      - by rewrite len_insert.
      - intros n k Hn' Hk. rewrite getZ_insert by done.
        destruct (decide (n * nZ c + k = n0 * nZ c + k0)) as [Heq|Hne].
        + apply (field_index_inj c) in Heq as [-> ->]; [|lia|lia].
          rewrite decide_True by (unfold seen; lia). done.
        + rewrite Hv by done.
          destruct (decide (seen n0 k0 n k)) as [Hs|Hs].
          * rewrite decide_True; [done | unfold seen in *; lia].
          * rewrite decide_False; [done|]. unfold seen in *.
            intros [?|[-> ?]]; [lia|].
            destruct (decide (k = k0)) as [->|]; [done | lia].
      - intros j Hj. rewrite getZ_insert by done.
        rewrite decide_False; [by apply Ho|].
        intros ->. apply Hj. exists n0, k0. lia. }
    split_and!; try done.
    intros n k Hn' Hk. rewrite Hv' by done.
    destruct (decide (seen n0 (nZ c) n k)) as [Hs|Hs].
    - rewrite decide_True; [done | unfold seen in *; lia].
    - rewrite decide_False; [done | unfold seen in *; lia]. }
  split; [done|]. split; [|done].
  intros n k Hn Hk. rewrite Hval by lia.
  rewrite decide_True; [done | unfold seen; lia].
Qed.

End UpdateXi.

(** ** What the assertions of the update establish *)

Section UpdateChecks.

Context (E : External) (c : Constants).

Lemma update_cell_checks frac n k s s' :
  NDEBUG E = false →
  update_cell E c frac n k s = Ok s' →
  PrimFloat.is_nan (at_ (mem s' Tmp) (n * nZ c + k)) = false
  ∧ PrimFloat.is_nan (at_ (mem s' Omg) (n * nZ c + k)) = false.
Proof.
  intros Hd H. unfold update_cell in H. inv_bind H. injection H as <-.
  apply (assert_rd_Ok E) in Hx7, Hx8; [|done|done].
  by apply negb_true_iff in Hx7, Hx8.
Qed.

Lemma update_check_bcs_checks n s s' :
  NDEBUG E = false →
  update_check_bcs E c n s = Ok s' →
  (if 0 <? n then (at_ (mem s Tmp) (n * nZ c) <? EPSILON E)%float
   else (at_ (mem s Tmp) (n * nZ c) - 1.0 <? EPSILON E)%float) = true
  ∧ (at_ (mem s Tmp) (n * nZ c + nZ c - 1) <? EPSILON E)%float = true
  ∧ (at_ (mem s Omg) (n * nZ c) <? EPSILON E)%float = true
  ∧ (at_ (mem s Omg) (n * nZ c + nZ c - 1) <? EPSILON E)%float = true.
Proof.
  intros Hd H. unfold update_check_bcs in H. inv_bind H.
  apply (assert_rd_Ok E) in Hx0, Hx1, Hx2; try done.
  split_and!; try done.
  destruct (0 <? n); by apply (assert_rd_Ok E) in Hx.
Qed.

(** X8: in a build with assertions, an update that completes has checked every
    cell it wrote: no cell of [tmp] or [omg] is a NaN afterwards, and at the
    two end rows of every mode [tmp] and [omg] are below EPSILON ([tmp] of
    mode 0 at row 0: below 1 + EPSILON). The checks are one-sided: they
    bound the values from above only. *)
Theorem updateTmpAndOmg_checks (frac : float) (s s' : Sim) :
  NDEBUG E = false →
  updateTmpAndOmg E c frac s = Ok s' →
  (∀ n k, 0 ≤ n < nN c → 0 ≤ k < nZ c →
     PrimFloat.is_nan (at_ (mem s' Tmp) (n * nZ c + k)) = false
     ∧ PrimFloat.is_nan (at_ (mem s' Omg) (n * nZ c + k)) = false)
  ∧ (∀ n, 0 ≤ n < nN c →
       (if 0 <? n then (at_ (mem s' Tmp) (n * nZ c) <? EPSILON E)%float
        else (at_ (mem s' Tmp) (n * nZ c) - 1.0 <? EPSILON E)%float) = true
       ∧ (at_ (mem s' Tmp) (n * nZ c + nZ c - 1) <? EPSILON E)%float = true
       ∧ (at_ (mem s' Omg) (n * nZ c) <? EPSILON E)%float = true
       ∧ (at_ (mem s' Omg) (n * nZ c + nZ c - 1) <? EPSILON E)%float = true).
Proof.
  intros Hd H. unfold updateTmpAndOmg in H.
  pose (row_ok := λ (n : Z) (y : Sim),
    (∀ k, 0 ≤ k < nZ c →
       PrimFloat.is_nan (at_ (mem y Tmp) (n * nZ c + k)) = false
       ∧ PrimFloat.is_nan (at_ (mem y Omg) (n * nZ c + k)) = false)
    ∧ (if 0 <? n then (at_ (mem y Tmp) (n * nZ c) <? EPSILON E)%float
       else (at_ (mem y Tmp) (n * nZ c) - 1.0 <? EPSILON E)%float) = true
    ∧ (at_ (mem y Tmp) (n * nZ c + nZ c - 1) <? EPSILON E)%float = true
    ∧ (at_ (mem y Omg) (n * nZ c) <? EPSILON E)%float = true
    ∧ (at_ (mem y Omg) (n * nZ c + nZ c - 1) <? EPSILON E)%float = true).
  assert (∀ n, 0 ≤ n < nN c → row_ok n s') as Hrows.
  { destruct (Z.le_gt_cases (nN c) 0) as [Hn|Hn]; [intros; lia|].
    eapply (for_loop_inv (λ n0 y, ∀ n, 0 ≤ n < n0 → row_ok n y));
      [| | | exact H]; [lia | intros; lia |].
    clear H. intros n0 y y' Hn0 Hprev Hy'. cbv beta in Hy'. inv_bind Hy'.
    pose proof (update_check_bcs_Ok E c _ _ _ Hy') as ->.
    pose proof (update_check_bcs_checks _ _ _ Hd Hy') as Hbc.
    pose proof (update_row_spec E c _ _ _ _ Hx) as [Hfr _].
    destruct (Z.le_gt_cases (nZ c) 0) as [Hz|Hz].
    { rewrite for_loop_nil in Hx by done. injection Hx as <-.
      intros n Hn'. destruct (decide (n = n0)) as [->|Hne].
      - split; [intros; lia | done].
      - apply Hprev. lia. }
    intros n Hn'. destruct (decide (n = n0)) as [->|Hne].
    - split; [|done].
      eapply (for_loop_inv (λ k0 z, ∀ k, 0 ≤ k < k0 →
                PrimFloat.is_nan (at_ (mem z Tmp) (n0 * nZ c + k)) = false
                ∧ PrimFloat.is_nan (at_ (mem z Omg) (n0 * nZ c + k)) = false));
        [| | | exact Hx]; [lia | intros; lia |].
      intros k0 z z' Hk0 Hz' Hstep k Hk.
      destruct (decide (k = k0)) as [->|Hnek].
      + by eapply update_cell_checks.
      + apply update_cell_spec in Hstep as (Hfz & _ & _).
        rewrite !(uf_out_at _ _ _ _ _ Hfz)
          by (intros Heq; apply (field_index_inj c) in Heq; lia).
        apply Hz'. lia.
    - destruct (Hprev n) as (Hnan & Hb1 & Hb2 & Hb3 & Hb4); [lia|].
      assert (∀ k, 0 ≤ k < nZ c → ∀ a,
                at_ (mem x a) (n * nZ c + k) = at_ (mem y a) (n * nZ c + k))
        as Hsame.
      { intros k Hk a. apply (uf_out_at _ _ _ _ _ Hfr).
        intros (k' & Hk' & Heq). apply (field_index_inj c) in Heq; lia. }
      split; [|split_and!].
      + intros k Hk. rewrite !Hsame by done. by apply Hnan.
      + replace (n * nZ c) with (n * nZ c + 0) by lia.
        rewrite !Hsame by lia. by replace (n * nZ c + 0) with (n * nZ c) by lia.
      + replace (n * nZ c + nZ c - 1) with (n * nZ c + (nZ c - 1)) by lia.
        rewrite !Hsame by lia.
        by replace (n * nZ c + (nZ c - 1)) with (n * nZ c + nZ c - 1) by lia.
      + replace (n * nZ c) with (n * nZ c + 0) by lia.
        rewrite !Hsame by lia. by replace (n * nZ c + 0) with (n * nZ c) by lia.
      + replace (n * nZ c + nZ c - 1) with (n * nZ c + (nZ c - 1)) by lia.
        rewrite !Hsame by lia.
        by replace (n * nZ c + (nZ c - 1)) with (n * nZ c + nZ c - 1) by lia. }
  split.
  - intros n k Hn Hk. by apply (Hrows n Hn).
  - intros n Hn. by apply (Hrows n Hn).
Qed.

End UpdateChecks.

(** ** The mean mode in the linear run mode *)

Section LinearMean.

Context (E : External) (c : Constants).

Lemma mean_not_linear_cell slot cur k :
  0 ≤ slot ≤ 1 → 0 ≤ cur ≤ 1 → 0 ≤ k < nZ c →
  ¬ linear_cells c cur 1 (cell c slot 0 k).
Proof.
  intros Hs Hc Hk (n & Hn & k' & Hk' & Heq). unfold cell in Heq.
  assert ((slot * nN c + 0) * nZ c + k = (cur * nN c + n) * nZ c + k')
    as Heq' by lia.
  apply (field_index_inj c) in Heq' as [Heq' _]; [|lia|lia].
  assert (slot = 0 ∨ slot = 1) as [-> | ->] by lia;
    assert (cur = 0 ∨ cur = 1) as [-> | ->] by lia; lia.
Qed.

(** X9: a step of the linear run mode never writes the tendencies of mode 0:
    the linear pass starts at mode 1. When they are zero in both slots, as
    after construction, they stay zero, and every row of mode 0 of [tmp]
    and [omg] keeps its value through the step (as doubles, up to the sign
    of a zero): the mean profile of a linear run is frozen. *)
Theorem runLinear_step_keeps_mean (s s' : Sim) :
  runLinear_step E c s = Ok s' →
  0 ≤ current s ≤ 1 → 0 < nN c →
  mean_tendencies_zero c s →
  is_finite (dt c) = true →
  mean_tendencies_zero c s'
  ∧ 0 ≤ current s' ≤ 1
  ∧ ∀ k, 0 ≤ k < nZ c →
      same_value (at_ (mem s' Tmp) k) (at_ (mem s Tmp) k)
      ∧ same_value (at_ (mem s' Omg) k) (at_ (mem s Omg) k).
Proof.
  intros H Hcur HnN Hzero Hdt. unfold runLinear_step in H. inv_bind H.
  injection H as <-. rename x into s1, x0 into s2, x1 into s3, x2 into s4.
  apply computeLinearDerivatives_spec in Hx as [Hf1 _].
  pose proof (tf_fields _ _ _ Hf1) as Hsf1.
  apply updateTmpAndOmg_spec in Hx0 as [Hf2 Hv2].
  assert (same_scalars s2 s3 ∧ ∀ x, x ≠ Xi → mem s3 x = mem s2 x) as [Hs3 Hm3].
  { destruct (DDC E).
    - by apply updateXi_frame in Hx1.
    - injection Hx1 as <-. split; [apply same_scalars_refl | done]. }
  apply solveForPsi_spec in Hx2 as [Hf4 _].
  assert (mean_tendencies_zero c s1) as Hzero1.
  { intros slot k Hslot Hk. unfold at_.
    rewrite !(tf_out _ _ _ Hf1) by (by apply mean_not_linear_cell).
    by apply Hzero. }
  assert (current s2 = current s) as Hc2.
  { rewrite (ss_current _ _ (uf_scalars _ _ _ Hf2)). apply (sf_current _ _ Hsf1). }
  assert (current s4 = current s) as Hc4.
  { rewrite (ss_current _ _ (pf_scalars _ _ _ Hf4)), (ss_current _ _ Hs3).
    done. }
  split; [|split].
  - intros slot k Hslot Hk. cbn [set_current set_t mem].
    rewrite !(pf_other _ _ _ Hf4) by done. rewrite !Hm3 by done.
    rewrite !(uf_other _ _ _ Hf2) by done. by apply Hzero1.
  - cbn [set_current set_t current]. rewrite Hc4.
    by apply rem_succ_2_range.
  - intros k Hk. cbn [set_current set_t mem].
    rewrite !(pf_other _ _ _ Hf4) by done. rewrite !Hm3 by done.
    destruct (Hv2 0 k) as [HT HW]; [lia | done |].
    replace (0 * nZ c + k) with k in HT, HW by lia.
    apply getZ_at in HT, HW. rewrite HT, HW.
    rewrite (sf_tmp _ _ Hsf1), (sf_omg _ _ Hsf1).
    rewrite (sf_current _ _ Hsf1). unfold ab_increment.
    split; apply add_zero_same_value, adamsBashforth_zero; try done;
      apply Hzero1; try done; by apply rem_succ_2_range.
Qed.

End LinearMean.

(** ** Memory safety of the nonlinear pass *)

Section NonLinearSafe.

Context (E : External) (c : Constants).

Lemma tend_frame_well_formed (W : Z → Prop) s s' :
  tend_frame W s s' → well_formed c s → well_formed c s'.
Proof.
  intros [Hf Hl _] (? & ? & ? & Hlen).
  split; [done|]. split; [done|]. split.
  - rewrite (sf_current _ _ Hf). lia.
  - intros y. by rewrite Hl.
Qed.

Lemma add_to_in_range x i v s :
  0 ≤ i < len (mem s x) →
  add_to x i v s
  = Ok (set_mem x (<[Z.to_nat i := (at_ (mem s x) i + v)%float]> (mem s x)) s).
Proof.
  intros H. unfold add_to. rewrite rd_in_range by done. simpl.
  by apply store_in_range.
Qed.

Lemma check_mo_passes m o :
  0 < o < nN c → 0 < m < nN c → check_mo E c m o = Ok tt.
Proof.
  intros Ho Hm. unfold check_mo, assert.
  destruct (NDEBUG E); [done|].
  assert ((0 <? o) && (o <? nN c) = true) as ->
    by (apply andb_true_iff; split; [apply Z.ltb_lt | apply Z.ltb_lt]; lia).
  assert ((0 <? m) && (m <? nN c) = true) as ->
    by (apply andb_true_iff; split; [apply Z.ltb_lt | apply Z.ltb_lt]; lia).
  done.
Qed.

(** The indices of an interior cell and of its two neighbours. *)
Lemma interior_in_range s n k :
  well_formed c s → 0 ≤ n < nN c → 1 ≤ k < nZ c - 1 →
  (∀ x, array_size c x = nN c * nZ c →
     0 ≤ n * nZ c + k - 1 ∧ n * nZ c + k + 1 < len (mem s x))
  ∧ (∀ x, array_size c x = 2 * nN c * nZ c →
       0 ≤ cell c (current s) n k < len (mem s x)).
Proof.
  intros (Hz & HnN & Hcur & Hlen) Hn Hk.
  destruct (cell_in_range c (current s) n k) as [Hdi Hi]; [done | done | lia |].
  destruct (cell_in_range c (current s) n (k - 1)) as [_ Hi1];
    [done | done | lia |].
  destruct (cell_in_range c (current s) n (k + 1)) as [_ Hi2];
    [done | done | lia |].
  split; intros x Hx; rewrite Hlen, Hx; lia.
Qed.

Lemma nl_to_mean_completes n k s :
  well_formed c s → 1 ≤ n < nN c → 1 ≤ k < nZ c - 1 →
  ∃ s', nl_to_mean c n k s = Ok s' ∧ well_formed c s'.
Proof.
  intros Hwf Hn Hk.
  destruct (interior_in_range s n k Hwf) as [Hfld _]; [lia | done |].
  destruct (interior_in_range s 0 k Hwf) as [_ Htend]; [lia | done |].
  pose proof (Hfld Psi eq_refl) as HP. pose proof (Hfld Tmp eq_refl) as HT.
  pose proof (Htend DTmpdt eq_refl) as HdT. unfold cell in HdT.
  assert (∃ s', nl_to_mean c n k s = Ok s') as [s' Hs'].
  { unfold nl_to_mean.
    rewrite !dfdz_in_range by lia. rewrite !rd_in_range by lia.
    cbn [mbind result_bind].
    rewrite add_to_in_range by lia. eauto. }
  exists s'. split; [done|].
  apply nl_to_mean_spec in Hs' as [Hf _].
  by eapply tend_frame_well_formed.
Qed.

Lemma nl_from_mean_completes n k s :
  well_formed c s → 1 ≤ n < nN c → 1 ≤ k < nZ c - 1 →
  ∃ s', nl_from_mean c n k s = Ok s' ∧ well_formed c s'.
Proof.
  intros Hwf Hn Hk.
  destruct (interior_in_range s n k Hwf) as [Hfld Htend]; [lia | done |].
  destruct (interior_in_range s 0 k Hwf) as [Hfld0 _]; [lia | done |].
  pose proof (Hfld Psi eq_refl) as HP. pose proof (Hfld0 Tmp eq_refl) as HT.
  pose proof (Htend DTmpdt eq_refl) as HdT. unfold cell in HdT.
  assert (∃ s', nl_from_mean c n k s = Ok s') as [s' Hs'].
  { unfold nl_from_mean.
    rewrite !rd_in_range by lia. cbn [mbind result_bind].
    rewrite !dfdz_in_range by lia. cbn [mbind result_bind].
    rewrite add_to_in_range by lia. eauto. }
  exists s'. split; [done|].
  apply nl_from_mean_spec in Hs' as [Hf _].
  by eapply tend_frame_well_formed.
Qed.

Lemma triad_cell_completes leadT leadW sm o n m k s :
  well_formed c s →
  1 ≤ n < nN c → 0 < m < nN c → 0 < o < nN c → 1 ≤ k < nZ c - 1 →
  ∃ s', triad_cell c leadT leadW sm o n m k s = Ok s' ∧ well_formed c s'.
Proof.
  intros Hwf Hn Hm Ho Hk.
  destruct (interior_in_range s n k Hwf) as [_ Htend]; [lia | done |].
  destruct (interior_in_range s m k Hwf) as [Hfm _]; [lia | done |].
  destruct (interior_in_range s o k Hwf) as [Hfo _]; [lia | done |].
  pose proof (Hfo Psi eq_refl) as HP. pose proof (Hfm Tmp eq_refl) as HT.
  pose proof (Hfm Omg eq_refl) as HW.
  pose proof (Htend DTmpdt eq_refl) as HdT.
  pose proof (Htend DOmgdt eq_refl) as HdW. unfold cell in HdT, HdW.
  assert (∃ s', triad_cell c leadT leadW sm o n m k s = Ok s') as [s' Hs'].
  { unfold triad_cell, triad_term.
    rewrite !dfdz_in_range by lia. rewrite !rd_in_range by lia.
    cbn [mbind result_bind].
    rewrite add_to_in_range by lia. cbn [mbind result_bind]. simpl_sim.
    rewrite !dfdz_in_range by lia. rewrite !rd_in_range by lia.
    cbn [mbind result_bind].
    rewrite add_to_in_range by (simpl_sim; lia). eauto. }
  exists s'. split; [done|].
  apply triad_cell_spec in Hs' as [Hf _].
  by eapply tend_frame_well_formed.
Qed.

Lemma nonlinear_pass_total (s : Sim) :
  well_formed c s →
  ∃ s', computeNonLinearDerivatives E c s = Ok s' ∧ well_formed c s'.
Proof.
  intros Hwf. unfold computeNonLinearDerivatives.
  destruct (for_loop_keeps (well_formed c) 1 (nN c)
              (λ n s, for_loop 1 (nZ c - 1) (nl_to_mean c n) s) s)
    as (s1 & -> & Hwf1); [done | |].
  { intros n x Hn Hx. apply for_loop_keeps; [done|].
    intros k y Hk Hy. by apply nl_to_mean_completes. }
  cbn [mbind result_bind].
  apply for_loop_keeps; [done|].
  intros n x Hn Hx. unfold nl_mode.
  destruct (for_loop_keeps (well_formed c) 1 (nZ c - 1) (nl_from_mean c n) x)
    as (x1 & -> & Hx1); [done | |].
  { intros k y Hk Hy. by apply nl_from_mean_completes. }
  cbn [mbind result_bind]. unfold nl_triad_sum.
  edestruct (for_loop_keeps (well_formed c) 1 n) as (x2 & -> & Hx2);
    [exact Hx1 | |].
  { intros m y Hm Hy. cbv beta. rewrite check_mo_passes by lia.
    cbn [mbind result_bind]. apply for_loop_keeps; [done|].
    intros k z Hk Hz'. apply triad_cell_completes; (done || lia). }
  cbn [mbind result_bind]. unfold nl_triad_diff.
  edestruct (for_loop_keeps (well_formed c) (n + 1) (nN c)) as (x3 & -> & Hx3);
    [exact Hx2 | |].
  { intros m y Hm Hy. cbv beta. rewrite check_mo_passes by lia.
    cbn [mbind result_bind]. apply for_loop_keeps; [done|].
    intros k z Hk Hz'. apply triad_cell_completes; (done || lia). }
  cbn [mbind result_bind]. unfold nl_triad_rdiff.
  apply for_loop_keeps; [done|].
  intros m y Hm Hy. cbv beta. rewrite check_mo_passes by lia.
  cbn [mbind result_bind]. apply for_loop_keeps; [done|].
  intros k z Hk Hz'. apply triad_cell_completes; (done || lia).
Qed.

(** X10: on a simulator whose arrays have their allocated sizes the nonlinear
    pass always completes, in every build: no subscript leaves its array,
    for every grid (nN = 1 and nZ = 3 included), and the assertions on the
    mode numbers m and o never fail. It leaves the arrays at their sizes
    and writes the tendency buffers only: the fields and the scalar members
    are as on entry. *)
Theorem computeNonLinearDerivatives_completes (s : Sim) :
  well_formed c s →
  ∃ s', computeNonLinearDerivatives E c s = Ok s'
    ∧ well_formed c s' ∧ same_fields s s'.
Proof.
  intros Hwf.
  destruct (nonlinear_pass_total s Hwf) as (s' & Hrun & Hwf').
  exists s'. split; [exact Hrun|]. split; [exact Hwf'|].
  apply computeNonLinearDerivatives_spec in Hrun as [Hf _].
  exact (tf_fields _ _ _ Hf).
Qed.

End NonLinearSafe.

(** ** The nonlinear pass: the mean mode and the grids without triads *)

Section NonLinearMean.

Context (E : External) (c : Constants).

Lemma bind_nil {A B : Type} (l : list A) : l ≫= (λ _, @nil B) = [].
Proof. induction l as [|x l IH]; [done|]. csimpl. by rewrite IH. Qed.

Lemma for_loop_id {St : Type} lo hi (body : Z → St → result St) s :
  (∀ i x, lo ≤ i < hi → body i x = Ok x) → for_loop lo hi body s = Ok s.
Proof.
  intros Hbody.
  destruct (for_loop_keeps (λ x, x = s) lo hi body s) as (s' & -> & ->);
    [done | | done].
  intros i x Hi ->. exists s. by rewrite Hbody.
Qed.

(** X11: the mean temperature tendency: the nonlinear pass adds to [dTmpdt] of
    mode 0 at every interior row [k], for n = 1 .. nN-1 in this order,
    -(pi / 2a) n (dpsi_n/dz T_n + dT_n/dz psi_n). It adds nothing to
    [dOmgdt] of mode 0. *)
Theorem computeNonLinearDerivatives_mean_mode (s s' : Sim) (k : Z) :
  computeNonLinearDerivatives E c s = Ok s' →
  1 ≤ k ≤ nZ c - 2 →
  let j := current s * nZ c * nN c + 0 * nN c + k in
  let term (n : Z) : float :=
    (- M_PI / of_int (2 * a c) * of_int n
     * (dfdz_at (mem s Psi) (n * nZ c + k) (dz c) * at_ (mem s Tmp) (n * nZ c + k)
        + dfdz_at (mem s Tmp) (n * nZ c + k) (dz c)
          * at_ (mem s Psi) (n * nZ c + k)))%float in
  at_ (mem s' DTmpdt) j
  = accumulate (term <$> seqZ 1 (nN c - 1)) (at_ (mem s DTmpdt) j)
  ∧ at_ (mem s' DOmgdt) j = at_ (mem s DOmgdt) j.
Proof.
  intros H Hk. simpl. unfold computeNonLinearDerivatives in H. inv_bind H.
  rename x into s1.
  apply to_mean_loop_fold in Hx as [Hf1 Hv1].
  pose proof (sf_current _ _ (tf_fields _ _ _ Hf1)) as Hc1.
  replace (current s * nZ c * nN c + 0 * nN c + k)
    with (cell c (current s) 0 k) by (unfold cell; lia).
  assert (tend_frame (λ j, ∃ n, 1 ≤ n ∧ interior_of c (current s) n j) s1 s')
    as Hf2.
  { destruct (Z.le_gt_cases (nN c) 1) as [Hn|Hn].
    { rewrite for_loop_nil in H by done. injection H as <-.
      apply tend_frame_refl. }
    eapply (for_loop_inv (λ _ y,
              tend_frame (λ j, ∃ n, 1 ≤ n ∧ interior_of c (current s) n j) s1 y));
      [| | | exact H]; [lia | apply tend_frame_refl |].
    intros n y z Hn' Hy Hz. apply nl_mode_fold in Hz as [Hfz _].
    rewrite (sf_current _ _ (tf_fields _ _ _ Hy)), Hc1 in Hfz.
    eapply tend_frame_trans; [exact Hy|].
    eapply tend_frame_mono; [|exact Hfz].
    intros j Hj. exists n. split; [lia | done]. }
  assert (∀ x, at_ (mem s' x) (cell c (current s) 0 k)
               = at_ (mem s1 x) (cell c (current s) 0 k)) as Hkeep.
  { intros x. apply (tf_out_at _ _ _ _ _ Hf2).
    intros (n & Hn & k' & Hk' & Heq). apply (cell_inj c) in Heq; lia. }
  rewrite !Hkeep. destruct (Hv1 k) as [-> ->]; [lia|].
  rewrite bind_nil, bind_singleton. done.
Qed.

(** X12: with a single mode or without interior rows there is nothing to add:
    the nonlinear pass returns the simulator as it was, in every build. *)
Theorem computeNonLinearDerivatives_trivial_grid (s : Sim) :
  nN c ≤ 1 ∨ nZ c ≤ 2 →
  computeNonLinearDerivatives E c s = Ok s.
Proof.
  intros Hgrid. unfold computeNonLinearDerivatives.
  destruct (Z.le_gt_cases (nN c) 1) as [Hn|Hn].
  { rewrite for_loop_nil by done. cbn [mbind result_bind].
    by rewrite for_loop_nil by done. }
  assert (nZ c ≤ 2) as Hz by lia.
  rewrite for_loop_id by (intros; by rewrite for_loop_nil by lia).
  cbn [mbind result_bind].
  apply for_loop_id. intros n x Hn'. unfold nl_mode.
  rewrite for_loop_nil by lia. cbn [mbind result_bind].
  unfold nl_triad_sum, nl_triad_diff, nl_triad_rdiff.
  rewrite for_loop_id.
  2:{ intros m y Hm. rewrite (check_mo_passes E c) by lia.
      cbn [mbind result_bind]. by rewrite for_loop_nil by lia. }
  cbn [mbind result_bind]. rewrite for_loop_id.
  2:{ intros m y Hm. rewrite (check_mo_passes E c) by lia.
      cbn [mbind result_bind]. by rewrite for_loop_nil by lia. }
  cbn [mbind result_bind]. apply for_loop_id.
  intros m y Hm. rewrite (check_mo_passes E c) by lia.
  cbn [mbind result_bind]. by rewrite for_loop_nil by lia.
Qed.

(** X13: the whole nonlinear tendency of a mode [1 <= n < nN] at an interior
    row: to the value on entry the pass adds, one after the other, the
    mean-mode term -(n pi / a) psi_n dT_0/dz (to [dTmpdt] only); for
    m = 1 .. n-1 with o = n - m the triads -(pi / 2a) (-m dpsi_o/dz F_m
    + o dF_m/dz psi_o); for m = n+1 .. nN-1 with o = m - n the triads
    -(pi / 2a) (m dpsi_o/dz F_m + o dF_m/dz psi_o); and for
    m = 1 .. nN-n-1 with o = n + m the same bracket, with -(pi / 2a) for
    F = T and +(pi / 2a) for F = omega. Only the last group differs in sign
    between the two fields. *)
Theorem computeNonLinearDerivatives_contributions (s s' : Sim) (n k : Z) :
  computeNonLinearDerivatives E c s = Ok s' →
  1 ≤ n < nN c →
  1 ≤ k ≤ nZ c - 2 →
  let j := current s * nZ c * nN c + nZ c * n + k in
  let P := mem s Psi in
  let bracket (fld : list float) (sm o m : Z) : float :=
    (of_int sm * dfdz_at P (nZ c * o + k) (dz c) * at_ fld (nZ c * m + k)
     + of_int o * dfdz_at fld (nZ c * m + k) (dz c)
       * at_ P (nZ c * o + k))%float in
  let minus := (- M_PI / of_int (2 * a c))%float in
  let plus := (M_PI / of_int (2 * a c))%float in
  let from_mean :=
    (of_int (- n) * M_PI / of_int (a c) * at_ P (n * nZ c + k)
     * dfdz_at (mem s Tmp) (0 * nZ c + k) (dz c))%float in
  at_ (mem s' DTmpdt) j =
    accumulate
      ([from_mean]
       ++ ((λ m, minus * bracket (mem s Tmp) (- m)%Z (n - m)%Z m)%float
             <$> seqZ 1 (n - 1))
       ++ ((λ m, minus * bracket (mem s Tmp) m (m - n)%Z m)%float
             <$> seqZ (n + 1) (nN c - (n + 1)))
       ++ ((λ m, minus * bracket (mem s Tmp) m (n + m)%Z m)%float
             <$> seqZ 1 (nN c - n - 1)))
      (at_ (mem s DTmpdt) j)
  ∧ at_ (mem s' DOmgdt) j =
    accumulate
      (((λ m, minus * bracket (mem s Omg) (- m)%Z (n - m)%Z m)%float
          <$> seqZ 1 (n - 1))
       ++ ((λ m, minus * bracket (mem s Omg) m (m - n)%Z m)%float
             <$> seqZ (n + 1) (nN c - (n + 1)))
       ++ ((λ m, plus * bracket (mem s Omg) m (n + m)%Z m)%float
             <$> seqZ 1 (nN c - n - 1)))
      (at_ (mem s DOmgdt) j).
Proof.
  intros H Hn Hk. simpl.
  apply computeNonLinearDerivatives_spec in H as [_ Hv].
  destruct (Hv n k) as [HT HW]; [done | lia |].
  replace (current s * nZ c * nN c + nZ c * n + k)
    with (cell c (current s) n k) by (unfold cell; lia).
  rewrite HT, HW.
  unfold mode_contributions, triads_at, triad_at, from_mean_at. simpl.
  by rewrite !bind_singleton.
Qed.

End NonLinearMean.

(** ** The Poisson solve, mode by mode *)

Section PoissonSolve.

Context (E : External) (c : Constants).

Lemma solve_mode_value n s s' :
  solve_mode E c n s = Ok s' →
  (∀ x, x ≠ Psi → mem s' x = mem s x)
  ∧ same_scalars s s'
  ∧ len (mem s' Psi) = len (mem s Psi)
  ∧ 0 ≤ nZ c
  ∧ ∀ j, getZ (mem s' Psi) j
         = if decide (nZ c * n ≤ j < nZ c * n + nZ c)
           then getZ (solved_row E c n (mem s Omg)) (j - nZ c * n)
           else getZ (mem s Psi) j.
Proof.
  unfold solve_mode. intros H. inv_bind H. injection H as <-.
  apply slice_Ok in Hx as (Hn & Hz & Hrange & ->).
  apply blit_Ok in Hx0 as (_ & _ & Hlen & Hget).
  assert (len (resize (Z.to_nat (nZ c)) 0%float
                 (thomas_solve E (nZ c) (nN c) (a c) (oodz2 E c) n
                    (take (Z.to_nat (nZ c))
                       (drop (Z.to_nat (nZ c * n)) (mem s Omg)))))
          = nZ c) as Hres
    by (unfold len; rewrite length_resize; lia).
  rewrite Hres in Hget.
  split; [intros y Hy; by rewrite mem_set_mem_ne|].
  split; [apply same_scalars_set_mem|].
  rewrite mem_set_mem_eq. split; [done|]. split; [done|]. exact Hget.
Qed.

(** X14: [solveForPsi] computes the streamfunction of every mode from the
    vorticity of that mode alone: on exit the row of mode [n] of [psi] holds
    what the solver returns for the row of mode [n] of [omg], whatever
    [psi] held before; no other array changes. Hence solving twice gives
    what solving once gives. *)
Theorem solveForPsi_solves_each_mode (s s' : Sim) :
  solveForPsi E c s = Ok s' →
  (∀ x, x ≠ Psi → mem s' x = mem s x)
  ∧ same_scalars s s'
  ∧ (∀ n k, 0 ≤ n < nN c → 0 ≤ k < nZ c →
       getZ (mem s' Psi) (nZ c * n + k)
       = getZ (solved_row E c n (mem s Omg)) k)
  ∧ (∀ s'', solveForPsi E c s' = Ok s'' → ∀ x, mem s'' x = mem s' x).
Proof.
  assert (∀ s s', solveForPsi E c s = Ok s' →
    (∀ x, x ≠ Psi → mem s' x = mem s x)
    ∧ same_scalars s s'
    ∧ len (mem s' Psi) = len (mem s Psi)
    ∧ (∀ n k, 0 ≤ n < nN c → 0 ≤ k < nZ c →
         getZ (mem s' Psi) (nZ c * n + k)
         = getZ (solved_row E c n (mem s Omg)) k)
    ∧ (∀ j, ¬ psi_cells c j → getZ (mem s' Psi) j = getZ (mem s Psi) j))
    as Hspec.
  { clear s s'. intros s s' H.
    pose proof (solveForPsi_spec E c s s' H) as [[Hsc Hoth Hlen Hout] _].
    split; [done|]. split; [done|]. split; [done|]. split; [|done].
    unfold solveForPsi in H. inv_bind H.
    assert (s' = x) as ->.
    { destruct (Z.le_gt_cases (nZ c) 0) as [Hz|Hz].
      { rewrite for_loop_nil in H by done. by injection H. }
      eapply (for_loop_inv (λ _ y, y = x)); [| | | exact H]; [lia | done |].
      intros k y z _ -> Hz'. inv_bind Hz'. by injection Hz'. }
    clear H.
    destruct (Z.le_gt_cases (nN c) 0) as [Hn|Hn]; [intros; lia|].
    assert (∀ n k, 0 ≤ n < nN c → 0 ≤ k < nZ c →
              getZ (mem x Psi) (nZ c * n + k)
              = getZ (solved_row E c n (mem s Omg)) k) as Hx'.
    { eapply (for_loop_inv (λ n0 y,
                mem y Omg = mem s Omg
                ∧ ∀ n k, 0 ≤ n < n0 → 0 ≤ k < nZ c →
                    getZ (mem y Psi) (nZ c * n + k)
                    = getZ (solved_row E c n (mem s Omg)) k));
        [| | | exact Hx]; [lia | split; [done | intros; lia] |].
      intros n0 y z Hn0 [HW Hprev] Hz.
      apply solve_mode_value in Hz as (Hm & _ & _ & Hz0 & Hget).
      split; [by rewrite Hm|].
      intros n k Hn' Hk. rewrite Hget. rewrite HW in Hget |- *.
      destruct (decide (n = n0)) as [->|Hne].
      - rewrite decide_True by lia. f_equal. lia.
      - rewrite decide_False; [apply Hprev; lia|].
        intros Hr.
        assert (nZ c * n + k = nZ c * n0 + (nZ c * n + k - nZ c * n0))
          as Heq by lia.
        replace (nZ c * n) with (n * nZ c) in Heq at 1 by lia.
        replace (nZ c * n0) with (n0 * nZ c) in Heq at 1 by lia.
        apply (field_index_inj c) in Heq; lia. }
    exact Hx'. }
  intros H. destruct (Hspec s s' H) as (Hoth & Hsc & Hlen & Hval & Hout).
  split; [done|]. split; [done|]. split; [done|].
  intros s'' H2 x.
  destruct (Hspec s' s'' H2) as (Hoth2 & _ & Hlen2 & Hval2 & Hout2).
  destruct (decide (x = Psi)) as [->|Hne]; [|by apply Hoth2].
  apply list_eq_getZ; [done|].
  intros j Hj.
  destruct (decide (0 < nZ c ∧ 0 ≤ j `div` nZ c < nN c)) as [[Hz Hq]|Hno].
  - pose proof (Z.div_mod j (nZ c)) as Hdm.
    pose proof (Z.mod_pos_bound j (nZ c) Hz) as Hmod.
    rewrite Hdm by lia.
    rewrite Hval2, Hval by (done || lia).
    by rewrite (Hoth Omg).
  - apply Hout2. intros (n & Hn & Hr). apply Hno.
    assert (0 < nZ c) as Hz by lia. split; [done|].
    assert (j `div` nZ c = n) as ->; [|done].
    symmetry. apply (Z.div_unique j (nZ c) n (j - nZ c * n)); lia.
Qed.

End PoissonSolve.

(** ** Memory safety of an integrator step *)

Lemma for_loop_errors {St : Type} (P : St → Prop) (Q : error → Prop) lo hi
    (body : Z → St → result St) s e :
  P s →
  (∀ i x y, lo ≤ i < hi → P x → body i x = Ok y → P y) →
  (∀ i x e, lo ≤ i < hi → P x → body i x = Err e → Q e) →
  for_loop lo hi body s = Err e → Q e.
Proof.
  intros Hs Hok Herr. unfold for_loop.
  remember (Z.to_nat (hi - lo)) as count eqn:Hc.
  revert lo s Hs Hok Herr Hc.
  induction count as [|count IH]; intros lo s Hs Hok Herr Hc; simpl; [done|].
  destruct (body lo s) as [y|e'] eqn:Hb; simpl.
  - apply (IH (lo + 1) y); [| | | lia].
    + apply (Hok lo s); [lia | done | done].
    + intros i x z Hi. apply Hok. lia.
    + intros i x z Hi. apply Herr. lia.
  - intros [= <-]. apply (Herr lo s); [lia | done | done].
Qed.

Section StepSafety.

Context (E : External) (c : Constants).

Lemma assert_cases b :
  assert E (Ok b) = Ok tt
  ∨ (assert E (Ok b) = Err AssertionFailed ∧ NDEBUG E = false).
Proof.
  unfold assert. destruct (NDEBUG E); [by left|].
  destruct b; simpl; [by left | by right].
Qed.

(** Evaluate a straight-line body whose subscripts are in range, with one
    case for every assertion. *)
Ltac run_body :=
  repeat (first
    [ rewrite dfdz2_in_range by (simpl_sim; rewrite ?len_insert; lia)
    | rewrite dfdz_in_range by (simpl_sim; rewrite ?len_insert; lia)
    | rewrite rd_in_range by (simpl_sim; rewrite ?len_insert; lia)
    | rewrite store_in_range by (simpl_sim; rewrite ?len_insert; lia)
    | match goal with
      | |- context [assert E (Ok ?b)] =>
          let Hd := fresh "Hd" in
          destruct (assert_cases b) as [-> | [-> Hd]]
      end ];
    cbn [mbind result_bind]).

Lemma linear_cell_errors ls n k s e :
  well_formed c s → 0 ≤ n < nN c → 1 ≤ k ≤ nZ c - 2 →
  linear_cell E c ls n k s = Err e → assertion_failure E e.
Proof.
  intros (Hz & HnN & Hcur & Hlen) Hn Hk.
  destruct (cell_in_range c (current s) n k) as [Hdi Hi]; [done | done | lia |].
  destruct (cell_in_range c (current s) n (k - 1)) as [_ Hi1];
    [done | done | lia |].
  destruct (cell_in_range c (current s) n (k + 1)) as [_ Hi2];
    [done | done | lia |].
  destruct (cell_in_range c 0 0 k) as [Hd0 _]; [lia | lia | lia |].
  unfold cell in Hdi, Hd0. unfold linear_cell.
  set (di := current s * nZ c * nN c + n * nZ c + k) in *.
  set (i := k + n * nZ c) in *.
  assert (∀ x, array_size c x = nN c * nZ c → 0 ≤ i < len (mem s x)
                                               ∧ 0 ≤ i - 1 ∧ i + 1 < len (mem s x))
    as Hfld by (intros x Hx; rewrite Hlen, Hx; lia).
  assert (∀ x, array_size c x = 2 * nN c * nZ c →
            0 ≤ di < len (mem s x) ∧ 0 ≤ nZ c * 0 + k < len (mem s x))
    as Htend by (intros x Hx; rewrite Hlen, Hx; lia).
  destruct (Hfld Tmp eq_refl) as (HT & HT1 & HT2).
  destruct (Hfld Omg eq_refl) as (HW & HW1 & HW2).
  destruct (Hfld Psi eq_refl) as (HP & _ & _).
  destruct (Hfld Xi eq_refl) as (HX & HX1 & HX2).
  destruct (Htend DTmpdt eq_refl) as [HdT _].
  destruct (Htend DOmgdt eq_refl) as [HdW HdW0].
  destruct (Htend DXidt eq_refl) as [HdX _].
  destruct (DDC E), (ls =? 1); run_body; try discriminate;
    intros [= <-]; by split.
Qed.

Lemma computeLinearDerivatives_errors ls s e :
  well_formed c s → 0 ≤ ls →
  computeLinearDerivatives E c ls s = Err e → assertion_failure E e.
Proof.
  intros Hwf Hls. unfold computeLinearDerivatives.
  apply (for_loop_errors (well_formed c)); [done | |].
  - intros n x y Hn Hx Hy. apply linear_row_spec in Hy as [Hf _].
    by eapply tend_frame_well_formed.
  - intros n x e' Hn Hx.
    apply (for_loop_errors (well_formed c)); [done | |].
    + intros k y z Hk Hy Hz'. apply linear_cell_spec in Hz' as [Hf _].
      by eapply tend_frame_well_formed.
    + intros k y e'' Hk Hy. apply linear_cell_errors; (done || lia).
Qed.

Lemma upd_frame_well_formed (W : Z → Prop) s s' :
  upd_frame W s s' → well_formed c s → well_formed c s'.
Proof.
  intros [Hs _ Hl _] (? & ? & ? & Hlen).
  split; [done|]. split; [done|]. split.
  - rewrite (ss_current _ _ Hs). lia.
  - intros y. by rewrite Hl.
Qed.

Lemma update_cell_errors frac n k s e :
  well_formed c s → 0 ≤ n < nN c → 0 ≤ k < nZ c →
  update_cell E c frac n k s = Err e → assertion_failure E e.
Proof.
  intros (Hz & HnN & Hcur & Hlen) Hn Hk.
  pose proof (rem_succ_2_range _ Hcur) as Hoth.
  destruct (cell_in_range c (current s) n k) as [Hdi Hi]; [done | done | lia |].
  destruct (cell_in_range c (Z.rem (current s + 1) 2) n k) as [Hdo _];
    [done | done | lia |].
  unfold cell in Hdi, Hdo. unfold update_cell.
  pose proof (Hlen Tmp) as HT. pose proof (Hlen Omg) as HW.
  pose proof (Hlen DTmpdt) as HdT. pose proof (Hlen DOmgdt) as HdW.
  simpl in HT, HW, HdT, HdW.
  run_body; try discriminate; intros [= <-]; by split.
Qed.

Lemma update_check_bcs_errors n s e :
  well_formed c s → 1 ≤ nZ c → 0 ≤ n < nN c →
  update_check_bcs E c n s = Err e → assertion_failure E e.
Proof.
  intros (Hz & HnN & Hcur & Hlen) Hz1 Hn.
  destruct (cell_in_range c 0 n 0) as [_ H0]; [lia | done | lia |].
  destruct (cell_in_range c 0 n (nZ c - 1)) as [_ H1]; [lia | done | lia |].
  pose proof (Hlen Tmp) as HT. pose proof (Hlen Omg) as HW.
  simpl in HT, HW. unfold update_check_bcs.
  destruct (0 <? n); run_body; try discriminate; intros [= <-]; by split.
Qed.

Lemma updateTmpAndOmg_errors frac s e :
  well_formed c s → 1 ≤ nZ c →
  updateTmpAndOmg E c frac s = Err e → assertion_failure E e.
Proof.
  intros Hwf Hz. unfold updateTmpAndOmg.
  apply (for_loop_errors (well_formed c)); [done | |].
  - intros n x y Hn Hx Hy. inv_bind Hy. apply update_check_bcs_Ok in Hy as ->.
    apply update_row_spec in Hx0 as [Hf _].
    by eapply upd_frame_well_formed.
  - intros n x e' Hn Hx. cbv beta.
    destruct (for_loop 0 (nZ c) (update_cell E c frac n) x) as [y|e''] eqn:Hrow;
      simpl.
    + apply update_row_spec in Hrow as [Hf _].
      apply update_check_bcs_errors; [|done|done].
      by eapply upd_frame_well_formed.
    + intros [= <-]. revert Hrow.
      apply (for_loop_errors (well_formed c)); [done | |].
      * intros k y z Hk Hy Hz'. apply update_cell_spec in Hz' as [Hf _].
        by eapply upd_frame_well_formed.
      * intros k y e3 Hk Hy. by apply update_cell_errors.
Qed.

Lemma updateXi_completes frac s :
  well_formed c s → ∃ s', updateXi c frac s = Ok s' ∧ well_formed c s'.
Proof.
  intros Hwf. unfold updateXi.
  apply for_loop_keeps; [done|]. intros n x Hn Hx.
  apply for_loop_keeps; [done|]. intros k y Hk Hy.
  pose proof Hy as (Hz & HnN & Hcur & Hlen).
  pose proof (rem_succ_2_range _ Hcur) as Hoth.
  destruct (cell_in_range c (current y) n k) as [Hdi Hi]; [done | done | lia |].
  destruct (cell_in_range c (Z.rem (current y + 1) 2) n k) as [Hdo _];
    [done | done | lia |].
  unfold cell in Hdi, Hdo.
  pose proof (Hlen Xi) as HX. pose proof (Hlen DXidt) as HdX.
  simpl in HX, HdX.
  rewrite !rd_in_range by lia. cbn [mbind result_bind].
  rewrite store_in_range by lia. eexists. split; [done|].
  split; [done|]. split; [done|]. split; [done|].
  intros x'. destruct (decide (x' = Xi)) as [->|Hne].
  - by rewrite mem_set_mem_eq, len_insert.
  - by rewrite mem_set_mem_ne.
Qed.

Lemma psi_frame_well_formed (W : Z → Prop) s s' :
  psi_frame W s s' → well_formed c s → well_formed c s'.
Proof.
  intros [Hs Ho Hl _] (? & ? & ? & Hlen).
  split; [done|]. split; [done|]. split.
  - rewrite (ss_current _ _ Hs). lia.
  - intros y. destruct (decide (y = Psi)) as [->|Hne].
    + by rewrite Hl.
    + by rewrite Ho.
Qed.

Lemma solve_mode_errors n s e :
  well_formed c s → 1 ≤ nZ c → 0 ≤ n < nN c →
  solve_mode E c n s = Err e → assertion_failure E e.
Proof.
  intros (Hz & HnN & Hcur & Hlen) Hz1 Hn.
  destruct (cell_in_range c 0 n 0) as [_ H0]; [lia | done | lia |].
  destruct (cell_in_range c 0 n (nZ c - 1)) as [_ H1]; [lia | done | lia |].
  pose proof (Hlen Psi) as HP. pose proof (Hlen Omg) as HW.
  simpl in HP, HW. unfold solve_mode.
  rewrite slice_in_range by lia. cbn [mbind result_bind].
  set (sol := resize _ _ _).
  assert (len sol = nZ c) as Hsol
    by (unfold len, sol; rewrite length_resize; lia).
  destruct (blit_in_range (mem s Psi) (nZ c * n) sol) as [l Hl]; [lia | lia |].
  rewrite Hl. cbn [mbind result_bind].
  apply blit_Ok in Hl as (_ & _ & Hlen' & _).
  run_body; try discriminate; intros [= <-]; by split.
Qed.

Lemma solveForPsi_errors s e :
  well_formed c s → 1 ≤ nZ c → 1 ≤ nN c →
  solveForPsi E c s = Err e → assertion_failure E e.
Proof.
  intros Hwf Hz Hn. unfold solveForPsi.
  destruct (for_loop 0 (nN c) (solve_mode E c) s) as [s1|e'] eqn:Hloop; simpl.
  - assert (well_formed c s1) as Hwf1.
    { eapply (for_loop_inv (λ _ y, well_formed c y)); [| | | exact Hloop];
        [lia | done |].
      intros n x y _ Hx Hy. apply solve_mode_spec in Hy as [Hf _].
      by eapply psi_frame_well_formed. }
    apply (for_loop_errors (λ y, y = s1)); [done | |].
    + intros k x y _ -> Hy. inv_bind Hy. by injection Hy.
    + intros k x e' Hk ->. cbv beta.
      destruct Hwf1 as (_ & _ & _ & Hlen). pose proof (Hlen Psi) as HP.
      simpl in HP.
      assert (nZ c * 0 + k < nN c * nZ c) by nia.
      run_body; try discriminate; intros [= <-]; by split.
  - intros [= <-]. revert Hloop.
    apply (for_loop_errors (well_formed c)); [done | |].
    + intros n x y _ Hx Hy. apply solve_mode_spec in Hy as [Hf _].
      by eapply psi_frame_well_formed.
    + intros n x e'' Hn' Hx. by apply solve_mode_errors.
Qed.

(** X15: an integrator step of either run mode, on a simulator whose arrays have
    their allocated sizes and whose grid has at least one mode and one row
    (nZ = 3 and nN = 1 included), never reads or writes outside an array:
    the step either completes, leaving the arrays at their sizes, [current]
    flipped and [t] advanced by [dt], or it stops at a failed assertion,
    which can only happen in a build with assertions. *)
Theorem integrator_step_memory_safe (nonlinear : bool) (frac : float)
    (s : Sim) :
  well_formed c s → 1 ≤ nZ c → 1 ≤ nN c →
  (∀ s', integrator_step E c nonlinear frac s = Ok s' →
     well_formed c s'
     ∧ current s' = Z.rem (current s + 1) 2
     ∧ t s' = (t s + dt c)%float)
  ∧ (∀ e, integrator_step E c nonlinear frac s = Err e →
       assertion_failure E e)
  ∧ (NDEBUG E = true →
       ∃ s', integrator_step E c nonlinear frac s = Ok s').
Proof.
  intros Hwf Hz Hn.
  assert (∀ s4, well_formed c s4 → current s4 = current s → t s4 = t s →
    let s' := set_current (Z.rem (current s4 + 1) 2)
                (set_t (t s4 + dt c)%float s4) in
    well_formed c s' ∧ current s' = Z.rem (current s + 1) 2
    ∧ t s' = (t s + dt c)%float) as Hdone.
  { intros s4 (Hz4 & Hn4 & Hc4 & Hl4) Hc Ht. simpl. rewrite Hc, Ht.
    split; [|done]. split; [done|]. split; [done|]. split; [|done].
    simpl. apply rem_succ_2_range. by rewrite <- Hc. }
  assert (match integrator_step E c nonlinear frac s with
          | Ok s' => well_formed c s'
                     ∧ current s' = Z.rem (current s + 1) 2
                     ∧ t s' = (t s + dt c)%float
          | Err e => assertion_failure E e
          end) as Hstep.
  { unfold integrator_step, runNonLinear_step, runLinear_step.
    destruct nonlinear.
    - destruct (computeLinearDerivatives E c 0 s) as [s1|e1] eqn:H1; simpl;
        [|exact (computeLinearDerivatives_errors 0 s e1 Hwf (Z.le_refl 0) H1)].
      apply computeLinearDerivatives_spec in H1 as [Hf1 _].
      pose proof (tend_frame_well_formed c _ _ _ Hf1 Hwf) as Hwf1.
      destruct (nonlinear_pass_total E c s1 Hwf1)
        as (s2 & H2 & Hwf2). rewrite H2. simpl.
      apply computeNonLinearDerivatives_spec in H2 as [Hf2 _].
      destruct (updateTmpAndOmg E c frac s2) as [s3|e3] eqn:H3; simpl;
        [|by eapply updateTmpAndOmg_errors].
      apply updateTmpAndOmg_spec in H3 as [Hf3 _].
      pose proof (upd_frame_well_formed _ _ _ Hf3 Hwf2) as Hwf3.
      destruct (solveForPsi E c s3) as [s4|e4] eqn:H4; simpl;
        [|by eapply solveForPsi_errors].
      apply solveForPsi_spec in H4 as [Hf4 _].
      apply Hdone.
      + by eapply psi_frame_well_formed.
      + rewrite (ss_current _ _ (pf_scalars _ _ _ Hf4)).
        rewrite (ss_current _ _ (uf_scalars _ _ _ Hf3)).
        rewrite (sf_current _ _ (tf_fields _ _ _ Hf2)).
        apply (sf_current _ _ (tf_fields _ _ _ Hf1)).
      + rewrite (ss_t _ _ (pf_scalars _ _ _ Hf4)).
        rewrite (ss_t _ _ (uf_scalars _ _ _ Hf3)).
        rewrite (sf_t _ _ (tf_fields _ _ _ Hf2)).
        apply (sf_t _ _ (tf_fields _ _ _ Hf1)).
    - destruct (computeLinearDerivatives E c 1 s) as [s1|e1] eqn:H1; simpl;
        [|exact (computeLinearDerivatives_errors 1 s e1 Hwf Z.le_0_1 H1)].
      apply computeLinearDerivatives_spec in H1 as [Hf1 _].
      pose proof (tend_frame_well_formed c _ _ _ Hf1 Hwf) as Hwf1.
      destruct (updateTmpAndOmg E c 1 s1) as [s2|e2] eqn:H2; simpl;
        [|by eapply updateTmpAndOmg_errors].
      apply updateTmpAndOmg_spec in H2 as [Hf2 _].
      pose proof (upd_frame_well_formed _ _ _ Hf2 Hwf1) as Hwf2.
      assert (∃ s3, (if DDC E then updateXi c 1 s2 else Ok s2) = Ok s3
                    ∧ well_formed c s3 ∧ same_scalars s2 s3)
        as (s3 & -> & Hwf3 & Hs3).
      { destruct (DDC E).
        - destruct (updateXi_completes 1%float s2 Hwf2) as (s3 & H3 & Hwf3).
          exists s3. split; [done|]. split; [done|].
          by apply updateXi_frame in H3 as [? _].
        - exists s2. split; [done|]. split; [done | apply same_scalars_refl]. }
      simpl.
      destruct (solveForPsi E c s3) as [s4|e4] eqn:H4; simpl;
        [|by eapply solveForPsi_errors].
      apply solveForPsi_spec in H4 as [Hf4 _].
      apply Hdone.
      + by eapply psi_frame_well_formed.
      + rewrite (ss_current _ _ (pf_scalars _ _ _ Hf4)), (ss_current _ _ Hs3).
        rewrite (ss_current _ _ (uf_scalars _ _ _ Hf2)).
        apply (sf_current _ _ (tf_fields _ _ _ Hf1)).
      + rewrite (ss_t _ _ (pf_scalars _ _ _ Hf4)), (ss_t _ _ Hs3).
        rewrite (ss_t _ _ (uf_scalars _ _ _ Hf2)).
        apply (sf_t _ _ (tf_fields _ _ _ Hf1)). }
  destruct (integrator_step E c nonlinear frac s) as [s'|e] eqn:H.
  - split; [by intros ? [= <-]|]. split; [done | eauto].
  - split; [done|]. split; [by intros ? [= <-]|].
    destruct Hstep as [_ Hd]. congruence.
Qed.

End StepSafety.

(** ** The nonlinear driver without a step *)

Section NonLinearRun.

Context (E : External) (c : Constants).

(** X16: a nonlinear run whose total time is not above EPSILON makes no step: it
    reads the initial conditions and writes them to the checkpoint of the
    current number. [load] stores the tendency slots by the [current] the
    simulator was constructed with, and [runNonLinear] sets [current] to 0
    only afterwards: constructed with [current] = 0 the checkpoint written
    is the file read, constructed with [current] = 1 its tendency slots
    come out exchanged. *)
Theorem runNonLinear_without_steps (fuel : nat) (s : Sim)
    (data : list float) :
  well_formed c s →
  fs s !! icFile c = Some data →
  len data = 7 * (nN c * nZ c) →
  vars_name E c (saveNumber s) ∉ fs_denied s →
  (EPSILON E <? totalTime c - 0)%float = false →
  ∃ s', runNonLinear E c fuel s = Ok (Some s')
    ∧ current s' = 0 ∧ t s' = 0%float
    ∧ saveNumber s' = saveNumber s + 1
    ∧ fs s' !! vars_name E c (saveNumber s)
      = Some (if current s =? 0 then data else slots_exchanged c data).
Proof.
  intros Hwf Hfile Hlen Hden Htime.
  destruct (load_decodes c s _ data Hwf Hfile Hlen) as (s1 & Hload & Hmem & Hsc).
  pose proof (decoded_well_formed c s data Hwf Hlen) as (Hz & Hn & Hk & Hl).
  unfold runNonLinear. rewrite Hload. cbn [mbind result_bind].
  set (s2 := set_t 0 (set_current 0 s1)).
  assert (well_formed c s2) as Hwf2.
  { split; [done|]. split; [done|]. split; [simpl; lia|].
    intros x. subst s2. cbn [set_t set_current mem]. rewrite Hmem. apply Hl. }
  destruct (save_spec E c s2 Hwf2) as (s3 & Hsave & Hfs & _).
  { subst s2. cbn [set_t set_current saveNumber fs_denied].
    by rewrite (ss_saveNumber _ _ Hsc), (ss_fs_denied _ _ Hsc). }
  assert (runNonLinear_loop E c fuel
            (s2, mkNL 0%float 0%float 0%float 1.0%float) = Ok (Some s3)) as ->.
  { destruct fuel; simpl; rewrite Htime, Hsave; done. }
  exists s3. pose proof (save_Ok E c _ _ Hsave) as (_ & Hnum & _).
  pose proof (save_same E c _ _ Hsave) as (_ & Hc3 & Ht3 & _).
  split; [done|]. split; [by rewrite Hc3|]. split; [by rewrite Ht3|].
  split.
  { rewrite Hnum. subst s2. cbn [set_t set_current saveNumber].
    by rewrite (ss_saveNumber _ _ Hsc). }
  rewrite Hfs. subst s2. cbn [set_t set_current saveNumber].
  rewrite (ss_saveNumber _ _ Hsc), lookup_insert_eq. f_equal.
  unfold checkpoint. cbn [set_t set_current mem current].
  rewrite !Hmem. cbn [decoded mem].
  change ((0 + 1) `rem` 2) with 1.
  assert (0 ≤ current s ≤ 1) as Hcur by (by destruct Hwf as (_ & _ & ? & _)).
  assert (current s = 0 ∨ current s = 1) as [Hc | Hc] by lia; rewrite Hc.
  - destruct (slots_spec c 0 3 4 data) as (_ & -> & H34); try lia.
    destruct (slots_spec c 0 5 6 data) as (_ & -> & H56); try lia.
    change ((0 + 1) `rem` 2) with 1 in H34, H56. rewrite H34, H56.
    simpl (_ =? _).
    etrans; [|apply (checkpoint_decoded c s data Hz Hn Hcur Hlen)].
    unfold checkpoint. cbn [decoded mem current]. rewrite Hc.
    destruct (slots_spec c 0 3 4 data) as (_ & -> & H34'); try lia.
    destruct (slots_spec c 0 5 6 data) as (_ & -> & H56'); try lia.
    change ((0 + 1) `rem` 2) with 1 in *. by rewrite H34', H56'.
  - destruct (slots_spec c 1 3 4 data) as (_ & H34 & H43); try lia.
    destruct (slots_spec c 1 5 6 data) as (_ & H56 & H65); try lia.
    change ((1 + 1) `rem` 2) with 0 in H43, H65.
    rewrite H34, H43, H56, H65. done.
Qed.

End NonLinearRun.

(** ** The initial conditions of a linear run *)

Section LinearSeed.

Context (E : External) (c : Constants).

(** Seeding one more cell of [tmp], and of [xi] in a DDC build. *)
Lemma seed_cell (W : Z → Z → Prop) s y n k :
  seeded E c W s y → well_formed c s →
  0 ≤ n < nN c → 0 ≤ k < nZ c →
  ∃ y', (y1 ← store Tmp (nZ c * n + k) (seed E c n k) y;
         if DDC E then store Xi (nZ c * n + k) (seed E c n k) y1 else Ok y1)
        = Ok y'
        ∧ seeded E c (λ n' k', W n' k' ∨ (n' = n ∧ k' = k)) s y'.
Proof.
  intros (Hg & Hgx & Hc & Ht & Hfs & Hnum & Hl & Hoth & Hxi & Hval)
         (Hz & HnN & Hcur & Hlen) Hn Hk.
  destruct (cell_in_range c 0 n k) as [_ Hi]; [lia | done | done |].
  replace (k + n * nZ c) with (nZ c * n + k) in Hi by lia.
  pose proof (Hlen Tmp) as HT. pose proof (Hlen Xi) as HX. simpl in HT, HX.
  assert (∀ n' k', 0 ≤ k' < nZ c → ¬ (n' = n ∧ k' = k) →
            nZ c * n' + k' ≠ nZ c * n + k) as Hinj.
  { intros n' k' Hk' Hne Heq.
    replace (nZ c * n') with (n' * nZ c) in Heq by lia.
    replace (nZ c * n) with (n * nZ c) in Heq by lia.
    apply (field_index_inj c) in Heq; tauto. }
  rewrite store_in_range by (rewrite Hl; lia). cbn [mbind result_bind].
  destruct (DDC E) eqn:Hddc.
  - rewrite store_in_range by (simpl_sim; rewrite Hl; lia).
    eexists. split; [done|].
    unfold seeded. rewrite Hddc. simpl_sim.
    split; [done|]. split; [done|]. split; [done|]. split; [done|].
    split; [done|]. split; [done|]. split; [|split; [|split]].
    + intros x. destruct (decide (x = Xi)) as [->|]; simpl_sim.
      * by rewrite len_insert.
      * destruct (decide (x = Tmp)) as [->|]; simpl_sim; [|done].
        by rewrite len_insert.
    + intros x HxT HxX. simpl_sim. by apply Hoth.
    + done.
    + intros n' k' Hk' HW. simpl_sim.
      rewrite !getZ_insert by (rewrite Hl; lia).
      destruct (decide (n' = n ∧ k' = k)) as [[-> ->]|Hne].
      * by rewrite !decide_True.
      * rewrite !decide_False by (by apply Hinj).
        destruct HW as [HW|HW]; [|tauto].
        destruct (Hval n' k' Hk' HW) as [? HX']. split; [done|].
        intros _. by apply HX'.
  - eexists. split; [done|].
    unfold seeded. rewrite Hddc. simpl_sim.
    split; [done|]. split; [done|]. split; [done|]. split; [done|].
    split; [done|]. split; [done|]. split; [|split; [|split]].
    + intros x. destruct (decide (x = Tmp)) as [->|]; simpl_sim; [|done].
      by rewrite len_insert.
    + intros x HxT HxX. simpl_sim. by apply Hoth.
    + intros _. simpl_sim. by apply Hxi.
    + intros n' k' Hk' HW. simpl_sim. split; [|done].
      rewrite !getZ_insert by (rewrite Hl; lia).
      destruct (decide (n' = n ∧ k' = k)) as [[-> ->]|Hne].
      * by rewrite !decide_True.
      * rewrite !decide_False by (by apply Hinj).
        destruct HW as [HW|HW]; [|tauto].
        by destruct (Hval n' k' Hk' HW).
Qed.

Lemma seeded_mono (W W' : Z → Z → Prop) s y :
  seeded E c W s y → (∀ n k, 0 ≤ k < nZ c → W' n k → W n k) →
  seeded E c W' s y.
Proof.
  intros (Hg & Hgx & Hc & Ht & Hfs & Hnum & Hl & Hoth & Hxi & Hval) HW.
  unfold seeded. split_and!; try done.
  intros n k Hk HW'. apply Hval; [done | by apply HW].
Qed.

(** The seeding loop of [runLinear], on a simulator whose arrays have their
    allocated sizes. *)
Lemma linear_initial_conditions_seeds s :
  well_formed c s → 1 ≤ nN c →
  ∃ s', linear_initial_conditions E c s = Ok s'
        ∧ seeded E c (λ n k, 0 ≤ n < nN c) s s'.
Proof.
  intros Hwf HnN. unfold linear_initial_conditions.
  set (s0 := if DDC E then _ else _).
  assert (seeded E c (λ _ _, False) s s0) as H0.
  { subst s0. unfold seeded. destruct (DDC E); simpl; split_and!; done. }
  pose proof Hwf as (Hz & _ & _ & _).
  destruct (for_loop_total
              (λ k0 y, seeded E c (λ n k, k < k0 ∧ 0 ≤ n < nN c) s y)
              0 (nZ c)
              (λ k s,
                 s ← (if tmpGrad s =? -1
                      then store Tmp (nZ c * 0 + k)
                             (of_int 1 - of_int k * dz c)%float s
                      else if tmpGrad s =? 1
                      then store Tmp (nZ c * 0 + k) (of_int k * dz c)%float s
                      else Ok s);
                 s ← (if DDC E
                      then (if xiGrad s =? -1
                            then store Xi (nZ c * 0 + k)
                                   (of_int 1 - of_int k * dz c)%float s
                            else if xiGrad s =? 1
                            then store Xi (nZ c * 0 + k)
                                   (of_int k * dz c)%float s
                            else Ok s)
                      else Ok s);
                 for_loop 1 (nN c) (λ n s,
                   s ← store Tmp (nZ c * n + k)
                         (c_sin E (M_PI * of_int k * dz c)%float) s;
                   if DDC E
                   then store Xi (nZ c * n + k)
                          (c_sin E (M_PI * of_int k * dz c)%float) s
                   else Ok s) s) s0) as (s' & Hs' & HI); [done | | |].
  - eapply seeded_mono; [exact H0|]. intros n k Hk [? ?]. lia.
  - intros k0 y Hk0 Hy.
    destruct (seed_cell _ s y 0 k0 Hy Hwf) as (y1 & Hy1 & HI1); [lia | done |].
    assert ((s1 ← (if tmpGrad y =? -1
                   then store Tmp (nZ c * 0 + k0)
                          (of_int 1 - of_int k0 * dz c)%float y
                   else if tmpGrad y =? 1
                   then store Tmp (nZ c * 0 + k0) (of_int k0 * dz c)%float y
                   else Ok y);
             if DDC E
             then (if xiGrad s1 =? -1
                   then store Xi (nZ c * 0 + k0)
                          (of_int 1 - of_int k0 * dz c)%float s1
                   else if xiGrad s1 =? 1
                   then store Xi (nZ c * 0 + k0) (of_int k0 * dz c)%float s1
                   else Ok s1)
             else Ok s1) = Ok y1) as Hmean.
    { rewrite <- Hy1. destruct Hy as (Hg & Hgx & _).
      rewrite Hg. unfold seed, seed_mean. simpl (0 =? 0).
      destruct (DDC E) eqn:Hddc; simpl (_ =? _); [|done].
      destruct (store Tmp (nZ c * 0 + k0) (of_int k0 * dz c) y) as [y0|] eqn:Hst;
        [|done].
      cbn [mbind result_bind].
      apply store_Ok in Hst as [_ ->]. cbn [set_mem xiGrad]. by rewrite Hgx. }
    destruct (for_loop_total
                (λ n0 z, seeded E c
                   (λ n k, (k < k0 ∧ 0 ≤ n < nN c)
                           ∨ (k = k0 ∧ 0 ≤ n < n0)) s z)
                1 (nN c)
                (λ n s,
                   s ← store Tmp (nZ c * n + k0)
                         (c_sin E (M_PI * of_int k0 * dz c)%float) s;
                   if DDC E
                   then store Xi (nZ c * n + k0)
                          (c_sin E (M_PI * of_int k0 * dz c)%float) s
                   else Ok s) y1) as (y2 & Hy2 & HI2); [done | | |].
    + eapply seeded_mono; [exact HI1|].
      intros n k _ [[? ?]|[? ?]]; [by left|]. right. lia.
    + intros n0 z Hn0 Hz'.
      destruct (seed_cell _ s z n0 k0 Hz' Hwf) as (z1 & Hz1 & HIz);
        [lia | done |].
      exists z1. split.
      * rewrite <- Hz1. unfold seed, seed_mode.
        by replace (n0 =? 0) with false by lia.
      * eapply seeded_mono; [exact HIz|].
        intros n k _ [[? ?]|[? ?]]; [by left; left|].
        destruct (decide (n = n0)) as [->|]; [by right|].
        left. right. lia.
    + exists y2. split.
      * destruct (if tmpGrad y =? -1 then _ else _) as [u|] eqn:Hu;
          cbn [mbind result_bind] in Hmean |- *; [|done].
        rewrite Hmean. cbn [mbind result_bind]. exact Hy2.
      * eapply seeded_mono; [exact HI2|].
        intros n k _ [? ?]. destruct (decide (k = k0)) as [->|]; [by right|].
        left. lia.
  - exists s'. split; [exact Hs'|].
    eapply seeded_mono; [exact HI|]. intros n k Hk Hn. cbv beta. lia.
Qed.

End LinearSeed.

(** ** The setup of a linear run *)

Section LinearSetup.

Context (E : External) (c : Constants).

Lemma snapshot_setup_loop s l' :
  0 ≤ nN c →
  for_loop 0 (nN c) (snapshot E c s)
    (mkLin (zeros (nN c)) (zeros (nN c)) (zeros (nN c)) (zeros (nN c))
           0.0%float 0.0%float 0.0%float 0.0%float 0) = Ok l' →
  fresh_snapshots E c s l'.
Proof.
  intros HnN H.
  pose (I := λ (m : Z) (y : LinLocals),
    steps y = 0
    ∧ logTmpPrev y = 0.0%float ∧ logXiPrev y = 0.0%float
    ∧ logOmgPrev y = 0.0%float ∧ logPsiPrev y = 0.0%float
    ∧ len (tmpPrev y) = nN c ∧ len (xiPrev y) = nN c
    ∧ len (omgPrev y) = nN c ∧ len (psiPrev y) = nN c
    ∧ ∀ n, 0 ≤ n < m →
        0 ≤ 32 + n * nZ c < len (mem s Tmp)
        ∧ at_ (tmpPrev y) n = at_ (mem s Tmp) (32 + n * nZ c)
        ∧ at_ (omgPrev y) n = at_ (mem s Omg) (32 + n * nZ c)
        ∧ at_ (psiPrev y) n = at_ (mem s Psi) (32 + n * nZ c)
        ∧ (DDC E = true → at_ (xiPrev y) n = at_ (mem s Xi) (32 + n * nZ c))).
  eapply (for_loop_inv I); [| | | exact H]; [done | |].
  - unfold I. simpl. rewrite !len_zeros by done. split_and!; try done.
    intros n Hn. lia.
  - clear H l'. intros m y z Hm
      (Hst & H1 & H2 & H3 & H4 & HlT & HlX & HlW & HlP & Hval) Hz.
    unfold snapshot, set_prev in Hz. inv_bind Hz. injection Hz as <-.
    pose proof (rd_range _ _ _ Hx) as Hr.
    apply rd_at in Hx, Hx1, Hx2. subst x x1 x2.
    apply wr_Ok in Hx3 as [HrT ->], Hx5 as [HrP ->], Hx6 as [HrW ->].
    assert (len x4 = nN c
            ∧ ∀ n, 0 ≤ n < m + 1 → DDC E = true →
                at_ x4 n = if decide (n = m) then at_ (mem s Xi) (32 + m * nZ c)
                           else at_ (xiPrev y) n) as [HlX' HX'].
    { destruct (DDC E).
      - apply rd_at in Hx0. subst x0.
        apply wr_Ok in Hx4 as [HrX ->]. split; [by rewrite len_insert|].
        intros n Hn _. by rewrite at_insert.
      - injection Hx4 as <-. split; [done|]. intros; discriminate. }
    unfold I. simpl. rewrite !len_insert. split_and!; try done.
    intros n Hn. rewrite !at_insert by done.
    destruct (decide (n = m)) as [->|Hne].
    + split; [lia|]. split; [done|]. split; [done|]. split; [done|].
      intros Hd. rewrite (HX' m) by (done || lia). by rewrite decide_True.
    + destruct (Hval n) as (? & ? & ? & ? & HXn); [lia|].
      split; [done|]. split; [done|]. split; [done|]. split; [done|].
      intros Hd. rewrite (HX' n) by (done || lia).
      rewrite decide_False by done. by apply HXn.
Qed.

(** What [runLinear] has set up when its loop starts. *)
Lemma runLinear_setup_spec s s0 l0 :
  well_formed c s → 1 ≤ nN c →
  runLinear_setup E c s = Ok (s0, l0) →
  ∃ s1, seeded E c (λ n k, 0 ≤ n < nN c) s s1
        ∧ s0 = set_t (of_int 0) (set_current 0 s1)
        ∧ fresh_snapshots E c s1 l0.
Proof.
  intros Hwf HnN H. unfold runLinear_setup in H. inv_bind H.
  injection H as <- <-.
  destruct (linear_initial_conditions_seeds E c s Hwf HnN) as (s1 & Hs1 & Hseed).
  rewrite Hs1 in Hx. injection Hx as <-.
  apply linear_check_bcs_same in Hx0 as ->.
  exists s1. split; [done|]. split; [done|].
  apply snapshot_setup_loop; [lia | done].
Qed.

(** X17: the state in which the loop of [runLinear] starts, on a simulator whose
    arrays have their allocated sizes: the grid has more than 32 rows;
    [current] and [t] are 0; [tmp] holds the seed in every cell, whatever it
    held before; every other array but [xi], in particular [psi], [omg] and
    the two tendency buffers, is what the simulator held on entry: they are
    not cleared; the snapshots are the probes of row 32 of the seed and of
    [omg] and [psi] as found. *)
Theorem runLinear_setup_state (s s0 : Sim) (l0 : LinLocals) :
  well_formed c s → 1 ≤ nN c →
  runLinear_setup E c s = Ok (s0, l0) →
  32 < nZ c
  ∧ current s0 = 0 ∧ t s0 = of_int 0
  ∧ tmpGrad s0 = (if DDC E then 1 else -1)
  ∧ (∀ n k, 0 ≤ n < nN c → 0 ≤ k < nZ c →
       at_ (mem s0 Tmp) (nZ c * n + k) = seed E c n k)
  ∧ (∀ x, x ≠ Tmp → x ≠ Xi → mem s0 x = mem s x)
  ∧ steps l0 = 0
  ∧ ∀ n, 0 ≤ n < nN c →
      at_ (tmpPrev l0) n = seed E c n 32
      ∧ at_ (omgPrev l0) n = at_ (mem s Omg) (32 + n * nZ c)
      ∧ at_ (psiPrev l0) n = at_ (mem s Psi) (32 + n * nZ c).
Proof.
  intros Hwf HnN H.
  destruct (runLinear_setup_spec s s0 l0 Hwf HnN H) as (s1 & Hseed & -> & Hfresh).
  destruct Hseed as (Hg & _ & _ & _ & _ & _ & Hl & Hoth & _ & Hval).
  destruct Hfresh as (Hst & _ & _ & _ & _ & _ & _ & _ & _ & Hprobe).
  destruct Hwf as (Hz & _ & _ & Hlen).
  assert (32 < nZ c) as H32.
  { destruct (Hprobe (nN c - 1)) as (Hr & _); [lia|].
    rewrite Hl, Hlen in Hr. simpl in Hr. nia. }
  split; [done|]. split; [done|]. split; [done|]. split; [done|].
  cbn [set_t set_current mem].
  split; [|split; [done|split; [done|]]].
  - intros n k Hn Hk. destruct (Hval n k Hk Hn) as [HT _].
    by apply getZ_at.
  - intros n Hn. destruct (Hprobe n Hn) as (_ & -> & -> & -> & _).
    rewrite (Hoth Omg), (Hoth Psi) by done. split; [|done].
    replace (32 + n * nZ c) with (nZ c * n + 32) by lia.
    destruct (Hval n 32) as [HT _]; [lia | done |]. by apply getZ_at.
Qed.

(** X18: in a DDC build with assertions the linear driver cannot start: it seeds
    the mean profile k dz, whose value at the top row is (nZ - 1) dz, about
    1, and then asserts that [tmp] at the top row of every mode is below
    EPSILON. *)
Theorem runLinear_ddc_assertion_fails (fuel : nat) (nCrit : Z) (s : Sim) :
  DDC E = true → NDEBUG E = false →
  well_formed c s → 1 ≤ nN c → 1 ≤ nZ c →
  (of_int (nZ c - 1) * dz c <? EPSILON E)%float = false →
  runLinear E c fuel nCrit s = Err AssertionFailed.
Proof.
  intros Hddc Hnd Hwf HnN HnZ Htop. unfold runLinear, runLinear_setup.
  destruct (linear_initial_conditions_seeds E c s Hwf HnN) as (s1 & -> & Hseed).
  cbn [mbind result_bind].
  assert (linear_check_bcs E c s1 = Err AssertionFailed) as ->; [|done].
  unfold linear_check_bcs. apply for_loop_first_fails; [lia|].
  destruct Hseed as (_ & _ & _ & _ & _ & _ & Hl & _ & _ & Hval).
  destruct Hwf as (Hz & _ & _ & Hlen).
  pose proof (Hlen Tmp) as HT. simpl in HT.
  destruct (Hval 0 0) as [H0 _]; [lia | lia |].
  destruct (Hval 0 (nZ c - 1)) as [H1 _]; [lia | lia |].
  assert (rd (mem s1 Tmp) (0 * nZ c) = Ok (seed E c 0 0)) as Hr0.
  { unfold rd. replace (0 * nZ c) with (nZ c * 0 + 0) by lia. by rewrite H0. }
  assert (rd (mem s1 Tmp) (0 * nZ c + nZ c - 1) = Ok (seed E c 0 (nZ c - 1)))
    as Hr1.
  { unfold rd.
    replace (0 * nZ c + nZ c - 1) with (nZ c * 0 + (nZ c - 1)) by lia.
    by rewrite H1. }
  assert (seed E c 0 (nZ c - 1) = (of_int (nZ c - 1) * dz c)%float) as Htopv.
  { unfold seed, seed_mean. change (0 =? 0) with true. cbv iota.
    by rewrite Hddc. }
  rewrite Htopv in Hr1.
  unfold update_check_bcs. change (0 <? 0) with false. cbv iota.
  rewrite Hr0, Hr1. cbn [mbind result_bind]. rewrite Htop.
  unfold assert. rewrite Hnd. cbn [mbind result_bind].
  by destruct (seed E c 0 0 - 1 <? EPSILON E)%float.
Qed.

(** X19: the first convergence check of [runLinear] comes before the first step
    and compares every probe with the snapshot just taken of it. When the
    logarithms of the probes of the critical mode are such that each
    estimate log|x| - log|x| is within the tolerance of 0 (any probe with a
    finite logarithm), the driver returns that estimate of the temperature
    at once, without having made a step. *)
Theorem runLinear_returns_before_first_step (fuel : nat) (nCrit : Z)
    (s s0 : Sim) (l0 : LinLocals) :
  well_formed c s → 1 ≤ nN c →
  runLinear_setup E c s = Ok (s0, l0) →
  0 ≤ nCrit < nN c →
  (of_int 0 <? totalTime c)%float = true →
  (∀ x, x = Tmp ∨ x = Omg ∨ x = Psi ∨ (x = Xi ∧ DDC E = true) →
     within_tolerance
       (log_growth E (at_ (mem s0 x) (32 + nCrit * nZ c))
                     (at_ (mem s0 x) (32 + nCrit * nZ c))) 0.0 = true) →
  runLinear E c (S fuel) nCrit s
  = Ok (Some (log_growth E (at_ (mem s0 Tmp) (32 + nCrit * nZ c))
                           (at_ (mem s0 Tmp) (32 + nCrit * nZ c)))).
Proof.
  intros Hwf HnN H HnC Htime Hlog.
  destruct (runLinear_setup_spec s s0 l0 Hwf HnN H) as (s1 & Hseed & Hs0 & Hfresh).
  unfold runLinear. rewrite H. cbn [mbind result_bind].
  assert (t s0 = of_int 0) as Ht by (by subst s0).
  assert (∀ x, mem s0 x = mem s1 x) as Hmem by (by subst s0).
  destruct Hseed as (_ & _ & _ & _ & _ & _ & Hl & _).
  destruct Hfresh as (Hst & HlogT & HlogX & HlogW & HlogP
                      & HlT & HlX & HlW & HlP & Hprobe).
  destruct (Hprobe nCrit HnC) as (Hr & HpT & HpW & HpP & HpX).
  assert (probes_in_range c nCrit s0 l0) as Hin.
  { destruct Hwf as (Hz & _ & _ & Hlen). split; [|lia].
    intros x. rewrite Hmem, Hl, Hlen. rewrite Hl, Hlen in Hr. simpl in Hr.
    destruct x; simpl; lia. }
  assert (converged E c nCrit s0 l0 = true) as Hconv.
  { unfold converged, estimate.
    rewrite HlogT, HlogX, HlogW, HlogP, HpT, HpW, HpP, <- !Hmem.
    rewrite (Hlog Tmp), (Hlog Omg), (Hlog Psi) by tauto.
    destruct (DDC E) eqn:Hddc; [|done].
    rewrite HpX by done. rewrite <- Hmem. by rewrite (Hlog Xi) by tauto. }
  simpl. rewrite Ht, Htime. unfold runLinear_body.
  rewrite Hst. simpl (_ =? _).
  rewrite convergence_check_converged by done.
  cbn [mbind result_bind]. unfold estimate. by rewrite HpT, <- Hmem.
Qed.

End LinearSetup.

(** ** The schedulers of the nonlinear driver *)

Section Schedulers.

Context (E : External) (c : Constants).

(** X20: the three schedulers at the head of an iteration of [runNonLinear]. A
    scheduler is due when its next time is less than EPSILON ahead of [t].
    When due, the kinetic-energy scheduler saves a sample and moves on by
    1e-4, the CFL scheduler takes the factor for this step from [checkCFL]
    and moves on by 1e4 dt, and the checkpoint scheduler writes the
    checkpoint of the current number, 7 nN nZ doubles, and moves on by
    [timeBetweenSaves]. A scheduler that is not due changes nothing. *)
Theorem nl_housekeeping_schedules (s s' : Sim) (l l' : NLLocals) :
  nl_housekeeping E c (s, l) = Ok (s', l') →
  let due (next : float) : bool := (next - t s <? EPSILON E)%float in
  KEsaveTime l'
    = (if due (KEsaveTime l) then (KEsaveTime l + 1e-4)%float
       else KEsaveTime l)
  ∧ CFLCheckTime l'
    = (if due (CFLCheckTime l) then (CFLCheckTime l + 1e4 * dt c)%float
       else CFLCheckTime l)
  ∧ saveTime l'
    = (if due (saveTime l) then (saveTime l + timeBetweenSaves c)%float
       else saveTime l)
  ∧ f l'
    = (if due (CFLCheckTime l)
       then checkCFL E (mem s Psi) (dz c) (dx c) (dt c) (a c) (nN c) (nX c)
              (nZ c)
       else f l)
  ∧ keCurrent s'
    = (if due (KEsaveTime l) then ke_total_at E c (mem s Psi)
       else keCurrent s)
  ∧ kePrev s' = (if due (KEsaveTime l) then keCurrent s else kePrev s)
  ∧ saveNumber s'
    = (if due (saveTime l) then saveNumber s + 1 else saveNumber s)
  ∧ (due (saveTime l) = true →
       ∃ blob, fs s' !! vars_name E c (saveNumber s) = Some blob
               ∧ len blob = 7 * (nN c * nZ c))
  ∧ (due (KEsaveTime l) = false → due (saveTime l) = false → fs s' = fs s).
Proof.
  unfold nl_housekeeping. intros H. simpl.
  apply bind_Ok in H as ([s1 l1] & H1 & H).
  apply bind_Ok in H as ([s2 l2] & H2 & H3).
  assert (same_simulation s s1
          ∧ saveNumber s1 = saveNumber s ∧ fs_denied s1 = fs_denied s
          ∧ saveTime l1 = saveTime l ∧ CFLCheckTime l1 = CFLCheckTime l
          ∧ f l1 = f l
          ∧ KEsaveTime l1
            = (if (KEsaveTime l - t s <? EPSILON E)%float
               then (KEsaveTime l + 1e-4)%float else KEsaveTime l)
          ∧ keCurrent s1
            = (if (KEsaveTime l - t s <? EPSILON E)%float
               then ke_total_at E c (mem s Psi) else keCurrent s)
          ∧ kePrev s1
            = (if (KEsaveTime l - t s <? EPSILON E)%float
               then keCurrent s else kePrev s)
          ∧ ((KEsaveTime l - t s <? EPSILON E)%float = false → fs s1 = fs s))
    as (Hsame1 & Hnum1 & Hden1 & HS1 & HC1 & Hf1 & HK1 & Hke1 & Hkp1 & Hfs1).
  { destruct (KEsaveTime l - t s <? EPSILON E)%float.
    - inv_bind H1. injection H1 as <- <-.
      destruct (saveKineticEnergy_effects E c _ _ Hx)
        as (? & ? & ? & ? & ? & _).
      by split_and!.
    - injection H1 as <- <-. split_and!; try done. }
  destruct Hsame1 as (Hmem1 & _ & Ht1 & _).
  rewrite Ht1, HC1, Hmem1 in H2.
  assert (s2 = s1 ∧ saveTime l2 = saveTime l ∧ KEsaveTime l2 = KEsaveTime l1
          ∧ CFLCheckTime l2
            = (if (CFLCheckTime l - t s <? EPSILON E)%float
               then (CFLCheckTime l + 1e4 * dt c)%float else CFLCheckTime l)
          ∧ f l2
            = (if (CFLCheckTime l - t s <? EPSILON E)%float
               then checkCFL E (mem s Psi) (dz c) (dx c) (dt c) (a c) (nN c)
                      (nX c) (nZ c)
               else f l))
    as (-> & HS2 & HK2 & HC2 & Hf2).
  { destruct (CFLCheckTime l - t s <? EPSILON E)%float;
      injection H2 as <- <-; by split_and!. }
  rewrite Ht1, HS2 in H3.
  destruct (saveTime l - t s <? EPSILON E)%float.
  - inv_bind H3. injection H3 as <- <-. simpl.
    pose proof (save_Ok E c _ _ Hx) as (_ & Hnum & _ & Hkp & Hke & blob & Hfs & Hlen).
    rewrite Hnum1 in Hnum, Hfs.
    split_and!; try done; try congruence.
    + intros _. exists blob. split; [|done]. by rewrite Hfs, lookup_insert_eq.
  - injection H3 as <- <-. split_and!; try done; try congruence.
    intros Hk _. by apply Hfs1.
Qed.

End Schedulers.

(** ** The simulator after construction *)

Section Construction.

Context (E : External) (c : Constants).





End Construction.

(** ** The linear tendency of the second scalar *)

Section LinearXi.

Context (E : External) (c : Constants).

Lemma linear_cell_xi ls n k s s' :
  linear_cell E c ls n k s = Ok s' →
  if DDC E
  then getZ (mem s' DXidt) (cell c (current s) n k)
       = Some (linear_dXidt E c ls n k s)
  else mem s' DXidt = mem s DXidt.
Proof.
  unfold linear_cell, cell, linear_dXidt.
  set (di := current s * nZ c * nN c + n * nZ c + k).
  intros H.
  destruct (DDC E), (ls =? 1); inv_bind H; track_stores.
  all: simpl_sim.
  all: rewrite ?getZ_insert by (by rewrite ?len_insert).
  all: rewrite ?at_insert by (by rewrite ?len_insert).
  all: by rewrite ?decide_True by done.
Qed.

Lemma linear_dXidt_same_fields ls n k s y :
  same_fields s y → linear_dXidt E c ls n k y = linear_dXidt E c ls n k s.
Proof.
  intros Hf. unfold linear_dXidt.
  by rewrite (sf_xi _ _ Hf), (sf_psi _ _ Hf), (sf_xiGrad _ _ Hf).
Qed.

(** X22: the linear tendency of the second scalar. In a DDC build the linear
    pass leaves in the current slot of [dXidt], for every mode
    [linearSim <= n < nN] and interior row [k],
    tau (d2xi_n/dz2 - (n pi / a)^2 xi_n), and in the linear run mode adds
    -xiGrad (n pi / a) psi_n to it. In a build without DDC it never touches
    [dXidt]. *)
Theorem computeLinearDerivatives_second_scalar (linearSim : Z) (s s' : Sim) :
  computeLinearDerivatives E c linearSim s = Ok s' →
  if DDC E
  then ∀ n k, linearSim ≤ n < nN c → 1 ≤ k ≤ nZ c - 2 →
         let di := current s * nZ c * nN c + n * nZ c + k in
         let i := k + n * nZ c in
         let diffusion :=
           (tau c * (dfdz2_at (mem s Xi) i (dz c)
                     - c_pow E (of_int n * M_PI / of_int (a c)) 2
                       * at_ (mem s Xi) i))%float in
         getZ (mem s' DXidt) di
         = Some (if linearSim =? 1
                 then (diffusion
                       + of_int (-1 * xiGrad s * n) * M_PI / of_int (a c)
                         * at_ (mem s Psi) i)%float
                 else diffusion)
  else mem s' DXidt = mem s DXidt.
Proof.
  intros H. unfold computeLinearDerivatives in H.
  pose (P := λ (y : Sim) (n k : Z),
    if DDC E
    then getZ (mem y DXidt) (cell c (current s) n k)
         = Some (linear_dXidt E c linearSim n k s)
    else mem y DXidt = mem s DXidt).
  pose (I := λ (n0 k0 : Z) (y : Sim),
    tend_frame (λ _, True) s y
    ∧ (DDC E = false → mem y DXidt = mem s DXidt)
    ∧ ∀ n k, linearSim ≤ n → 1 ≤ k ≤ nZ c - 2 →
        n < n0 ∨ (n = n0 ∧ k < k0) → P y n k).
  assert (∀ n0 k0 y z, 1 ≤ k0 ≤ nZ c - 2 → I n0 k0 y →
            linear_cell E c linearSim n0 k0 y = Ok z → I n0 (k0 + 1) z)
    as Hcell.
  { intros n0 k0 y z Hk0 (Hf & Hno & Hseen) Hz.
    pose proof (linear_cell_xi _ _ _ _ _ Hz) as Hxi.
    pose proof (linear_cell_spec E c _ _ _ _ _ Hz) as [Hfz _].
    pose proof (tf_fields _ _ _ Hf) as Hsf.
    rewrite (sf_current _ _ Hsf) in Hxi, Hfz.
    rewrite (linear_dXidt_same_fields _ _ _ _ _ Hsf) in Hxi.
    split; [|split].
    - eapply tend_frame_trans; [exact Hf|].
      eapply tend_frame_mono; [|exact Hfz]. done.
    - intros Hd. rewrite Hd in Hxi. rewrite Hxi. by apply Hno.
    - intros n k Hn Hk Hs. unfold P.
      destruct (DDC E) eqn:Hddc.
      + destruct (decide (n = n0 ∧ k = k0)) as [[-> ->]|Hne]; [done|].
        rewrite (tf_out _ _ _ Hfz).
        * specialize (Hseen n k Hn Hk). unfold P in Hseen.
          try rewrite Hddc in Hseen. apply Hseen. lia.
        * intros Heq. apply (cell_inj c) in Heq; lia.
      + rewrite Hxi. by apply Hno. }
  assert (I (Z.max linearSim (nN c)) 0 s') as (_ & Hno & Hseen).
  { destruct (Z.le_gt_cases (nN c) linearSim) as [Hn|Hn].
    { rewrite for_loop_nil in H by done. injection H as <-.
      split; [apply tend_frame_refl|]. split; [done|].
      intros n k Hn' Hk Hs. unfold P. destruct (DDC E); [|done]. lia. }
    replace (Z.max linearSim (nN c)) with (nN c) by lia.
    eapply (for_loop_inv (λ n0 y, I n0 0 y)); [| | | exact H]; [lia | |].
    { split; [apply tend_frame_refl|]. split; [done|].
      intros n k Hn' Hk Hs. lia. }
    clear H. intros n0 y y' Hn0 HI Hy'. cbv beta in Hy'.
    destruct (Z.le_gt_cases (nZ c - 1) 1) as [Hz|Hz].
    { rewrite for_loop_nil in Hy' by done. injection Hy' as <-.
      destruct HI as (Hf & Hno & Hseen). split; [done|]. split; [done|].
      intros n k Hn' Hk Hs. lia. }
    assert (I n0 (nZ c - 1) y') as (Hf' & Hno' & Hseen').
    { eapply (for_loop_inv (λ k0 z, I n0 k0 z)); [| | | exact Hy']; [lia | |].
      - destruct HI as (Hf & Hno & Hseen). split; [done|]. split; [done|].
        intros n k Hn' Hk Hs. apply Hseen; [done | done | lia].
      - intros k0 z z' Hk0 Hz' Hstep. apply (Hcell n0 k0 z); [lia|done|done]. }
    split; [done|]. split; [done|].
    intros n k Hn' Hk Hs. apply Hseen'; [done | done | lia]. }
  destruct (DDC E) eqn:Hddc; [|by apply Hno].
  intros n k Hn Hk. simpl.
  specialize (Hseen n k (proj1 Hn) Hk). unfold P in Hseen.
  try rewrite Hddc in Hseen. unfold cell, linear_dXidt, kx in Hseen.
  apply Hseen. lia.
Qed.

End LinearXi.

(** ** The further properties on concrete runs *)

Section FurtherWitnesses.

Lemma ddc_state_well_formed : well_formed small_grid ddc_state.
Proof.
  split; [simpl; lia|]. split; [simpl; lia|]. split; [simpl; lia|].
  intros x. destruct x; reflexivity.
Defined.

Lemma restart_state_well_formed : well_formed small_grid restart_state.
Proof.
  split; [simpl; lia|]. split; [simpl; lia|]. split; [simpl; lia|].
  intros x. destruct x; reflexivity.
Defined.

Lemma truncated_state_well_formed : well_formed small_grid truncated_state.
Proof.
  split; [simpl; lia|]. split; [simpl; lia|]. split; [simpl; lia|].
  intros x. destruct x; reflexivity.
Defined.

Lemma probe_state_well_formed : well_formed probe_grid probe_state.
Proof.
  split; [simpl; lia|]. split; [simpl; lia|]. split; [simpl; lia|].
  intros x. destruct x; vm_compute; reflexivity.
Defined.

Lemma ddc_linear_pass_completes :
  computeLinearDerivatives ddc_build small_grid 1 ddc_state
  = Ok ddc_linear_result.
Proof. vm_compute. reflexivity. Defined.

Lemma xi_update_completes :
  updateXi small_grid 1%float ddc_linear_result = Ok xi_update_result.
Proof. vm_compute. reflexivity. Defined.

Lemma poisson_completes :
  solveForPsi debug_build small_grid small_state = Ok poisson_result.
Proof. vm_compute. reflexivity. Defined.

Lemma linear_step_completes :
  runLinear_step debug_build small_grid small_state = Ok linear_step_result.
Proof. vm_compute. reflexivity. Defined.

Lemma first_save_completes :
  save debug_build small_grid small_state = Ok first_save_result.
Proof. vm_compute. reflexivity. Defined.

Lemma second_save_completes :
  save debug_build small_grid first_save_result = Ok second_save_result.
Proof. vm_compute. reflexivity. Defined.

Lemma housekeeping_completes :
  nl_housekeeping debug_build small_grid (small_state, small_locals)
  = Ok (housekeeping_result.1, housekeeping_result.2).
Proof. vm_compute. reflexivity. Defined.

Lemma linear_setup_completes :
  runLinear_setup release_build probe_grid probe_state
  = Ok (linear_start.1, linear_start.2).
Proof. vm_compute. reflexivity. Defined.

Lemma small_state_mean_tendencies_zero :
  mean_tendencies_zero small_grid small_state.
Proof.
  intros slot k Hslot Hk.
  assert (slot = 0 ∨ slot = 1) as [-> | ->] by lia;
    (assert (k = 0 ∨ k = 1 ∨ k = 2 ∨ k = 3) as [-> | [-> | [-> | ->]]]
       by (simpl in Hk; lia));
    split; reflexivity.
Defined.

(** X1: on the small state. *)
Lemma reinit_clears_arrays_witness :
  well_formed small_grid small_state
  ∧ ∃ s', reinit debug_build small_grid small_state = Ok s'
      ∧ (∀ x, x ∈ [Psi; Omg; Tmp; DTmpdt; DOmgdt] →
           mem s' x = init_mem small_grid x)
      ∧ (∀ x, x ∈ [Xi; DXidt] → mem s' x = mem small_state x)
      ∧ same_scalars small_state s'.
Proof.
  split; [exact small_state_well_formed|].
  exact (reinit_clears_arrays debug_build small_grid small_state
           small_state_well_formed).
Defined.

(** X2: the largest vorticity of the small state is 2, at row 2 of mode 1. *)
Lemma printMaxOf_reports_maximum_witness :
  printMaxOf small_grid (mem small_state Omg) = Ok (2%float, 2, 1)
  ∧ getZ (mem small_state Omg) (1 * nZ small_grid + 2) = Some 2%float
  ∧ ∀ n' k', 0 ≤ n' < nN small_grid → 0 ≤ k' < nZ small_grid →
      (2 <? at_ (mem small_state Omg) (n' * nZ small_grid + k'))%float = false.
Proof.
  assert (printMaxOf small_grid (mem small_state Omg) = Ok (2%float, 2, 1))
    as H by (vm_compute; reflexivity).
  split; [exact H|].
  destruct (printMaxOf_reports_maximum small_grid (mem small_state Omg)
              2%float 2 1 H) as (Hv & Hmax & _).
  split; [exact Hv | exact Hmax].
Defined.

(** X3: two saves of the small state. *)
Lemma save_keeps_earlier_checkpoint_witness :
  well_formed small_grid small_state
  ∧ save debug_build small_grid small_state = Ok first_save_result
  ∧ save debug_build small_grid first_save_result = Ok second_save_result
  ∧ strFromNumber debug_build (saveNumber small_state)
    ≠ strFromNumber debug_build (saveNumber small_state + 1)
  ∧ fs second_save_result !! "out/vars0.dat"
    = Some (checkpoint small_grid small_state)
  ∧ saveNumber second_save_result = 2.
Proof.
  assert (strFromNumber debug_build (saveNumber small_state)
          ≠ strFromNumber debug_build (saveNumber small_state + 1)) as Hne
    by (vm_compute; discriminate).
  split; [exact small_state_well_formed|].
  split; [exact first_save_completes|].
  split; [exact second_save_completes|].
  split; [exact Hne|].
  destruct (save_keeps_earlier_checkpoint debug_build small_grid small_state
              first_save_result first_save_result second_save_result
              small_state_well_formed first_save_completes eq_refl eq_refl
              second_save_completes Hne) as (Hfs & Hnum & _).
  split; [exact Hfs | exact Hnum].
Defined.

(** X4: restarting from the checkpoint of the small state. *)
Lemma load_then_save_reproduces_file_witness :
  well_formed small_grid restart_state
  ∧ fs restart_state !! "ic.dat" = Some (checkpoint small_grid small_state)
  ∧ len (checkpoint small_grid small_state)
    = 7 * (nN small_grid * nZ small_grid)
  ∧ (vars_name debug_build small_grid (saveNumber restart_state)
       ∉ fs_denied restart_state)
  ∧ ∃ s1 s2, load small_grid Tmp Omg Psi "ic.dat" restart_state = Ok s1
      ∧ save debug_build small_grid s1 = Ok s2
      ∧ fs s2 !! vars_name debug_build small_grid (saveNumber restart_state)
        = Some (checkpoint small_grid small_state).
Proof.
  assert (fs restart_state !! "ic.dat"
          = Some (checkpoint small_grid small_state)) as Hfile
    by (vm_compute; reflexivity).
  assert (len (checkpoint small_grid small_state)
          = 7 * (nN small_grid * nZ small_grid)) as Hlen by reflexivity.
  assert (vars_name debug_build small_grid (saveNumber restart_state)
            ∉ fs_denied restart_state) as Hden by (simpl; set_solver).
  split; [exact restart_state_well_formed|].
  split; [exact Hfile|]. split; [exact Hlen|]. split; [exact Hden|].
  exact (load_then_save_reproduces_file debug_build small_grid restart_state
           "ic.dat" (checkpoint small_grid small_state)
           restart_state_well_formed Hfile Hlen Hden).
Defined.

(** X5: a file of two doubles. *)
Lemma load_accepts_any_length_witness :
  well_formed small_grid truncated_state
  ∧ fs truncated_state !! "ic.dat" = Some [7; 8]%float
  ∧ ∃ s', load small_grid Tmp Omg Psi "ic.dat" truncated_state = Ok s'
      ∧ mem s' Tmp
        = ([7; 8] ++ drop 2 (mem truncated_state Tmp))%float
      ∧ ∀ x, x ≠ Tmp → mem s' x = mem truncated_state x.
Proof.
  assert (fs truncated_state !! "ic.dat" = Some [7; 8]%float) as Hfile
    by (vm_compute; reflexivity).
  split; [exact truncated_state_well_formed|].
  split; [exact Hfile|].
  destruct (load_accepts_any_length small_grid truncated_state "ic.dat"
              [7; 8]%float truncated_state_well_formed Hfile)
    as (s' & Hload & _ & _ & _ & _ & Hshort).
  exists s'. split; [exact Hload|].
  apply Hshort. reflexivity.
Defined.

(** X6: the energy samples of the small state. *)
Lemma saveKineticEnergy_appends_samples_witness :
  1 ≤ nZ small_grid
  ∧ len (mem small_state Psi) = nN small_grid * nZ small_grid
  ∧ ∃ s', saveKineticEnergy debug_build small_grid small_state = Ok s'
      ∧ same_simulation small_state s'
      ∧ keCurrent s' = ke_total_at debug_build small_grid (mem small_state Psi)
      ∧ fs s' !! "out/KineticEnergyMode2.dat"
        = Some [ke_mode_at debug_build small_grid 2 (mem small_state Psi)].
Proof.
  assert (1 ≤ nZ small_grid) as Hz by (simpl; lia).
  assert (len (mem small_state Psi) = nN small_grid * nZ small_grid) as Hlen
    by reflexivity.
  split; [exact Hz|]. split; [exact Hlen|].
  destruct (saveKineticEnergy_appends_samples debug_build small_grid
              small_state Hz Hlen)
    as (s' & Hrun & Hsim & _ & Hke & _ & _ & _ & Hmodes).
  exists s'. split; [exact Hrun|]. split; [exact Hsim|]. split; [exact Hke|].
  apply (Hmodes (λ n m _ _, pretty_Z_inj n m) 2).
  - simpl. lia.
  - simpl. set_solver.
Defined.

(** X7: the update of the second scalar after a linear pass of the DDC
    build. *)
Lemma updateXi_adds_increment_witness :
  updateXi small_grid 1%float ddc_linear_result = Ok xi_update_result
  ∧ getZ (mem xi_update_result Xi) (1 * nZ small_grid + 1)
    = Some (at_ (mem ddc_linear_result Xi) (1 * nZ small_grid + 1)
            + ab_increment small_grid 1 (mem ddc_linear_result DXidt)
                (current ddc_linear_result) 1 1)%float.
Proof.
  split; [exact xi_update_completes|].
  destruct (updateXi_adds_increment small_grid 1%float ddc_linear_result
              xi_update_result xi_update_completes)
    as (_ & _ & _ & Hcell & _).
  apply Hcell; simpl; lia.
Defined.

(** X8: the update of the small grid passes its checks. *)
Lemma updateTmpAndOmg_checks_witness :
  NDEBUG debug_build = false
  ∧ updateTmpAndOmg debug_build small_grid 1%float nonlinear_pass_result
    = Ok update_result
  ∧ ∀ n k, 0 ≤ n < nN small_grid → 0 ≤ k < nZ small_grid →
      PrimFloat.is_nan (at_ (mem update_result Tmp) (n * nZ small_grid + k))
      = false
      ∧ PrimFloat.is_nan (at_ (mem update_result Omg) (n * nZ small_grid + k))
        = false.
Proof.
  split; [reflexivity|]. split; [exact update_completes|].
  exact (proj1 (updateTmpAndOmg_checks debug_build small_grid 1%float
                  nonlinear_pass_result update_result eq_refl
                  update_completes)).
Defined.

(** X9: a linear step of the small state. *)
Lemma runLinear_step_keeps_mean_witness :
  runLinear_step debug_build small_grid small_state = Ok linear_step_result
  ∧ 0 ≤ current small_state ≤ 1 ∧ 0 < nN small_grid
  ∧ mean_tendencies_zero small_grid small_state
  ∧ is_finite (dt small_grid) = true
  ∧ mean_tendencies_zero small_grid linear_step_result
  ∧ ∀ k, 0 ≤ k < nZ small_grid →
      same_value (at_ (mem linear_step_result Tmp) k)
        (at_ (mem small_state Tmp) k)
      ∧ same_value (at_ (mem linear_step_result Omg) k)
          (at_ (mem small_state Omg) k).
Proof.
  assert (0 ≤ current small_state ≤ 1) as Hcur by (simpl; lia).
  assert (0 < nN small_grid) as Hn by (simpl; lia).
  split; [exact linear_step_completes|].
  split; [exact Hcur|]. split; [exact Hn|].
  split; [exact small_state_mean_tendencies_zero|].
  split; [reflexivity|].
  destruct (runLinear_step_keeps_mean debug_build small_grid small_state
              linear_step_result linear_step_completes Hcur Hn
              small_state_mean_tendencies_zero eq_refl)
    as (Hmean & _ & Hrows).
  split; [exact Hmean | exact Hrows].
Defined.

(** X10: on the small state. *)
Lemma computeNonLinearDerivatives_completes_witness :
  well_formed small_grid small_state
  ∧ ∃ s', computeNonLinearDerivatives debug_build small_grid small_state
          = Ok s'
      ∧ well_formed small_grid s' ∧ same_fields small_state s'.
Proof.
  split; [exact small_state_well_formed|].
  exact (computeNonLinearDerivatives_completes debug_build small_grid
           small_state small_state_well_formed).
Defined.

(** X11: the mean tendency of the small grid at row 1. *)
Lemma computeNonLinearDerivatives_mean_mode_witness :
  computeNonLinearDerivatives debug_build small_grid linear_pass_result
    = Ok nonlinear_pass_result
  ∧ 1 ≤ 1 ≤ nZ small_grid - 2
  ∧ at_ (mem nonlinear_pass_result DOmgdt) 1
    = at_ (mem linear_pass_result DOmgdt) 1.
Proof.
  split; [exact nonlinear_pass_completes|].
  split; [simpl; lia|].
  refine (proj2 (computeNonLinearDerivatives_mean_mode debug_build small_grid
                   linear_pass_result nonlinear_pass_result 1
                   nonlinear_pass_completes _)).
  simpl; lia.
Defined.

(** X12: the nonlinear pass on the grid with a single mode. *)
Lemma computeNonLinearDerivatives_trivial_grid_witness :
  (nN minimal_grid ≤ 1 ∨ nZ minimal_grid ≤ 2)
  ∧ computeNonLinearDerivatives debug_build minimal_grid
      (zeroed minimal_grid 0 0%float ∅ ∅)
    = Ok (zeroed minimal_grid 0 0%float ∅ ∅).
Proof.
  assert (nN minimal_grid ≤ 1 ∨ nZ minimal_grid ≤ 2) as H
    by (left; simpl; lia).
  split; [exact H|].
  exact (computeNonLinearDerivatives_trivial_grid debug_build minimal_grid
           (zeroed minimal_grid 0 0%float ∅ ∅) H).
Defined.

(** X13: the vorticity tendency of mode 1 at row 1 of the small grid
    receives one triad, m = 2 with o = 1, and then one, m = 1 with o = 2. *)
Lemma computeNonLinearDerivatives_contributions_witness :
  computeNonLinearDerivatives debug_build small_grid linear_pass_result
    = Ok nonlinear_pass_result
  ∧ 1 ≤ 1 < nN small_grid ∧ 1 ≤ 1 ≤ nZ small_grid - 2
  ∧ let P := mem linear_pass_result Psi in
    let W := mem linear_pass_result Omg in
    let bracket (sm o m : Z) : float :=
      (of_int sm * dfdz_at P (4 * o + 1) (dz small_grid) * at_ W (4 * m + 1)
       + of_int o * dfdz_at W (4 * m + 1) (dz small_grid)
         * at_ P (4 * o + 1))%float in
    at_ (mem nonlinear_pass_result DOmgdt) 5
    = accumulate
        [(- M_PI / of_int 6 * bracket 2%Z 1%Z 2%Z)%float;
         (M_PI / of_int 6 * bracket 1%Z 2%Z 1%Z)%float]
        (at_ (mem linear_pass_result DOmgdt) 5).
Proof.
  split; [exact nonlinear_pass_completes|].
  split; [simpl; lia|]. split; [simpl; lia|].
  refine (proj2 (computeNonLinearDerivatives_contributions debug_build
                   small_grid linear_pass_result nonlinear_pass_result 1 1
                   nonlinear_pass_completes _ _)); simpl; lia.
Defined.

(** X14: the Poisson solve of the small state. *)
Lemma solveForPsi_solves_each_mode_witness :
  solveForPsi debug_build small_grid small_state = Ok poisson_result
  ∧ (∀ x, x ≠ Psi → mem poisson_result x = mem small_state x)
  ∧ ∀ s'', solveForPsi debug_build small_grid poisson_result = Ok s'' →
      ∀ x, mem s'' x = mem poisson_result x.
Proof.
  split; [exact poisson_completes|].
  destruct (solveForPsi_solves_each_mode debug_build small_grid small_state
              poisson_result poisson_completes) as (Hoth & _ & _ & Hidem).
  split; [exact Hoth | exact Hidem].
Defined.

(** X15: a step from the small state. *)
Lemma integrator_step_memory_safe_witness :
  well_formed small_grid small_state
  ∧ 1 ≤ nZ small_grid ∧ 1 ≤ nN small_grid
  ∧ well_formed small_grid step_result
  ∧ current step_result = 1
  ∧ t step_result = (0 + dt small_grid)%float.
Proof.
  assert (1 ≤ nZ small_grid) as Hz by (simpl; lia).
  assert (1 ≤ nN small_grid) as Hn by (simpl; lia).
  split; [exact small_state_well_formed|].
  split; [exact Hz|]. split; [exact Hn|].
  exact (proj1 (integrator_step_memory_safe debug_build small_grid true
                  1%float small_state small_state_well_formed Hz Hn)
           step_result step_completes).
Defined.

(** X16: a run of no time from a simulator constructed with [current] = 1. *)
Lemma runNonLinear_without_steps_witness :
  well_formed idle_grid restart_state
  ∧ fs restart_state !! icFile idle_grid
    = Some (checkpoint small_grid small_state)
  ∧ len (checkpoint small_grid small_state)
    = 7 * (nN idle_grid * nZ idle_grid)
  ∧ (vars_name debug_build idle_grid (saveNumber restart_state)
       ∉ fs_denied restart_state)
  ∧ (EPSILON debug_build <? totalTime idle_grid - 0)%float = false
  ∧ ∃ s', runNonLinear debug_build idle_grid 5 restart_state = Ok (Some s')
      ∧ current s' = 0
      ∧ fs s' !! vars_name debug_build idle_grid (saveNumber restart_state)
        = Some (slots_exchanged idle_grid (checkpoint small_grid small_state)).
Proof.
  assert (fs restart_state !! icFile idle_grid
          = Some (checkpoint small_grid small_state)) as Hfile
    by (vm_compute; reflexivity).
  assert (len (checkpoint small_grid small_state)
          = 7 * (nN idle_grid * nZ idle_grid)) as Hlen by reflexivity.
  assert (vars_name debug_build idle_grid (saveNumber restart_state)
            ∉ fs_denied restart_state) as Hden by (simpl; set_solver).
  split; [exact restart_state_well_formed|].
  split; [exact Hfile|]. split; [exact Hlen|]. split; [exact Hden|].
  split; [reflexivity|].
  destruct (runNonLinear_without_steps debug_build idle_grid 5 restart_state
              (checkpoint small_grid small_state) restart_state_well_formed
              Hfile Hlen Hden eq_refl)
    as (s' & Hrun & Hcur & _ & _ & Hfs).
  exists s'. split; [exact Hrun|]. split; [exact Hcur | exact Hfs].
Defined.

(** X17: the setup of the linear driver on the probe grid. *)
Lemma runLinear_setup_state_witness :
  well_formed probe_grid probe_state ∧ 1 ≤ nN probe_grid
  ∧ runLinear_setup release_build probe_grid probe_state
    = Ok (linear_start.1, linear_start.2)
  ∧ t linear_start.1 = of_int 0
  ∧ mem linear_start.1 Omg = mem probe_state Omg
  ∧ mem linear_start.1 Psi = mem probe_state Psi.
Proof.
  assert (1 ≤ nN probe_grid) as Hn by (simpl; lia).
  split; [exact probe_state_well_formed|]. split; [exact Hn|].
  split; [exact linear_setup_completes|].
  destruct (runLinear_setup_state release_build probe_grid probe_state
              linear_start.1 linear_start.2 probe_state_well_formed Hn
              linear_setup_completes)
    as (_ & _ & Ht & _ & _ & Hoth & _).
  split; [exact Ht|]. split; apply Hoth; discriminate.
Defined.

(** X18: the linear driver of the DDC build with assertions. *)
Lemma runLinear_ddc_assertion_fails_witness :
  DDC ddc_build = true ∧ NDEBUG ddc_build = false
  ∧ well_formed small_grid ddc_state
  ∧ 1 ≤ nN small_grid ∧ 1 ≤ nZ small_grid
  ∧ (of_int (nZ small_grid - 1) * dz small_grid <? EPSILON ddc_build)%float
    = false
  ∧ runLinear ddc_build small_grid 3 1 ddc_state = Err AssertionFailed.
Proof.
  assert (1 ≤ nN small_grid) as Hn by (simpl; lia).
  assert (1 ≤ nZ small_grid) as Hz by (simpl; lia).
  split; [reflexivity|]. split; [reflexivity|].
  split; [exact ddc_state_well_formed|].
  split; [exact Hn|]. split; [exact Hz|]. split; [reflexivity|].
  exact (runLinear_ddc_assertion_fails ddc_build small_grid 3 1 ddc_state
           eq_refl eq_refl ddc_state_well_formed Hn Hz eq_refl).
Defined.

(** X19: on the probe grid, with [omg] and [psi] equal to 1 at the probes,
    the driver returns 0 for the critical mode 1 without making a step. *)
Lemma runLinear_returns_before_first_step_witness :
  well_formed probe_grid probe_state ∧ 1 ≤ nN probe_grid
  ∧ runLinear_setup release_build probe_grid probe_state
    = Ok (linear_start.1, linear_start.2)
  ∧ 0 ≤ 1 < nN probe_grid
  ∧ (of_int 0 <? totalTime probe_grid)%float = true
  ∧ runLinear release_build probe_grid 1 1 probe_state
    = Ok (Some (log_growth release_build
                  (at_ (mem linear_start.1 Tmp) (32 + 1 * nZ probe_grid))
                  (at_ (mem linear_start.1 Tmp) (32 + 1 * nZ probe_grid)))).
Proof.
  assert (1 ≤ nN probe_grid) as Hn by (simpl; lia).
  assert (0 ≤ 1 < nN probe_grid) as Hcrit by (simpl; lia).
  split; [exact probe_state_well_formed|]. split; [exact Hn|].
  split; [exact linear_setup_completes|].
  split; [exact Hcrit|]. split; [reflexivity|].
  apply (runLinear_returns_before_first_step release_build probe_grid 0 1
           probe_state linear_start.1 linear_start.2 probe_state_well_formed
           Hn linear_setup_completes Hcrit eq_refl).
  intros x [-> | [-> | [-> | [_ Hddc]]]];
    [vm_compute; reflexivity .. | discriminate Hddc].
Defined.

(** X20: the head of the first iteration on the small state: all three
    schedulers are due. *)
Lemma nl_housekeeping_schedules_witness :
  nl_housekeeping debug_build small_grid (small_state, small_locals)
    = Ok (housekeeping_result.1, housekeeping_result.2)
  ∧ saveTime housekeeping_result.2
    = (saveTime small_locals + timeBetweenSaves small_grid)%float
  ∧ saveNumber housekeeping_result.1 = saveNumber small_state + 1.
Proof.
  split; [exact housekeeping_completes|].
  destruct (nl_housekeeping_schedules debug_build small_grid small_state
              housekeeping_result.1 small_locals housekeeping_result.2
              housekeeping_completes)
    as (_ & _ & Hsave & _ & _ & _ & Hnum & _).
  split; [exact Hsave | exact Hnum].
Defined.


(** X22: the linear pass of the DDC build in the linear run mode, mode 1,
    row 1. *)
Lemma computeLinearDerivatives_second_scalar_witness :
  computeLinearDerivatives ddc_build small_grid 1 ddc_state
    = Ok ddc_linear_result
  ∧ getZ (mem ddc_linear_result DXidt) 5
    = Some (tau small_grid
            * (dfdz2_at (mem ddc_state Xi) 5 (dz small_grid)
               - ref_pow (of_int 1 * M_PI / of_int 3) 2
                 * at_ (mem ddc_state Xi) 5)
            + of_int (-1 * xiGrad ddc_state * 1) * M_PI / of_int 3
              * at_ (mem ddc_state Psi) 5)%float.
Proof.
  split; [exact ddc_linear_pass_completes|].
  refine (computeLinearDerivatives_second_scalar ddc_build small_grid 1
            ddc_state ddc_linear_result ddc_linear_pass_completes 1 1 _ _);
    simpl; lia.
Defined.

End FurtherWitnesses.
